(** * TrivialDB query execution core: a shallow embedding of
    [src/database/database.cpp] (the [dbms] iterators, the many-table join
    planner and the SELECT / INSERT statement drivers) and the properties
    its specification states about them.

    Conventions of the embedding.
    - A C++ [int] that is only ever an array position (table index, column
      index, recursion depth) is a [nat]; the sentinel [-1] of a failed
      lookup is [None].  Other [int]s are [Z].
    - A nullable pointer is an [option]; dereferencing [None], indexing a
      vector or a [new[]] array out of range, and a failing [assert] are
      undefined behaviour or an abort in the source and are a [Fault] here.
    - The process-wide row cache, the console (stdout and stderr) and the
      SELECT output file are threaded explicitly in a [world]; the
      variables a callback captures by reference are its [locals].
    - The expression evaluator, the type casts and the record store are
      collaborators whose sources are elsewhere; they are the fields of the
      classes [Evaluator] and [Store].
    - A callback is arbitrary code: it returns the new world and its
      continue flag, or faults.
    - The row counters of SELECT count the tuples of a product of tables
      and are kept in the range of [int]: [++counter] wraps around
      ([wrap_int]).  The counters of INSERT, UPDATE and DELETE count the
      value tuples of one statement or the rows of one table and are plain
      integers. *)

From Stdlib Require Import ZArith QArith Lia.
From stdpp Require Import base option list strings gmap pretty.

(** ** Outcomes of code that can hit undefined behaviour *)

Inductive fault : Type :=
| NullDeref
| OutOfBounds
| AssertFailed
| OutOfFuel.

Inductive outcome (A : Type) : Type :=
| Ok (a : A)
| Fault (f : fault).

Arguments Ok {A} a.
Arguments Fault {A} f.

#[global] Instance outcome_ret : MRet outcome := @Ok.

#[global] Instance outcome_bind : MBind outcome :=
  λ A B k m, match m with Ok a => k a | Fault f => Fault f end.

(** [*p] for a nullable pointer. *)
Definition deref {A : Type} (p : option A) : outcome A :=
  match p with
  | Some a => Ok a
  | None => Fault NullDeref
  end.

(** [v[i]] read and written, for [std::vector] and [new[]] arrays. *)
Definition vec_get {A : Type} (v : list A) (i : nat) : outcome A :=
  match v !! i with
  | Some a => Ok a
  | None => Fault OutOfBounds
  end.

Definition vec_set {A : Type} (v : list A) (i : nat) (a : A) : outcome (list A) :=
  if decide (i < length v) then Ok (<[i:=a]> v) else Fault OutOfBounds.

(** ** Expression trees ([expr_node_t]) *)

(** The operators the core inspects; every other operator of the parser
    (comparisons, arithmetic, OR, ...) is an [OPERATOR_OTHER] with its tag. *)
Inductive operator_type_t : Type :=
| OPERATOR_NONE
| OPERATOR_AND
| OPERATOR_EQ
| OPERATOR_MIN
| OPERATOR_MAX
| OPERATOR_SUM
| OPERATOR_AVG
| OPERATOR_COUNT
| OPERATOR_OTHER (tag : nat).

Inductive term_type_t : Type :=
| TERM_NONE
| TERM_COLUMN_REF
| TERM_INT
| TERM_FLOAT
| TERM_STRING
| TERM_BOOL
| TERM_DATE
| TERM_NULL.

#[global] Instance operator_type_eq_dec : EqDecision operator_type_t.
Proof. solve_decision. Defined.

#[global] Instance term_type_eq_dec : EqDecision term_type_t.
Proof. solve_decision. Defined.

Record column_ref_t : Type := ColumnRef { table : string; column : string }.

(** The fields of [expr_node_t] the core reads.  [e_left] and [e_right] are
    the source's [left] and [right]. *)
#[warnings="-register-all"]
Inductive expr_node_t : Type :=
| ExprNode (op : operator_type_t) (term_type : term_type_t)
    (column_ref : option column_ref_t) (e_left e_right : option expr_node_t).

Definition op (e : expr_node_t) : operator_type_t :=
  match e with ExprNode o _ _ _ _ => o end.
Definition term_type (e : expr_node_t) : term_type_t :=
  match e with ExprNode _ t _ _ _ => t end.
Definition column_ref (e : expr_node_t) : option column_ref_t :=
  match e with ExprNode _ _ c _ _ => c end.
Definition e_left (e : expr_node_t) : option expr_node_t :=
  match e with ExprNode _ _ _ l _ => l end.
Definition e_right (e : expr_node_t) : option expr_node_t :=
  match e with ExprNode _ _ _ _ r => r end.

(** ** Expression values ([expression]): a type tag and the members of the
    value union.  Floats are the rationals they denote (finite values only);
    rounding is the evaluator's [fround]. *)
Record expression : Type := Expression {
  type : term_type_t;
  val_i : Z;
  val_f : Q;
  val_s : string;
  val_b : bool
}.

(** ** Records, indexes, tables *)

(** The byte image of one column, read as an integer. *)
Definition col_data : Type := Z.

(** A record: its row id (the first four bytes) and its columns; a column
    that is NULL has no bytes. *)
Record record_manager : Type := RecordManager {
  rid : Z;
  cols : list (option col_data)
}.

(** Modelled from the spec: the index manager (B+-tree) is not part of the
    sources.  An index is an ordered map from a column value to record
    locators; only ordered iteration from [lower_bound(key)] is used.  The
    entries are kept in the order the tree iterates them, each with the
    record its locator opens. *)
Record index_manager : Type := IndexManager {
  entries : list (col_data * record_manager)
}.

(** [idx->get_iterator_lower_bound(key)] for a non-null key, followed by
    [open_record_from_index_lower_bound] on each locator: the records from
    the first entry whose key is not below [key]. *)
Fixpoint lower_bound (key : col_data) (l : list (col_data * record_manager))
  : list (col_data * record_manager) :=
  match l with
  | [] => []
  | e :: l' => if bool_decide (e.1 < key)%Z then lower_bound key l' else e :: l'
  end.

Definition get_iterator_lower_bound (idx : index_manager) (key : col_data)
  : list record_manager :=
  snd <$> lower_bound key (entries idx).

(** A table: its name, its column names (the implicit [__rowid__] last), the
    column type codes, its records in physical order, and per column the
    index on it, if any. *)
Record table_manager : Type := TableManager {
  table_name : string;
  column_names : list string;
  column_types : list Z;
  records : list record_manager;
  indexes : list (option index_manager)
}.

Definition get_table_name (tb : table_manager) : string := table_name tb.

Fixpoint find_string (name : string) (l : list string) : option nat :=
  match l with
  | [] => None
  | x :: l' => if decide (name = x) then Some 0 else S <$> find_string name l'
  end.

(** [tb->lookup_column(name)]; [None] is the source's negative result. *)
Definition lookup_column (tb : table_manager) (name : string) : option nat :=
  find_string name (column_names tb).

(** [tb->get_index(cid)], null when the column has no index (or [cid] is
    the negative result of a failed lookup). *)
Definition get_index (tb : table_manager) (cid : option nat) : option index_manager :=
  c ← cid; i ← indexes tb !! c; i.

Definition get_column_num (tb : table_manager) : nat := length (column_names tb).

Definition get_column_type (tb : table_manager) (cid : nat) : Z :=
  default 0%Z (column_types tb !! cid).

(** ** The world: row cache, console, output file, callback locals *)

Inductive out_token : Type :=
| OutText (s : string)
| OutInt (i : Z)
| OutFloat (f : Q)
| OutDate (t : Z)
| OutHeader (tb : table_manager)
| OutRecord (tb : table_manager) (rm : option record_manager)
| OutEndl.

Record world (L : Type) : Type := World {
  row_cache : gmap string record_manager;
  console : list string;
  output_file : list out_token;
  locals : L
}.

Arguments World {L} _ _ _ _.
Arguments row_cache {L} _.
Arguments console {L} _.
Arguments output_file {L} _.
Arguments locals {L} _.

Definition set_locals {L T : Type} (s : T) (w : world L) : world T :=
  World (row_cache w) (console w) (output_file w) s.

(** [std::puts], [std::printf] and [std::fprintf(stderr, ...)]. *)
Definition puts {L : Type} (msg : string) (w : world L) : world L :=
  World (row_cache w) (console w ++ [msg]) (output_file w) (locals w).

(** [std::fprintf(output_file, ...)]. *)
Definition fprint {L : Type} (t : list out_token) (w : world L) : world L :=
  World (row_cache w) (console w) (output_file w ++ t) (locals w).

(** [tb->cache_record(&rm)]: bind the record as the current row of [tb]. *)
Definition cache_record {L : Type} (tb : table_manager) (rm : record_manager)
  (w : world L) : world L :=
  World (<[table_name tb := rm]> (row_cache w)) (console w) (output_file w) (locals w).

(** [tb->get_cached_column(cid)]: the bytes of column [cid] of the current
    row of [tb]; null when the column is NULL or there is none. *)
Definition get_cached_column {L : Type} (tb : table_manager) (cid : option nat)
  (w : world L) : option col_data :=
  c ← cid; rm ← row_cache w !! table_name tb; v ← cols rm !! c; v.

(** ** Collaborators *)

(** The expression evaluator and the casts on its values.  [inl msg] is the
    [const char*] the source throws. *)
Class Evaluator : Type := {
  eval : gmap string record_manager → expr_node_t → string + expression;
  expr_to_bool : expression → string + bool;
  is_aggregate : expr_node_t → bool;
  to_string : expr_node_t → string;
  (** rounding of a real result to [float] *)
  fround : Q → Q;
  (** what [get_iterator_lower_bound(nullptr)] iterates *)
  lower_bound_null : index_manager → outcome (list record_manager)
}.

(** [typecast::expr_to_bool(expression::eval(cond))] inside its [try],
    against a row cache and in a world. *)
Definition eval_bool `{Evaluator} (cache : gmap string record_manager)
  (cond : expr_node_t) : string + bool :=
  match eval cache cond with
  | inl msg => inl msg
  | inr v => expr_to_bool v
  end.

Definition eval_cond `{Evaluator} {L : Type} (cond : expr_node_t) (w : world L)
  : string + bool :=
  eval_bool (row_cache w) cond.

(** ** [dbms::iterate_one_table] *)

Section iterate_one_table.
Context `{Evaluator} {L : Type}.
Variable tb : table_manager.
Variable cond : option expr_node_t.
Variable callback :
  table_manager → record_manager → Z → world L → outcome (world L * bool).

(** The [for] loop over the record iterator, on the records still ahead. *)
Fixpoint iterate_one_table_loop (bit : list record_manager) (w : world L)
  : outcome (world L) :=
  match bit with
  | [] => Ok w
  | rm :: bit' =>
    let w := cache_record tb rm w in
    let result :=
      match cond with
      | Some c => eval_cond c w
      | None => inr true
      end in
    match result with
    | inl msg => Ok (puts msg w)
    | inr false => iterate_one_table_loop bit' w
    | inr true =>
      '(w, go) ← callback tb rm (rid rm) w;
      if go : bool then iterate_one_table_loop bit' w else Ok w
    end
  end.

Definition iterate_one_table (w : world L) : outcome (world L) :=
  iterate_one_table_loop (records tb) w.

End iterate_one_table.

(** ** [dbms::get_join_cond] *)

(** [cond->left->term_type == TERM_COLUMN_REF && cond->right->term_type ==
    TERM_COLUMN_REF], with the short circuit of [&&]. *)
Definition both_column_refs (c : expr_node_t) : outcome bool :=
  l ← deref (e_left c);
  if decide (term_type l = TERM_COLUMN_REF) then
    r ← deref (e_right c);
    Ok (bool_decide (term_type r = TERM_COLUMN_REF))
  else Ok false.

Definition get_join_cond (cond : option expr_node_t) : outcome (option expr_node_t) :=
  match cond with
  | None => Ok None
  | Some c => b ← both_column_refs c; Ok (if b : bool then Some c else None)
  end.

(** ** [dbms::iterate_two_tables_with_joint_cond_equal] *)

Section iterate_two_tables.
Context `{Evaluator} {L : Type}.
Variable callback :
  list table_manager → list (option record_manager) → list Z → world L
  → outcome (world L * bool).

(** The inner [for] over the probe index of [tb2], for the driver record
    [tb1_rm].  The flag is true when the [catch] returned from the function. *)
Fixpoint probe_loop (tb1 tb2 : table_manager) (tb1_rm : record_manager)
  (cond : expr_node_t) (tb2_it : list record_manager) (w : world L)
  : outcome (world L * bool) :=
  match tb2_it with
  | [] => Ok (w, false)
  | tb2_rm :: tb2_it' =>
    let w := cache_record tb2 tb2_rm w in
    match eval_cond cond w with
    | inl msg => Ok (puts msg w, true)
    | inr false => Ok (w, false)
    | inr true =>
      '(w, go) ←
        callback [tb1; tb2] [Some tb1_rm; Some tb2_rm] [rid tb1_rm; rid tb2_rm] w;
      if go : bool then probe_loop tb1 tb2 tb1_rm cond tb2_it' w else Ok (w, false)
    end
  end.

(** The outer [for] over the records of the driver [tb1]. *)
Fixpoint driver_loop (tb1 tb2 : table_manager) (cid1 : nat) (idx2 : index_manager)
  (cond : expr_node_t) (tb1_it : list record_manager) (w : world L)
  : outcome (world L) :=
  match tb1_it with
  | [] => Ok w
  | tb1_rm :: tb1_it' =>
    let w := cache_record tb1 tb1_rm w in
    match get_cached_column tb1 (Some cid1) w with
    | None => driver_loop tb1 tb2 cid1 idx2 cond tb1_it' w
    | Some tb1_col =>
      '(w, returned) ←
        probe_loop tb1 tb2 tb1_rm cond (get_iterator_lower_bound idx2 tb1_col) w;
      if returned : bool then Ok w else driver_loop tb1 tb2 cid1 idx2 cond tb1_it' w
    end
  end.

Definition no_index_message (l r : column_ref_t) : string :=
  "[Info] No index for " +:+ table l +:+ "." +:+ column l +:+ " and "
    +:+ table r +:+ "." +:+ column r.

Definition iterate_two_tables_with_joint_cond_equal (tb1 tb2 : table_manager)
  (cond : option expr_node_t) (w : world L) : outcome (world L * bool) :=
  join_cond ← get_join_cond cond;
  match join_cond with
  | None => Ok (w, false)
  | Some jc =>
    if decide (op jc ≠ OPERATOR_EQ) then Ok (w, false) else
    l ← deref (e_left jc);
    lref ← deref (column_ref l);
    let '(tb1, tb2) :=
      if decide (table lref ≠ get_table_name tb1) then (tb2, tb1) else (tb1, tb2) in
    r ← deref (e_right jc);
    rref ← deref (column_ref r);
    match lookup_column tb1 (column lref), lookup_column tb2 (column rref) with
    | Some cid1, Some cid2 =>
      match get_index tb1 (Some cid1), get_index tb2 (Some cid2) with
      | None, None => Ok (puts (no_index_message lref rref) w, false)
      | _, Some idx2 =>
        w ← driver_loop tb1 tb2 cid1 idx2 jc (records tb1) w;
        Ok (w, true)
      | Some idx1, None =>
        (* idx2 == nullptr: swap the tables, the indexes and the columns *)
        w ← driver_loop tb2 tb1 cid2 idx1 jc (records tb2) w;
        Ok (w, true)
      end
    | _, _ => Ok (w, false)
    end
  end.

End iterate_two_tables.

(** ** [dbms::extract_and_cond] *)

Fixpoint extract_and_cond (cond : expr_node_t) (and_cond : list expr_node_t)
  : outcome (list expr_node_t) :=
  match cond with
  | ExprNode OPERATOR_AND _ _ l r =>
    match l with
    | None => Fault NullDeref
    | Some l =>
      match extract_and_cond l and_cond with
      | Fault f => Fault f
      | Ok and_cond =>
        match r with
        | None => Fault NullDeref
        | Some r => extract_and_cond r and_cond
        end
      end
    end
  | _ => Ok (and_cond ++ [cond])
  end.

(** ** The join-condition graph of [dbms::iterate_many_tables] *)

(** The lambda [lookup_table]. *)
Definition lookup_table (table_list : list table_manager) (name : string) : option nat :=
  find_string name (get_table_name <$> table_list).

Record join_graph : Type := JoinGraph {
  E : list (list Z);
  J : list (list (option expr_node_t))
}.

(** [m[i][j] = a]. *)
Definition mat_set {A : Type} (m : list (list A)) (i j : nat) (a : A)
  : outcome (list (list A)) :=
  row ← vec_get m i;
  row ← vec_set row j a;
  vec_set m i row.

Definition mat_get {A : Type} (m : list (list A)) (i j : nat) : outcome A :=
  row ← vec_get m i;
  vec_get row j.

(** [E[i][j] = 1; J[i][j] = c]. *)
Definition add_edge (g : join_graph) (i j : nat) (c : expr_node_t) : outcome join_graph :=
  e ← mat_set (E g) i j 1%Z;
  jc ← mat_set (J g) i j (Some c);
  Ok (JoinGraph e jc).

Definition empty_graph (n : nat) : join_graph :=
  JoinGraph (replicate n (replicate n 0%Z)) (replicate n (replicate n None)).

(** [c->op == OPERATOR_EQ && c->left->term_type == TERM_COLUMN_REF &&
    c->right->term_type == TERM_COLUMN_REF]. *)
Definition is_equality_of_columns (c : expr_node_t) : outcome bool :=
  if decide (op c = OPERATOR_EQ) then both_column_refs c else Ok false.

(** The body of the loop over [and_cond] for one conjunct.  [inl msg] is
    the early [return] after the diagnostic [msg]. *)
Definition setup_join_cond (table_list : list table_manager) (c : expr_node_t)
  (g : join_graph) : outcome (string + join_graph) :=
  b ← is_equality_of_columns c;
  if b : bool then
    l ← deref (e_left c);
    lref ← deref (column_ref l);
    r ← deref (e_right c);
    rref ← deref (column_ref r);
    match lookup_table table_list (table lref), lookup_table table_list (table rref) with
    | Some tid1, Some tid2 =>
      tb1 ← vec_get table_list tid1;
      tb2 ← vec_get table_list tid2;
      match lookup_column tb1 (column lref), lookup_column tb2 (column rref) with
      | Some cid1, Some cid2 =>
        let idx1 := get_index tb1 (Some cid1) in
        let idx2 := get_index tb2 (Some cid2) in
        g ← (if idx2 is Some _ then add_edge g tid2 tid1 c else Ok g);
        g ← (if idx1 is Some _ then add_edge g tid1 tid2 c else Ok g);
        Ok (inr g)
      | _, _ => Ok (inl "[Error] Column not found!")
      end
    | _, _ => Ok (inl "[Error] Table not found!")
    end
  else Ok (inr g).

Fixpoint setup_join_graph (table_list : list table_manager)
  (and_cond : list expr_node_t) (g : join_graph) : outcome (string + join_graph) :=
  match and_cond with
  | [] => Ok (inr g)
  | c :: and_cond' =>
    r ← setup_join_cond table_list c g;
    match r with
    | inl msg => Ok (inl msg)
    | inr g => setup_join_graph table_list and_cond' g
    end
  end.

(** ** [dbms::find_longest_path] *)

(** The arrays [mark] and [path] and the reference [max_depth]. *)
Record search_state : Type := SearchState {
  s_mark : list Z;
  s_path : list nat;
  s_max_depth : Z
}.

(** The [for] loop over the neighbours [i] of [now]; [visit i] is the
    recursive call [find_longest_path(i, depth + 1, ...)].  The result is
    true when a call returned true (and the function returns true). *)
Fixpoint try_neighbours (visit : nat → search_state → outcome (bool * search_state))
  (E : list (list Z)) (now : nat) (candidates : list nat) (st : search_state)
  : outcome (bool * search_state) :=
  match candidates with
  | [] => Ok (false, st)
  | i :: candidates' =>
    e ← mat_get E now i;
    if decide (e = 0%Z) then try_neighbours visit E now candidates' st else
    m ← vec_get (s_mark st) i;
    if decide (m ≠ 0%Z) then try_neighbours visit E now candidates' st else
    '(found, st) ← visit i st;
    if found : bool then Ok (true, st) else try_neighbours visit E now candidates' st
  end.

(** The recursion is bounded by [fuel]; [find_longest_path_total] shows that
    one more than the number of unmarked vertices is enough. *)
Fixpoint find_longest_path (fuel : nat) (now depth : nat) (E : list (list Z))
  (excepted_len : Z) (st : search_state) : outcome (bool * search_state) :=
  match fuel with
  | 0 => Fault OutOfFuel
  | S fuel =>
    mark1 ← vec_set (s_mark st) now 1%Z;
    path1 ← vec_set (s_path st) depth now;
    let max_depth1 :=
      if bool_decide (Z.of_nat depth > s_max_depth st)%Z then Z.of_nat depth
      else s_max_depth st in
    let st := SearchState mark1 path1 max_depth1 in
    if bool_decide (Z.of_nat depth = excepted_len) then Ok (true, st) else
    '(found, st) ←
      try_neighbours (λ i st, find_longest_path fuel i (S depth) E excepted_len st)
        E now (seq 0 (length E)) st;
    if found : bool then Ok (true, st) else
    mark0 ← vec_set (s_mark st) now 0%Z;
    Ok (false, SearchState mark0 (s_path st) (s_max_depth st))
  end.

(** ** The planner of [dbms::iterate_many_tables]: the longest path and the
    iteration sequence *)

(** [~0u >> 1]. *)
Definition INT_MAX : Z := 2147483647.

(** The loop over the start vertices; [std::memset(mark, 0, ...)] before
    each search. *)
Fixpoint longest_path_starts (E : list (list Z)) (n : nat) (starts : list nat)
  (path : list nat) (max_depth : Z) (start : nat) : outcome (list nat * Z * nat) :=
  match starts with
  | [] => Ok (path, max_depth, start)
  | i :: starts' =>
    '(_, st) ← find_longest_path (S n) i 0 E INT_MAX (SearchState (replicate n 0%Z) path 0);
    let m := s_max_depth st in
    if bool_decide (m > max_depth)%Z
    then longest_path_starts E n starts' (s_path st) m i
    else longest_path_starts E n starts' (s_path st) max_depth start
  end.

(** [for(i = 0; i <= max_depth; ++i) mark[path[i]] = 1;] *)
Fixpoint mark_path (path : list nat) (positions : list nat) (mark : list Z)
  : outcome (list Z) :=
  match positions with
  | [] => Ok mark
  | i :: positions' =>
    p ← vec_get path i;
    mark ← vec_set mark p 1%Z;
    mark_path path positions' mark
  end.

(** [for(i = 0; i < len; ++i) if(!mark[i]) path[++cur] = i;] *)
Fixpoint append_unmarked (mark : list Z) (vertices : list nat) (cur : nat)
  (path : list nat) : outcome (list nat) :=
  match vertices with
  | [] => Ok path
  | i :: vertices' =>
    m ← vec_get mark i;
    if decide (m = 0%Z) then
      path ← vec_set path (S cur) i;
      append_unmarked mark vertices' (S cur) path
    else append_unmarked mark vertices' cur path
  end.

(** Lines 382-411: the iteration order [path] and [max_depth] for [n]
    tables.  [new int[n]] is zero-filled here (every entry is written before
    it is read); [uninit] is the value of the uninitialised [int _] that the
    second search receives as its [max_depth]. *)
Definition plan_iteration_order (E : list (list Z)) (n : nat) (uninit : Z)
  : outcome (list nat * nat) :=
  '(path, max_depth, start) ← longest_path_starts E n (seq 0 n) (replicate n 0) 0%Z 0;
  '(found, st) ←
    find_longest_path (S n) start 0 E max_depth
      (SearchState (replicate n 0%Z) path uninit);
  if found : bool then
    mark ← mark_path (s_path st) (seq 0 (S (Z.to_nat max_depth))) (replicate n 0%Z);
    path ← append_unmarked mark (seq 0 n) (Z.to_nat max_depth) (s_path st);
    Ok (path, Z.to_nat max_depth)
  else Fault AssertFailed.

(** ** The iteration variables [index_ref] and [index_cid] *)

Fixpoint setup_iteration_variables (table_list : list table_manager)
  (J : list (list (option expr_node_t))) (path : list nat) (positions : list nat)
  (index_ref : list (option index_manager)) (index_cid : list (option nat))
  : outcome (list (option index_manager) * list (option nat)) :=
  match positions with
  | [] => Ok (index_ref, index_cid)
  | i :: positions' =>
    p ← vec_get path i;
    q ← vec_get path (S i);
    jn ← mat_get J p q;
    join_node ← deref jn;
    l ← deref (e_left join_node);
    lref ← deref (column_ref l);
    tbp ← vec_get table_list p;
    tbq ← vec_get table_list q;
    r ← deref (e_right join_node);
    rref ← deref (column_ref r);
    let '(cid, ref) :=
      if decide (table lref = get_table_name tbp)
      then (lookup_column tbq (column rref),
            get_index tbp (lookup_column tbp (column lref)))
      else (lookup_column tbq (column lref),
            get_index tbp (lookup_column tbp (column rref))) in
    index_cid ← vec_set index_cid i cid;
    index_ref ← vec_set index_ref i ref;
    if ref is Some _
    then setup_iteration_variables table_list J path positions' index_ref index_cid
    else Fault AssertFailed
  end.

(** ** [dbms::iterate_many_tables_impl] *)

(** The vectors [record_list] and [rid_list]. *)
Record cursor : Type := Cursor {
  record_list : list (option record_manager);
  rid_list : list Z
}.

Section iterate_many_tables_impl.
Context `{Evaluator} {L : Type}.
Variable table_list : list table_manager.
Variable index_cond : list (list (option expr_node_t)).
Variable iter_order : list nat.
Variable index_cid : list (option nat).
Variable index : list (option index_manager).
Variable cond : option expr_node_t.
Variable callback :
  list table_manager → list (option record_manager) → list Z → world L
  → outcome (world L * bool).

(** The full scan of [tb = table_list[iter_order[now]]], with [ord =
    iter_order[now]]; [inner] is the recursive call for [now - 1]. *)
Fixpoint impl_scan_loop (inner : world L → cursor → outcome (world L * cursor * bool))
  (tb : table_manager) (ord : nat) (it : list record_manager)
  (w : world L) (cur : cursor) : outcome (world L * cursor * bool) :=
  match it with
  | [] => Ok (w, cur, true)
  | rm :: it' =>
    rids ← vec_set (rid_list cur) ord (rid rm);
    let w := cache_record tb rm w in
    recs ← vec_set (record_list cur) ord (Some rm);
    '(w, cur, ret) ← inner w (Cursor recs rids);
    if ret : bool then impl_scan_loop inner tb ord it' w cur else Ok (w, cur, false)
  end.

(** The probe of the index of [tb2 = table_list[iter_order[now]]], with
    [ord = iter_order[now]] and [ord1 = iter_order[now + 1]]. *)
Fixpoint impl_probe_loop (inner : world L → cursor → outcome (world L * cursor * bool))
  (tb2 : table_manager) (ord ord1 : nat) (tb2_it : list record_manager)
  (w : world L) (cur : cursor) : outcome (world L * cursor * bool) :=
  match tb2_it with
  | [] => Ok (w, cur, true)
  | tb2_rm :: tb2_it' =>
    let w := cache_record tb2 tb2_rm w in
    jn ← mat_get index_cond ord ord1;
    join_cond ← deref jn;
    match eval_cond join_cond w with
    | inl msg => Ok (puts msg w, cur, false)
    | inr false => Ok (w, cur, true)
    | inr true =>
      rids ← vec_set (rid_list cur) ord (rid tb2_rm);
      recs ← vec_set (record_list cur) ord (Some tb2_rm);
      '(w, cur, ret) ← inner w (Cursor recs rids);
      if ret : bool then impl_probe_loop inner tb2 ord ord1 tb2_it' w cur
      else Ok (w, cur, false)
    end
  end.

(** [level] is [now + 1]: [0] is the source's [now < 0]. *)
Fixpoint iterate_many_tables_impl (level : nat) (w : world L) (cur : cursor)
  : outcome (world L * cursor * bool) :=
  match level with
  | 0 =>
    let result :=
      match cond with
      | Some c => eval_cond c w
      | None => inr true
      end in
    match result with
    | inl msg => Ok (puts msg w, cur, false)
    | inr false => Ok (w, cur, true)
    | inr true =>
      '(w, go) ← callback table_list (record_list cur) (rid_list cur) w;
      Ok (w, cur, go)
    end
  | S now =>
    idx ← vec_get index now;
    match idx with
    | None =>
      ord ← vec_get iter_order now;
      tb ← vec_get table_list ord;
      impl_scan_loop (iterate_many_tables_impl now) tb ord (records tb) w cur
    | Some idx =>
      ord1 ← vec_get iter_order (S now);
      tb1 ← vec_get table_list ord1;
      cid ← vec_get index_cid now;
      ord ← vec_get iter_order now;
      tb2 ← vec_get table_list ord;
      tb2_it ←
        match get_cached_column tb1 cid w with
        | Some tb_col => Ok (get_iterator_lower_bound idx tb_col)
        | None => lower_bound_null idx
        end;
      impl_probe_loop (iterate_many_tables_impl now) tb2 ord ord1 tb2_it w cur
    end
  end.

End iterate_many_tables_impl.

(** ** [dbms::iterate_many_tables] and [dbms::iterate] *)

(** The names printed after "[Info] Iteration order: ":
    [table_list[path[len - i - 1]]->get_table_name()] for [i < len]. *)
Fixpoint iteration_order_names (table_list : list table_manager) (path : list nat)
  (len : nat) (positions : list nat) : outcome (list string) :=
  match positions with
  | [] => Ok []
  | i :: positions' =>
    p ← vec_get path (len - i - 1);
    tb ← vec_get table_list p;
    names ← iteration_order_names table_list path len positions';
    Ok (get_table_name tb :: names)
  end.

(** The join conditions printed after "[Info] Index use: ". *)
Fixpoint index_use_names (J : list (list (option expr_node_t))) (path : list nat)
  (positions : list nat) : outcome (list string) :=
  match positions with
  | [] => Ok []
  | i :: positions' =>
    p ← vec_get path i;
    q ← vec_get path (S i);
    jn ← mat_get J p q;
    node ← deref jn;
    l ← deref (e_left node);
    lref ← deref (column_ref l);
    r ← deref (e_right node);
    rref ← deref (column_ref r);
    names ← index_use_names J path positions';
    Ok ((table lref +:+ "." +:+ column lref +:+ "-" +:+ table rref +:+ "."
           +:+ column rref) :: names)
  end.

Section iterate.
Context `{Evaluator} {L : Type}.
(** The value of the uninitialised [int _] of [iterate_many_tables]. *)
Variable uninit : Z.
Variable callback :
  list table_manager → list (option record_manager) → list Z → world L
  → outcome (world L * bool).

Definition iterate_many_tables (table_list : list table_manager)
  (cond : option expr_node_t) (w : world L) : outcome (world L) :=
  let len := length table_list in
  let cur := Cursor (replicate len None) (replicate len 0%Z) in
  c ← deref cond;
  and_cond ← extract_and_cond c [];
  r ← setup_join_graph table_list and_cond (empty_graph len);
  match r with
  | inl msg => Ok (puts msg w)
  | inr g =>
    '(path, max_depth) ← plan_iteration_order (E g) len uninit;
    '(index_ref, index_cid) ←
      setup_iteration_variables table_list (J g) path (seq 0 max_depth)
        (replicate len None) (replicate len None);
    '(w, _, _) ←
      iterate_many_tables_impl table_list (J g) path index_cid index_ref cond
        callback len w cur;
    order ← iteration_order_names table_list path len (seq 0 len);
    uses ← index_use_names (J g) path (seq 0 max_depth);
    Ok (puts ("[Info] Index use: " +:+ String.concat ", " uses)
          (puts ("[Info] Iteration order: " +:+ String.concat ", " order) w))
  end.

Definition iterate (required_tables : list table_manager) (cond : option expr_node_t)
  (w : world L) : outcome (world L) :=
  match required_tables with
  | [tb] =>
    iterate_one_table tb cond
      (λ _ rm rid, callback required_tables [Some rm] [rid]) w
  | [tb1; tb2] =>
    '(w, joined) ← iterate_two_tables_with_joint_cond_equal callback tb1 tb2 cond w;
    if joined : bool then Ok (puts "[Info] Join two tables using index." w)
    else
      w ← iterate_many_tables required_tables cond w;
      Ok (puts "[Info] Join two tables by enumerating." w)
  | _ =>
    w ← iterate_many_tables required_tables cond w;
    Ok (puts "[Info] Join many tables by enumerating." w)
  end.

End iterate.

(** ** [database]: the open tables of the current database *)

Record database : Type := Database { tables : list table_manager }.

(** [database::get_table(const char *name)] through [get_table_id]. *)
Definition get_table (db : database) (name : string) : option table_manager :=
  id ← find_string name (table_name <$> tables db); tables db !! id.

(** [dbms::assert_db_open]: the database when one is open. *)
Definition assert_db_open {L : Type} (cur_db : option database) (w : world L)
  : world L * option database :=
  match cur_db with
  | Some db => (w, Some db)
  | None => (puts "[Error] database is not opened." w, None)
  end.

(** ** [dbms::select_rows] *)

Record select_info_t : Type := SelectInfo {
  select_tables : list string;
  exprs : list expr_node_t;
  where_ : option expr_node_t
}.

(** The loop collecting [required_tables]; [inl name] is the table that does
    not exist. *)
Fixpoint get_required_tables (db : database) (names : list string)
  : string + list table_manager :=
  match names with
  | [] => inr []
  | name :: names' =>
    match get_table db name with
    | None => inl name
    | Some tm =>
      match get_required_tables db names' with
      | inl e => inl e
      | inr tms => inr (tm :: tms)
      end
    end
  end.

(** The [switch(ret.type)] printing one value. *)
Definition print_value {L : Type} (ret : expression) (w : world L) : world L :=
  match type ret with
  | TERM_INT => fprint [OutInt (val_i ret)] w
  | TERM_FLOAT => fprint [OutFloat (val_f ret)] w
  | TERM_STRING => fprint [OutText (val_s ret)] w
  | TERM_BOOL => fprint [OutText (if val_b ret then "TRUE" else "FALSE")] w
  | TERM_DATE => fprint [OutDate (val_i ret)] w
  | TERM_NULL => fprint [OutText "NULL"] w
  | _ => puts "[Error] Data type not supported!" w
  end.

(** The loop over [exprs] in the callback of [select_rows]; [first] is
    [i == 0].  The flag is false when the callback returned false. *)
Fixpoint print_exprs `{Evaluator} {L : Type} (exprs : list expr_node_t) (first : bool)
  (w : world L) : world L * bool :=
  match exprs with
  | [] => (w, true)
  | e :: exprs' =>
    match eval (row_cache w) e with
    | inl msg => (puts msg w, false)
    | inr ret =>
      let w := if first then w else fprint [OutText ","] w in
      print_exprs exprs' false (print_value ret w)
    end
  end.

(** [tables[i]->dump_record(output_file, records[i])], comma separated. *)
Fixpoint dump_records (tables : list table_manager)
  (records : list (option record_manager)) (first : bool) : outcome (list out_token) :=
  match tables with
  | [] => Ok []
  | tb :: tables' =>
    match records with
    | [] => Fault OutOfBounds
    | rm :: records' =>
      rest ← dump_records tables' records' false;
      Ok ((if first then [] else [OutText ","]) ++ OutRecord tb rm :: rest)
    end
  end.

Definition INT_MIN : Z := (-2147483648)%Z.

(** [int] addition, wrapping around. *)
Definition wrap_int (z : Z) : Z := ((z + 2147483648) mod 4294967296 - 2147483648)%Z.

(** [~__cache_clear_guard]: [expression::cache_clear()] when the statement
    is left. *)
Definition cache_clear {L : Type} (w : world L) : world L :=
  World ∅ (console w) (output_file w) (locals w).

(** The callback of [select_rows]; its local is the [int counter]. *)
Definition select_callback `{Evaluator} (exprs : list expr_node_t)
  (tables : list table_manager) (records : list (option record_manager))
  (rids : list Z) (w : world Z) : outcome (world Z * bool) :=
  let '(w, printed) := print_exprs exprs true w in
  if printed : bool then
    dump ← (if decide (length exprs = 0) then dump_records tables records true else Ok []);
    let w := fprint (dump ++ [OutEndl]) w in
    Ok (set_locals (wrap_int (locals w + 1)) w, true)
  else Ok (w, false).

Definition header_names (names : list string) : list out_token :=
  match names with
  | [] => []
  | n :: names' => OutText n :: flat_map (λ n, [OutText ","; OutText n]) names'
  end.

Definition header_tables (tables : list table_manager) : list out_token :=
  match tables with
  | [] => []
  | tb :: tables' => OutHeader tb :: flat_map (λ tb, [OutText ","; OutHeader tb]) tables'
  end.

Definition selected_message (counter : Z) : string :=
  "[Info] " +:+ pretty counter +:+ " row(s) selected.".

(** ** [dbms::select_rows_aggregate] *)

(** [std::numeric_limits<float>::max()]: (2 - 2^-23) * 2^127. *)
Definition FLT_MAX : Q := inject_Z ((2 ^ 24 - 1) * 2 ^ 104).

(** [std::numeric_limits<float>::min()]: the least positive normal value,
    2^-126. *)
Definition FLT_MIN : Q := 1 # (2 ^ 126).

Definition Qltb (a b : Q) : bool := negb (Qle_bool b a).

(** The locals of the callback: [val_i], [val_f], [agg_type], [counter]. *)
Record aggregate_state : Type := AggregateState {
  acc_i : Z;
  acc_f : Q;
  agg_type : term_type_t;
  counter : Z
}.

(** The initial values of [val_i] and [val_f] for the aggregate [op]. *)
Definition aggregate_init (o : operator_type_t) : aggregate_state :=
  match o with
  | OPERATOR_MIN => AggregateState INT_MAX FLT_MAX TERM_NONE 0
  | OPERATOR_MAX => AggregateState INT_MIN FLT_MIN TERM_NONE 0
  | _ => AggregateState 0 0 TERM_NONE 0
  end.

(** The two [switch(expr->op)] of the callback, for the value [ret]. *)
Definition accumulate `{Evaluator} (o : operator_type_t) (ret : expression)
  (st : aggregate_state) : aggregate_state :=
  let st := AggregateState (acc_i st) (acc_f st) (type ret) (counter st) in
  if decide (type ret = TERM_FLOAT) then
    match o with
    | OPERATOR_SUM | OPERATOR_AVG =>
      AggregateState (acc_i st) (fround (acc_f st + val_f ret)) (agg_type st) (counter st)
    | OPERATOR_MIN =>
      if Qltb (val_f ret) (acc_f st)
      then AggregateState (acc_i st) (val_f ret) (agg_type st) (counter st) else st
    | OPERATOR_MAX =>
      if Qltb (acc_f st) (val_f ret)
      then AggregateState (acc_i st) (val_f ret) (agg_type st) (counter st) else st
    | _ => st
    end
  else
    match o with
    | OPERATOR_SUM | OPERATOR_AVG =>
      AggregateState (wrap_int (acc_i st + val_i ret)) (acc_f st) (agg_type st) (counter st)
    | OPERATOR_MIN =>
      if bool_decide (val_i ret < acc_i st)%Z
      then AggregateState (val_i ret) (acc_f st) (agg_type st) (counter st) else st
    | OPERATOR_MAX =>
      if bool_decide (val_i ret > acc_i st)%Z
      then AggregateState (val_i ret) (acc_f st) (agg_type st) (counter st) else st
    | _ => st
    end.

(** [++counter], on the [int counter]. *)
Definition count_row (st : aggregate_state) : aggregate_state :=
  AggregateState (acc_i st) (acc_f st) (agg_type st) (wrap_int (counter st + 1)).

(** The callback of [select_rows_aggregate]. *)
Definition aggregate_callback `{Evaluator} (expr : expr_node_t)
  (tables : list table_manager) (records : list (option record_manager))
  (rids : list Z) (w : world aggregate_state) : outcome (world aggregate_state * bool) :=
  if decide (op expr ≠ OPERATOR_COUNT) then
    inner ← deref (e_left expr);
    match eval (row_cache w) inner with
    | inl msg => Ok (puts msg w, false)
    | inr ret => Ok (set_locals (count_row (accumulate (op expr) ret (locals w))) w, true)
    end
  else Ok (set_locals (count_row (locals w)) w, true).

(** What is printed after the iteration: the tokens for [output_file], or
    the diagnostic of a non-numeric aggregate. *)
Definition aggregate_result `{Evaluator} (o : operator_type_t) (st : aggregate_state)
  : string + list out_token :=
  if decide (o = OPERATOR_COUNT) then inr [OutInt (counter st); OutEndl]
  else if decide (agg_type st ≠ TERM_FLOAT ∧ agg_type st ≠ TERM_INT)
  then inl "[Error] Aggregate only support for int and float type."
  else if decide (o = OPERATOR_AVG) then
    inr [OutFloat
           (if decide (agg_type st = TERM_INT)
            then fround (inject_Z (acc_i st) / inject_Z (counter st))
            else fround (acc_f st / inject_Z (counter st)));
         OutEndl]
  else if decide (agg_type st = TERM_FLOAT) then inr [OutFloat (acc_f st); OutEndl]
  else inr [OutInt (acc_i st); OutEndl].

Section select.
Context `{Evaluator}.
Variable uninit : Z.

Definition select_rows_aggregate (info : select_info_t)
  (required_tables : list table_manager) (exprs : list expr_node_t)
  (w : world ()) : outcome (world ()) :=
  match exprs with
  | [expr] =>
    w ← iterate uninit (aggregate_callback expr) required_tables (where_ info)
          (set_locals (aggregate_init (op expr)) w);
    let st := locals w in
    match aggregate_result (op expr) st with
    | inl msg => Ok (set_locals () (puts msg w))
    | inr out =>
      Ok (set_locals ()
            (fprint [OutEndl] (puts (selected_message (counter st)) (fprint out w))))
    end
  | _ =>
    Ok (puts "[Error] Support only for one select expression for aggregate select." w)
  end.

Definition select_rows (cur_db : option database) (info : select_info_t)
  (w : world ()) : outcome (world ()) :=
  match assert_db_open cur_db w with
  | (w, None) => Ok w
  | (w, Some db) =>
    (* __cache_clear_guard __guard: the cache is cleared at every return
       below *)
    w ← match get_required_tables db (select_tables info) with
        | inl name => Ok (puts ("[Error] table `" +:+ name +:+ "` doesn't exists.") w)
        | inr required_tables =>
          let exprs := exprs info in
          let is_agg := existsb is_aggregate exprs in
          let w := fprint (header_names (to_string <$> exprs)) w in
          let w :=
            if decide (length exprs = 0) then fprint (header_tables required_tables) w
            else w in
          let w := fprint [OutEndl] w in
          if is_agg then select_rows_aggregate info required_tables exprs w
          else
            w ← iterate uninit (select_callback exprs) required_tables (where_ info)
                  (set_locals 0%Z w);
            Ok (set_locals ()
                  (fprint [OutEndl] (puts (selected_message (locals w)) w)))
        end;
    Ok (cache_clear w)
  end.

End select.

(** ** [dbms::insert_rows] *)

(** The type casts and the record store of a table, as [insert_rows] uses
    them.  The store operations return the table as they leave it. *)
Class Store : Type := {
  type_compatible : Z → expression → bool;
  column_to_term : Z → term_type_t;
  expr_to_db : expression → term_type_t → col_data;
  init_temp_record : table_manager → table_manager;
  set_temp_record : table_manager → nat → col_data → table_manager * bool;
  (** the new row id, positive on success *)
  insert_record : table_manager → table_manager * Z
}.

Record insert_info_t : Type := InsertInfo {
  insert_table : string;
  columns : option (list column_ref_t);
  values : list (list expr_node_t)
}.

(** The loop resolving an explicit column list; [inl name] is the column
    that does not exist. *)
Fixpoint lookup_columns (tb : table_manager) (cols : list column_ref_t)
  : string + list nat :=
  match cols with
  | [] => inr []
  | c :: cols' =>
    match lookup_column tb (column c) with
    | None => inl (column c)
    | Some cid =>
      match lookup_columns tb cols' with
      | inl e => inl e
      | inr cids => inr (cid :: cids)
      end
    end
  end.

(** [cols_id]: every column but the trailing [__rowid__], or the explicit
    list. *)
Definition insert_columns (tb : table_manager) (columns : option (list column_ref_t))
  : string + list nat :=
  match columns with
  | None => inr (seq 0 (get_column_num tb - 1))
  | Some cols => lookup_columns tb cols
  end.

(** How the body of the loop over [info->values] ends for one tuple. *)
Inductive tuple_end : Type :=
| TupleSkipped                (* arity mismatch: [continue] before the counts *)
| TupleCounted (succ : bool)  (* [count_succ += succ; count_fail += 1 - succ] *)
| TupleReturned.              (* [return] out of [insert_rows] *)

Section insert_rows.
Context `{Evaluator} `{Store}.

(** The loop over the expressions of one tuple; [it] walks [cols_id].
    The table as the loop leaves it, and [inl msg] for the [return] after
    the diagnostic [msg], [inr succ] otherwise. *)
Fixpoint set_values (it : list nat) (expr_list : list expr_node_t)
  (tb : table_manager) (w : world ()) {struct expr_list}
  : outcome (table_manager * (string + bool)) :=
  match expr_list with
  | [] => Ok (tb, inr true)
  | e :: expr_list' =>
    match eval (row_cache w) e with
    | inl msg => Ok (tb, inl msg)
    | inr v =>
      match it with
      | [] => Fault OutOfBounds
      | cid :: it' =>
        let col_type := get_column_type tb cid in
        if type_compatible col_type v then
          let db_val := expr_to_db v (column_to_term col_type) in
          let '(tb, ok) := set_temp_record tb cid db_val in
          if ok : bool then set_values it' expr_list' tb w else Ok (tb, inr false)
        else Ok (tb, inl "[Error] incompatible type.")
      end
    end
  end.

(** The body of the loop for one value tuple. *)
Definition insert_tuple (cols_id : list nat) (expr_list : list expr_node_t)
  (tb : table_manager) (w : world ()) : outcome (table_manager * world () * tuple_end) :=
  let tb := init_temp_record tb in
  if decide (length expr_list ≠ length cols_id)
  then Ok (tb, puts "[Error] column size not equal." w, TupleSkipped)
  else
    '(tb, r) ← set_values cols_id expr_list tb w;
    match r with
    | inl msg => Ok (tb, puts msg w, TupleReturned)
    | inr false => Ok (tb, w, TupleCounted false)
    | inr true =>
      let '(tb, new_rid) := insert_record tb in
      Ok (tb, w, TupleCounted (bool_decide (new_rid > 0)%Z))
    end.

(** The loop over [info->values]; the counts are [None] after a [return]. *)
Fixpoint insert_tuples (cols_id : list nat) (values : list (list expr_node_t))
  (tb : table_manager) (w : world ()) (count_succ count_fail : Z)
  : outcome (table_manager * world () * option (Z * Z)) :=
  match values with
  | [] => Ok (tb, w, Some (count_succ, count_fail))
  | expr_list :: values' =>
    '(tb, w, e) ← insert_tuple cols_id expr_list tb w;
    match e with
    | TupleSkipped => insert_tuples cols_id values' tb w count_succ count_fail
    | TupleCounted succ =>
      insert_tuples cols_id values' tb w
        (count_succ + Z.b2z succ) (count_fail + (1 - Z.b2z succ))
    | TupleReturned => Ok (tb, w, None)
    end
  end.

Definition inserted_message (count_succ count_fail : Z) : string :=
  "[Info] " +:+ pretty count_succ +:+ " row(s) inserted, " +:+ pretty count_fail
    +:+ " row(s) failed.".

(** [insert_rows] on the table it resolves: the table as the statement
    leaves it and the world. *)
Definition insert_rows_into (tb : table_manager) (info : insert_info_t) (w : world ())
  : outcome (table_manager * world ()) :=
  match insert_columns tb (columns info) with
  | inl name =>
    Ok (tb, puts ("[Error] No column `" +:+ name +:+ "` in table `"
                    +:+ get_table_name tb +:+ "`.") w)
  | inr cols_id =>
    '(tb, w, counts) ← insert_tuples cols_id (values info) tb w 0 0;
    match counts with
    | Some (count_succ, count_fail) =>
      Ok (tb, puts (inserted_message count_succ count_fail) w)
    | None => Ok (tb, w)
    end
  end.

Definition insert_rows (cur_db : option database) (info : insert_info_t) (w : world ())
  : outcome (option table_manager * world ()) :=
  match assert_db_open cur_db w with
  | (w, None) => Ok (None, w)
  | (w, Some db) =>
    (* __cache_clear_guard __guard: the cache is cleared at every return
       below *)
    match get_table db (insert_table info) with
    | None =>
      Ok (None,
          cache_clear (puts ("[Error] table `" +:+ insert_table info +:+ "` not found.") w))
    | Some tb =>
      '(tb, w) ← insert_rows_into tb info w;
      Ok (Some tb, cache_clear w)
    end
  end.

End insert_rows.

(** ** A reference evaluator and store for the concrete scenarios

    The scenarios below need collaborators to run against.  [sample_eval]
    evaluates, over a schema, a column reference to the integer stored in
    the current row of its table (as a [float] in a column of type code
    [1], as NULL when the column is NULL), [=] on two integers, AND, and an
    integer division ([OPERATOR_OTHER 0]) that throws on a zero divisor. *)

Definition int_value (z : Z) : expression := Expression TERM_INT z 0 "" false.
Definition float_value (q : Q) : expression := Expression TERM_FLOAT 0 q "" false.
Definition bool_value (b : bool) : expression := Expression TERM_BOOL 0 0 "" b.
Definition null_value : expression := Expression TERM_NULL 0 0 "" false.

Definition sample_column (schema : list table_manager)
  (cache : gmap string record_manager) (cr : column_ref_t) : string + expression :=
  match get_table (Database schema) (table cr) with
  | None => inl "[Error] Table not found."
  | Some tb =>
    match lookup_column tb (column cr), cache !! table cr with
    | Some cid, Some rm =>
      match cols rm !! cid with
      | Some (Some z) =>
        inr (if decide (get_column_type tb cid = 1%Z)
             then float_value (inject_Z z) else int_value z)
      | _ => inr null_value
      end
    | _, _ => inl "[Error] Column not found."
    end
  end.

Definition sample_to_bool (v : expression) : string + bool :=
  match type v with
  | TERM_INT => inr (bool_decide (val_i v ≠ 0%Z))
  | TERM_BOOL => inr (val_b v)
  | TERM_NULL => inr false
  | _ => inl "[Error] Not a boolean."
  end.

Definition sample_binary (o : operator_type_t) (a b : expression) : string + expression :=
  match o with
  | OPERATOR_EQ =>
    match type a, type b with
    | TERM_INT, TERM_INT => inr (bool_value (bool_decide (val_i a = val_i b)))
    | TERM_NULL, _ | _, TERM_NULL => inr null_value
    | _, _ => inl "[Error] Incompatible operands."
    end
  | OPERATOR_AND =>
    match sample_to_bool a, sample_to_bool b with
    | inr x, inr y => inr (bool_value (x && y))
    | inl msg, _ | _, inl msg => inl msg
    end
  | OPERATOR_OTHER 0 =>
    match type a, type b with
    | TERM_INT, TERM_INT =>
      if decide (val_i b = 0%Z) then inl "[Error] Division by zero."
      else inr (int_value (val_i a / val_i b))
    | _, _ => inl "[Error] Incompatible operands."
    end
  | _ => inl "[Error] Unsupported operator."
  end.

Fixpoint sample_eval (schema : list table_manager)
  (cache : gmap string record_manager) (e : expr_node_t) : string + expression :=
  match e with
  | ExprNode o t cr l r =>
    if decide (t = TERM_COLUMN_REF) then
      match cr with
      | Some cr => sample_column schema cache cr
      | None => inl "[Error] Column not found."
      end
    else
      match l, r with
      | Some l, Some r =>
        match sample_eval schema cache l, sample_eval schema cache r with
        | inr a, inr b => sample_binary o a b
        | inl msg, _ | _, inl msg => inl msg
        end
      | _, _ => inl "[Error] Unsupported expression."
      end
  end.

Definition sample_is_aggregate (e : expr_node_t) : bool :=
  match op e with
  | OPERATOR_MIN | OPERATOR_MAX | OPERATOR_SUM | OPERATOR_AVG | OPERATOR_COUNT => true
  | _ => false
  end.

Definition sample_evaluator (schema : list table_manager) : Evaluator := {|
  eval := sample_eval schema;
  expr_to_bool := sample_to_bool;
  is_aggregate := sample_is_aggregate;
  to_string := λ _, "expr";
  fround := λ q, q;
  lower_bound_null := λ _, Fault NullDeref
|}.

(** A store whose temp record always accepts a value below 1000 and whose
    commit appends the record with the next row id, unless the first
    column is negative. *)
Definition sample_store : Store := {|
  type_compatible := λ col_type v, bool_decide (type v = TERM_INT);
  column_to_term := λ _, TERM_INT;
  expr_to_db := λ v _, val_i v;
  init_temp_record := λ tb, tb;
  set_temp_record := λ tb cid v, (tb, bool_decide (v < 1000)%Z);
  insert_record := λ tb,
    let new_rid := (1 + Z.of_nat (length (records tb)))%Z in
    (TableManager (table_name tb) (column_names tb) (column_types tb)
       (records tb ++ [RecordManager new_rid []]) (indexes tb), new_rid)
|}.

(** [T.c] and [l op r]. *)
Definition col (t c : string) : expr_node_t :=
  ExprNode OPERATOR_NONE TERM_COLUMN_REF (Some (ColumnRef t c)) None None.
Definition binop (o : operator_type_t) (l r : expr_node_t) : expr_node_t :=
  ExprNode o TERM_NONE None (Some l) (Some r).

(** An index on column [cid]: the records with a value there, as entries
    in ascending key order (insertion sort). *)
Fixpoint insert_entry (e : col_data * record_manager)
  (l : list (col_data * record_manager)) : list (col_data * record_manager) :=
  match l with
  | [] => [e]
  | x :: l' => if bool_decide (e.1 <= x.1)%Z then e :: l else x :: insert_entry e l'
  end.

Fixpoint index_entries (cid : nat) (rms : list record_manager)
  : list (col_data * record_manager) :=
  match rms with
  | [] => []
  | rm :: rms' =>
    match cols rm !! cid with
    | Some (Some k) => insert_entry (k, rm) (index_entries cid rms')
    | _ => index_entries cid rms'
    end
  end.

Definition create_index (cid : nat) (rms : list record_manager) : index_manager :=
  IndexManager (index_entries cid rms).

(** The callback that records the row ids it is called with; it asks to
    continue when [go]. *)
Definition record_rids (go : bool) (tables : list table_manager)
  (records : list (option record_manager)) (rids : list Z) (w : world (list (list Z)))
  : outcome (world (list (list Z)) * bool) :=
  Ok (set_locals (locals w ++ [rids]) w, go).

Definition empty_world {L : Type} (l : L) : world L := World ∅ [] [] l.

(** The locals a run ends with. *)
Definition final_locals {L : Type} (r : outcome (world L)) : option L :=
  match r with
  | Ok w => Some (locals w)
  | Fault _ => None
  end.

(** What a run ends with on the output file and on the console. *)
Definition final_output {L : Type} (r : outcome (world L)) : option (list out_token) :=
  match r with
  | Ok w => Some (output_file w)
  | Fault _ => None
  end.

Definition final_console {L : Type} (r : outcome (world L)) : option (list string) :=
  match r with
  | Ok w => Some (console w)
  | Fault _ => None
  end.

(** ** Scenarios *)

(** Two rows of [A] with the same key as the single row of [B]; [B.y] is
    indexed. *)
Definition stop_rows_A : list record_manager :=
  [RecordManager 1 [Some 7%Z]; RecordManager 2 [Some 7%Z]].
Definition stop_rows_B : list record_manager := [RecordManager 10 [Some 7%Z]].
Definition stop_A : table_manager :=
  TableManager "A" ["x"; "__rowid__"] [0%Z; 0%Z] stop_rows_A [None; None].
Definition stop_B : table_manager :=
  TableManager "B" ["y"; "__rowid__"] [0%Z; 0%Z] stop_rows_B
    [Some (create_index 0 stop_rows_B); None].
(** [A.x = B.y] *)
Definition stop_cond : expr_node_t := binop OPERATOR_EQ (col "A" "x") (col "B" "y").

(** [SELECT ... FROM A, B WHERE A.x = A.y]: both columns of the equality
    are in [A]; [B] has an indexed column that is also called [y]. *)
Definition same_rows_A : list record_manager := [RecordManager 1 [Some 5%Z; Some 5%Z]].
Definition same_rows_B : list record_manager := [RecordManager 10 [Some 1%Z]].
Definition same_A : table_manager :=
  TableManager "A" ["x"; "y"; "__rowid__"] [0%Z; 0%Z; 0%Z] same_rows_A
    [Some (create_index 0 same_rows_A); None; None].
Definition same_B : table_manager :=
  TableManager "B" ["y"; "__rowid__"] [0%Z; 0%Z] same_rows_B
    [Some (create_index 0 same_rows_B); None].
Definition same_cond : expr_node_t := binop OPERATOR_EQ (col "A" "x") (col "A" "y").

(** [T0.a = T1.b] where only [T0.a] is indexed. *)
Definition edge_T0 : table_manager :=
  TableManager "T0" ["a"; "__rowid__"] [0%Z; 0%Z] []
    [Some (create_index 0 []); None].
Definition edge_T1 : table_manager :=
  TableManager "T1" ["b"; "__rowid__"] [0%Z; 0%Z] [] [None; None].
Definition edge_cond : expr_node_t := binop OPERATOR_EQ (col "T0" "a") (col "T1" "b").

(** An [n] by [n] matrix. *)
Definition square {A : Type} (n : nat) (m : list (list A)) : Prop :=
  length m = n ∧ Forall (λ row, length row = n) m.

(** Reduce the binds of the outcome monad, and nothing else. *)
Ltac obind := cbn [mbind outcome_bind mret outcome_ret deref].

(** [SELECT MAX(x) FROM T], where [x] is a [float] column and the only row
    holds -1. *)
Definition neg_rows : list record_manager := [RecordManager 1 [Some (-1)%Z]].
Definition neg_T : table_manager :=
  TableManager "T" ["x"; "__rowid__"] [1%Z; 0%Z] neg_rows [None; None].
Definition max_x : expr_node_t :=
  ExprNode OPERATOR_MAX TERM_NONE None (Some (col "T" "x")) None.




(** The values of [inner] on the records of [bit] that pass [cond], in scan
    order, each against the row cache [c0] with the record bound as the
    current row of [tb]; [None] when an evaluation throws. *)
Fixpoint passing_values `{Evaluator} (tb : table_manager) (cond : option expr_node_t)
  (inner : expr_node_t) (c0 : gmap string record_manager) (bit : list record_manager)
  : option (list expression) :=
  match bit with
  | [] => Some []
  | rm :: bit' =>
    let c := <[table_name tb := rm]> c0 in
    match (match cond with Some p => eval_bool c p | None => inr true end) with
    | inl _ => None
    | inr false => passing_values tb cond inner c0 bit'
    | inr true =>
      match eval c inner with
      | inl _ => None
      | inr v => (v ::.) <$> passing_values tb cond inner c0 bit'
      end
    end
  end.

(** The accumulators after the values [vals], one callback each. *)
Definition aggregate_rows `{Evaluator} (o : operator_type_t) (vals : list expression)
  : aggregate_state :=
  foldl (λ st v, count_row (accumulate o v st)) (aggregate_init o) vals.

(** [INSERT INTO T VALUES (T.a, T.a)] into a table with the single column
    [a] (and [__rowid__]): a tuple of the wrong arity. *)
Definition ins_T : table_manager :=
  TableManager "T" ["a"; "__rowid__"] [0%Z; 0%Z] [] [None; None].
Definition ins_wrong_arity : insert_info_t :=
  InsertInfo "T" None [[col "T" "a"; col "T" "a"]].

(** ** Notions for the properties of the planner *)

(** [E[p][q]] is set. *)
Definition edge (E : list (list Z)) (p q : nat) : Prop :=
  ∃ e, mat_get E p q = Ok e ∧ e ≠ 0%Z.

(** Consecutive vertices of [l] are joined by edges of [E]. *)
Fixpoint chain (E : list (list Z)) (l : list nat) : Prop :=
  match l with
  | [] => True
  | p :: l' =>
    match l' with
    | [] => True
    | q :: _ => edge E p q ∧ chain E l'
    end
  end.

(** The number of unmarked vertices. *)
Fixpoint free (mark : list Z) : nat :=
  match mark with
  | [] => 0
  | m :: mark' => (if decide (m = 0%Z) then 1 else 0) + free mark'
  end.

(** [mark] with the vertices of [l] marked. *)
Definition set_marks (l : list nat) (mark : list Z) : list Z :=
  foldr (λ v m, <[v:=1%Z]> m) mark l.

(** [path[depth + k]] is the [k]-th vertex of [l]. *)
Definition path_holds (path : list nat) (depth : nat) (l : list nat) : Prop :=
  ∀ k v, l !! k = Some v → path !! (depth + k) = Some v.

Definition search_wf (n : nat) (st : search_state) : Prop :=
  length (s_mark st) = n ∧ length (s_path st) = n.

(** What a search that returned true leaves: from position [depth] the path
    holds a simple chain of unmarked vertices that starts at [now] and ends
    at position [excepted_len], and exactly its vertices got marked. *)
Definition found_chain (n : nat) (E : list (list Z)) (excepted_len : Z)
  (now depth : nat) (st st' : search_state) : Prop :=
  ∃ l, head l = Some now
    ∧ (Z.of_nat (depth + length l) = excepted_len + 1)%Z
    ∧ chain E l ∧ NoDup l
    ∧ Forall (λ v, v < n ∧ s_mark st !! v = Some 0%Z) l
    ∧ path_holds (s_path st') depth l
    ∧ s_mark st' = set_marks l (s_mark st).

(** What a search from [now] at [depth] guarantees about its result. *)
Definition search_post (n : nat) (E : list (list Z)) (excepted_len : Z)
  (now depth : nat) (st : search_state) (r : bool * search_state) : Prop :=
  search_wf n r.2
  ∧ (∀ k, k < depth → s_path r.2 !! k = s_path st !! k)
  ∧ (s_max_depth st ≤ s_max_depth r.2)%Z
  ∧ (if r.1 then found_chain n E excepted_len now depth st r.2
     else s_mark r.2 = s_mark st).

(** The calls [visit i st] that [find_longest_path] makes at [depth] for an
    unmarked vertex [i] return, with [search_post]. *)
Definition visit_ok (n : nat) (E : list (list Z)) (excepted_len : Z)
  (depth fuel : nat) (visit : nat → search_state → outcome (bool * search_state))
  : Prop :=
  ∀ i st,
    search_wf n st → i < n → s_mark st !! i = Some 0%Z →
    free (s_mark st) ≤ fuel → depth + free (s_mark st) ≤ n →
    (Z.of_nat depth ≤ excepted_len)%Z →
    ∃ r, visit i st = Ok r ∧ search_post n E excepted_len i depth st r
         ∧ (Z.of_nat depth ≤ s_max_depth r.2)%Z.

(** The unbounded search [visitA] (to [INT_MAX]) and the search [visitB]
    to [excepted_len] agree: from equal marks, the unbounded one returns
    false, and the bounded one returns true exactly when the unbounded one
    reaches the depth [excepted_len]. *)
Definition visit_sim (n : nat) (excepted_len : Z) (depth fuel : nat)
  (visitA visitB : nat → search_state → outcome (bool * search_state)) : Prop :=
  ∀ i stA stB,
    search_wf n stA → search_wf n stB → s_mark stA = s_mark stB →
    i < n → s_mark stA !! i = Some 0%Z →
    free (s_mark stA) ≤ fuel → depth + free (s_mark stA) ≤ n →
    (Z.of_nat depth ≤ excepted_len)%Z → (s_max_depth stA < excepted_len)%Z →
    ∃ stA' b stB',
      visitA i stA = Ok (false, stA') ∧ visitB i stB = Ok (b, stB')
      ∧ if b : bool then (excepted_len ≤ s_max_depth stA')%Z
        else (s_max_depth stA' < excepted_len)%Z.

(** The search to [INT_MAX] from [start] reaches the depth [max_depth], for
    the [start] and [max_depth] the loop over the start vertices holds. *)
Definition start_reaches (n : nat) (E : list (list Z)) (start : nat) (max_depth : Z)
  : Prop :=
  max_depth = 0%Z
  ∨ ∃ path0 stA,
      length path0 = n
      ∧ find_longest_path (S n) start 0 E INT_MAX (SearchState (replicate n 0%Z) path0 0)
        = Ok (false, stA)
      ∧ s_max_depth stA = max_depth.

(** [E] of the first scenario and of the join of two tables with an index
    on the second: the edge from table 1 to table 0. *)
Definition one_edge : list (list Z) := [[0%Z; 0%Z]; [1%Z; 0%Z]].

(** ** Notions for the properties of SELECT *)

(** The Cartesian product of the records of the tables, the first table
    varying fastest; a tuple holds one record per table, in the order of
    the tables. *)
Fixpoint product (tbs : list table_manager) : list (list record_manager) :=
  match tbs with
  | [] => [[]]
  | tb :: tbs' => t ← product tbs'; rm ← records tb; [rm :: t]
  end.

(** The row cache [c0] with the records of the tuple [rms] bound as the
    current rows of the tables [tbs]. *)
Fixpoint bind_tuple (tbs : list table_manager) (rms : list record_manager)
  (c0 : gmap string record_manager) : gmap string record_manager :=
  match tbs, rms with
  | tb :: tbs', rm :: rms' => <[table_name tb := rm]> (bind_tuple tbs' rms' c0)
  | _, _ => c0
  end.

(** The predicate on a row cache; an absent predicate is true. *)
Definition holds `{Evaluator} (cond : option expr_node_t)
  (c : gmap string record_manager) : string + bool :=
  match cond with
  | Some p => eval_bool c p
  | None => inr true
  end.

(** The tuples of the product on which the predicate evaluates to true. *)
Definition true_tuples `{Evaluator} (cond : option expr_node_t)
  (tbs : list table_manager) (c0 : gmap string record_manager)
  : list (list record_manager) :=
  filter (λ rms, holds cond (bind_tuple tbs rms c0) = inr true) (product tbs).

(** The number of lines in the output. *)
Definition is_endl (t : out_token) : bool :=
  match t with
  | OutEndl => true
  | _ => false
  end.

Fixpoint count_endl (out : list out_token) : Z :=
  match out with
  | [] => 0
  | t :: out' => ((if is_endl t then 1 else 0) + count_endl out')%Z
  end.

(** A table none of whose columns is indexed. *)
Definition no_index (tb : table_manager) : Prop :=
  ∀ cid, get_index tb cid = None.

(** The statements that [iterate] runs as a plain nested scan: over one
    table; or over several tables without any index, with a predicate that
    is present, whose AND tree [extract_and_cond] can flatten, whose
    equalities of column references all resolve, and whose root
    [get_join_cond] can inspect. *)
Definition plain_scan (tbs : list table_manager) (cond : option expr_node_t) : Prop :=
  length tbs = 1
  ∨ (2 ≤ length tbs ∧ (Z.of_nat (length tbs) ≤ INT_MAX)%Z
     ∧ Forall no_index tbs
     ∧ ∃ c and_cond g j,
         cond = Some c
         ∧ extract_and_cond c [] = Ok and_cond
         ∧ setup_join_graph tbs and_cond (empty_graph (length tbs)) = Ok (inr g)
         ∧ get_join_cond cond = Ok j).

(** [SELECT a FROM T WHERE a / b] over the rows (1, 0) and (1, 1): the
    predicate throws on the first row and is true on the second. *)
Definition div_rows : list record_manager :=
  [RecordManager 1 [Some 1%Z; Some 0%Z]; RecordManager 2 [Some 1%Z; Some 1%Z]].
Definition div_T : table_manager :=
  TableManager "T" ["a"; "b"; "__rowid__"] [0%Z; 0%Z; 0%Z] div_rows [None; None; None].
Definition div_cond : expr_node_t := binop (OPERATOR_OTHER 0) (col "T" "a") (col "T" "b").
Definition div_info : select_info_t := SelectInfo ["T"] [col "T" "a"] (Some div_cond).

(** [SELECT T.a FROM T, U WHERE T.a = U.c AND T.b = U.c] over the division
    rows and a table [U] with the rows 1 and 2, no index anywhere. *)
Definition scan_U : table_manager :=
  TableManager "U" ["c"; "__rowid__"] [0%Z; 0%Z]
    [RecordManager 1 [Some 1%Z]; RecordManager 2 [Some 2%Z]] [None; None].
Definition scan_cond : expr_node_t :=
  binop OPERATOR_AND (binop OPERATOR_EQ (col "T" "a") (col "U" "c"))
    (binop OPERATOR_EQ (col "T" "b") (col "U" "c")).
Definition scan_info : select_info_t :=
  SelectInfo ["T"; "U"] [col "T" "a"] (Some scan_cond).

(** What the counting lemmas ask of a tuple: the predicate evaluates on
    it, and where it is true the callback, called in the row cache of the
    tuple, continues, leaves the row cache alone and moves the measure by
    [next]. *)
Definition counted_tuple `{Evaluator} {L : Type}
  (callback : list table_manager → list (option record_manager) → list Z
              → world L → outcome (world L * bool))
  (measure : world L → Z) (next : Z → Z) (tbs : list table_manager)
  (cond : option expr_node_t)
  (c0 : gmap string record_manager) (rms : list record_manager) : Prop :=
  match holds cond (bind_tuple tbs rms c0) with
  | inl _ => False
  | inr false => True
  | inr true =>
    ∀ tl rl rids w,
      row_cache w = bind_tuple tbs rms c0 → length rl = length tl →
      ∃ w', callback tl rl rids w = Ok (w', true)
        ∧ row_cache w' = row_cache w ∧ measure w' = next (measure w)
  end.

(** The row cache [c] while the tables from position [k] on are bound to
    the tuple [outer]: it agrees with the bound cache on every key that is
    not the name of one of the first [k] tables. *)
Definition cache_bound (tbs : list table_manager) (k : nat)
  (outer : list record_manager) (c0 c : gmap string record_manager) : Prop :=
  ∀ key, key ∉ table_name <$> take k tbs →
    c !! key = bind_tuple (drop k tbs) outer c0 !! key.

(** What the nested scan of the first [k] tables does, as [step], from a
    world in which the other tables are bound to [outer]: it ends and asks
    to continue, the measure has moved by [next] once for each tuple of
    the first [k] tables that completes [outer] to a tuple on which the
    predicate is true, and the row cache changes at the names of those
    tables only. *)
Definition scan_level `{Evaluator} {L : Type} (measure : world L → Z) (next : Z → Z)
  (tbs : list table_manager) (cond : option expr_node_t)
  (c0 : gmap string record_manager) (k : nat)
  (step : world L → cursor → outcome (world L * cursor * bool)) : Prop :=
  ∀ outer w cur,
    length (record_list cur) = length tbs → length (rid_list cur) = length tbs →
    (∀ t, t ∈ product (take k tbs) → t ++ outer ∈ product tbs) →
    cache_bound tbs k outer c0 (row_cache w) →
    ∃ w' cur',
      step w cur = Ok (w', cur', true)
      ∧ measure w'
        = Nat.iter (length (filter
                      (λ t, holds cond (bind_tuple tbs (t ++ outer) c0) = inr true)
                      (product (take k tbs)))) next (measure w)
      ∧ (∀ key, key ∉ table_name <$> take k tbs →
           row_cache w' !! key = row_cache w !! key)
      ∧ length (record_list cur') = length tbs
      ∧ length (rid_list cur') = length tbs.

(** The column references of an equality of two column references are
    there to be read. *)
Definition readable_equality (c : expr_node_t) : Prop :=
  op c = OPERATOR_EQ → both_column_refs c = Ok true →
  ∃ l r lref rref,
    e_left c = Some l ∧ column_ref l = Some lref
    ∧ e_right c = Some r ∧ column_ref r = Some rref.

(** ** Notions for the properties of the iterators *)

(** What a loop that returns a continue flag leaves, for an invariant [Inv]
    of the worlds in which the scan goes on and a condition [Stop] of the
    worlds in which the consumer asked to stop. *)
Definition flagged {L : Type} (Inv Stop : world L → Prop) (r : world L * cursor * bool) : Prop :=
  if r.2 then Inv r.1.1 else Inv r.1.1 ∨ Stop r.1.1.

(** The consumer with the assertion that the predicate is true on the
    current rows. *)
Definition checked `{Evaluator} {L : Type} (cond : option expr_node_t)
  (callback : list table_manager → list (option record_manager) → list Z
              → world L → outcome (world L * bool))
  (tl : list table_manager) (rl : list (option record_manager)) (rids : list Z)
  (w : world L) : outcome (world L * bool) :=
  match holds cond (row_cache w) with
  | inr true => callback tl rl rids w
  | _ => Fault AssertFailed
  end.

(** The consumer with the assertion that it is not called once [halted]
    is set. *)
Definition unhalted {L : Type} (halted : world L → bool)
  (callback : list table_manager → list (option record_manager) → list Z
              → world L → outcome (world L * bool))
  (tl : list table_manager) (rl : list (option record_manager)) (rids : list Z)
  (w : world L) : outcome (world L * bool) :=
  if halted w then Fault AssertFailed else callback tl rl rids w.

(** The latch of [record_rids]: it has recorded a call. *)
Definition has_recorded (w : world (list (list Z))) : bool :=
  match locals w with
  | [] => false
  | _ :: _ => true
  end.

(** ** Notions for the further properties of the planner *)

(** The calls [visit i st] that a search to [INT_MAX] makes at [depth] for
    an unmarked vertex [i] record in [max_depth] the depth that every
    simple chain of unmarked vertices from [i] reaches. *)
Definition visit_covers (n : nat) (E : list (list Z)) (depth fuel : nat)
  (visit : nat → search_state → outcome (bool * search_state)) : Prop :=
  ∀ i st st' l,
    search_wf n st → i < n → s_mark st !! i = Some 0%Z →
    free (s_mark st) ≤ fuel → depth + free (s_mark st) ≤ n →
    head l = Some i → chain E l → NoDup l →
    Forall (λ v, v < n ∧ s_mark st !! v = Some 0%Z) l →
    visit i st = Ok (false, st') →
    (Z.of_nat (depth + length l) ≤ s_max_depth st' + 1)%Z.

(** Two results of a search that differ at most in [max_depth]. *)
Definition same_search (r1 r2 : outcome (bool * search_state)) : Prop :=
  match r1, r2 with
  | Ok (b1, st1), Ok (b2, st2) =>
    b1 = b2 ∧ s_mark st1 = s_mark st2 ∧ s_path st1 = s_path st2
  | Fault f1, Fault f2 => f1 = f2
  | _, _ => False
  end.

(** ** Notions for the further properties of the aggregates *)

(** [m] is the least (for MIN) or the greatest (for any other operator) of
    the [int] values [vals]. *)
Definition int_extremum (o : operator_type_t) (vals : list expression) (m : Z) : Prop :=
  m ∈ val_i <$> vals
  ∧ ∀ v, v ∈ vals →
      if decide (o = OPERATOR_MIN) then (m ≤ val_i v)%Z else (val_i v ≤ m)%Z.

(** The same for the [float] values, up to the equality of rationals. *)
Definition float_extremum (o : operator_type_t) (vals : list expression) (m : Q) : Prop :=
  (∃ v, v ∈ vals ∧ (m == val_f v)%Q)
  ∧ ∀ v, v ∈ vals →
      if decide (o = OPERATOR_MIN) then (m <= val_f v)%Q else (val_f v <= m)%Q.

(** The [float] values that the initial accumulator of MIN or MAX does not
    hide: for MIN every value is at most [FLT_MAX]; for MAX some value is
    at least [FLT_MIN]. *)
Definition float_in_range (o : operator_type_t) (vals : list expression) : Prop :=
  match o with
  | OPERATOR_MIN => Forall (λ v, (val_f v <= FLT_MAX)%Q) vals
  | OPERATOR_MAX => Exists (λ v, (FLT_MIN <= val_f v)%Q) vals
  | _ => False
  end.

(** ** [dbms::delete_rows] and [dbms::update_rows] *)

(** The record store of a table as DELETE and UPDATE use it.
    Modelled from the spec: [remove_record(rid) → bool] and
    [modify_record(rid, col, bytes) → bool] of the table manager, whose
    source is elsewhere; each returns the table as it leaves it. *)
Class Mutator : Type := {
  remove_record : table_manager → Z → table_manager * bool;
  modify_record : table_manager → Z → nat → col_data → table_manager * bool
}.

Record delete_info_t : Type := DeleteInfo {
  delete_table : string;
  delete_where : option expr_node_t
}.

(** The callback of [delete_rows]; its local is [delete_list]. *)
Definition delete_callback (tb : table_manager) (rm : record_manager) (rid : Z)
  (w : world (list Z)) : outcome (world (list Z) * bool) :=
  Ok (set_locals (locals w ++ [rid]) w, true).

(** [for(int rid : delete_list) counter += tm->remove_record(rid);] *)
Fixpoint remove_records `{Mutator} (tm : table_manager) (delete_list : list Z)
  (counter : Z) : table_manager * Z :=
  match delete_list with
  | [] => (tm, counter)
  | rid :: delete_list' =>
    let '(tm, removed) := remove_record tm rid in
    remove_records tm delete_list' (counter + Z.b2z removed)
  end.

Definition deleted_message (counter : Z) : string :=
  "[Info] " +:+ pretty counter +:+ " row(s) deleted.".

(** The table as the statement leaves it (when it was found) and the
    world. *)
Definition delete_rows `{Evaluator} `{Mutator} (cur_db : option database)
  (info : delete_info_t) (w : world ()) : outcome (option table_manager * world ()) :=
  match assert_db_open cur_db w with
  | (w, None) => Ok (None, w)
  | (w, Some db) =>
    match get_table db (delete_table info) with
    | None =>
      Ok (None,
          cache_clear
            (puts ("[Error] table `" +:+ delete_table info +:+ "` doesn't exists.") w))
    | Some tm =>
      w ← iterate_one_table tm (delete_where info) delete_callback (set_locals [] w);
      let '(tm, counter) := remove_records tm (locals w) 0 in
      Ok (Some tm, cache_clear (set_locals () (puts (deleted_message counter) w)))
    end
  end.

Record update_info_t : Type := UpdateInfo {
  update_table : string;
  update_column_ref : option column_ref_t;
  update_where : option expr_node_t;
  update_value : expr_node_t
}.

(** What the callback of [update_rows] reaches by reference: the table
    [tm], [succ_count] and [fail_count]; and [thrown], the [const char*]
    that left the callback as an exception. *)
Record update_state : Type := UpdateState {
  upd_table : table_manager;
  succ_count : Z;
  fail_count : Z;
  thrown : option string
}.

(** The callback of [update_rows].  A [throw] leaves [iterate_one_table]
    through its loop, which has nothing to run after it: here the callback
    records the message and asks to stop. *)
Definition update_callback `{Evaluator} `{Store} `{Mutator} (value : expr_node_t)
  (col_id : nat) (tb : table_manager) (rm : record_manager) (rid : Z)
  (w : world update_state) : outcome (world update_state * bool) :=
  let st := locals w in
  match eval (row_cache w) value with
  | inl msg =>
    Ok (set_locals (UpdateState (upd_table st) (succ_count st) (fail_count st) (Some msg)) w,
        false)
  | inr val =>
    let col_type := get_column_type (upd_table st) col_id in
    if type_compatible col_type val then
      let term_type := column_to_term col_type in
      let '(tm, ret) := modify_record (upd_table st) rid col_id (expr_to_db val term_type) in
      Ok (set_locals
            (UpdateState tm (succ_count st + Z.b2z ret) (fail_count st + (1 - Z.b2z ret))
               None) w,
          true)
    else
      Ok (set_locals
            (UpdateState (upd_table st) (succ_count st) (fail_count st)
               (Some "[Error] Incompatible data type.")) w,
          false)
  end.

Definition updated_message (succ_count fail_count : Z) : string :=
  "[Info] " +:+ pretty succ_count +:+ " row(s) updated, " +:+ pretty fail_count
    +:+ " row(s) failed.".

(** The scan walks the records the table holds when the statement starts:
    [modify_record] changes a record in place after the iterator has
    yielded it, and row ids do not change. *)
Definition update_rows `{Evaluator} `{Store} `{Mutator} (cur_db : option database)
  (info : update_info_t) (w : world ()) : outcome (option table_manager * world ()) :=
  match assert_db_open cur_db w with
  | (w, None) => Ok (None, w)
  | (w, Some db) =>
    match get_table db (update_table info) with
    | None =>
      Ok (None,
          cache_clear
            (puts ("[Error] table `" +:+ update_table info +:+ "` doesn't exists.") w))
    | Some tm =>
      cref ← deref (update_column_ref info);
      match lookup_column tm (column cref) with
      | None =>
        Ok (Some tm,
            cache_clear (puts ("[Error] column `" +:+ column cref +:+ "' not exists.") w))
      | Some col_id =>
        w ← iterate_one_table tm (update_where info)
              (update_callback (update_value info) col_id)
              (set_locals (UpdateState tm 0 0 None) w);
        let st := locals w in
        match thrown st with
        | Some msg => Ok (Some (upd_table st), cache_clear (set_locals () (puts msg w)))
        | None =>
          Ok (Some (upd_table st),
              cache_clear
                (set_locals ()
                   (puts (updated_message (succ_count st) (fail_count st)) w)))
        end
      end
    end
  end.

(** The rows of [bit] on which the predicate is true, each against the row
    cache [c0] with the row bound as the current row of [tb]. *)
Definition passing_rows `{Evaluator} (tb : table_manager) (cond : option expr_node_t)
  (c0 : gmap string record_manager) (bit : list record_manager) : list record_manager :=
  filter (λ rm, holds cond (<[table_name tb := rm]> c0) = inr true) bit.

(** The predicate evaluates without error on the rows of [bit]. *)
Definition predicate_total `{Evaluator} (tb : table_manager) (cond : option expr_node_t)
  (c0 : gmap string record_manager) (bit : list record_manager) : Prop :=
  ∀ rm, rm ∈ bit → ∃ b, holds cond (<[table_name tb := rm]> c0) = inr b.

(** A store whose [remove_record] drops the record with the row id, when
    there is one, and whose [modify_record] always succeeds and leaves the
    table as it is. *)
Definition sample_mutator : Mutator := {|
  remove_record := λ tb r,
    (TableManager (table_name tb) (column_names tb) (column_types tb)
       (filter (λ rm, rid rm ≠ r) (records tb)) (indexes tb),
     bool_decide (r ∈ rid <$> records tb));
  modify_record := λ tb r cid v, (tb, true)
|}.

(** [T(a, b)] with the rows (1, 1), (1, 0) and (1, 1): [a / b] is true on
    the first row, throws on the second, and the third is behind it. *)
Definition err_T : table_manager :=
  TableManager "T" ["a"; "b"; "__rowid__"] [0%Z; 0%Z; 0%Z]
    [RecordManager 1 [Some 1%Z; Some 1%Z]; RecordManager 2 [Some 1%Z; Some 0%Z];
     RecordManager 3 [Some 1%Z; Some 1%Z]]
    [None; None; None].

(** The value of UPDATE evaluates on the row [rm] to a value compatible
    with the type of the column [col_id] of [tb]. *)
Definition value_fits `{Evaluator} `{Store} (tb : table_manager) (col_id : nat)
  (value : expr_node_t) (c0 : gmap string record_manager) (rm : record_manager) : Prop :=
  ∃ v, eval (<[table_name tb := rm]> c0) value = inr v
       ∧ type_compatible (get_column_type tb col_id) v = true.

(** The value of UPDATE is refused on the row [rm] with [msg]: its
    evaluation throws [msg], or its value is incompatible with the type of
    the column [col_id] of [tb] and [msg] is the diagnostic of an
    incompatible type. *)
Definition value_refused `{Evaluator} `{Store} (tb : table_manager) (col_id : nat)
  (value : expr_node_t) (c0 : gmap string record_manager) (rm : record_manager)
  (msg : string) : Prop :=
  eval (<[table_name tb := rm]> c0) value = inl msg
  ∨ ∃ v, eval (<[table_name tb := rm]> c0) value = inr v
         ∧ type_compatible (get_column_type tb col_id) v = false
         ∧ msg = "[Error] Incompatible data type.".

(** [modify_record] writes a column of a record: it leaves the types of
    the columns of the table as they are. *)
Definition keeps_column_types `{Mutator} : Prop :=
  ∀ tm rid cid v, column_types (modify_record tm rid cid v).1 = column_types tm.

(** A store that checks the type of the column: a column of type code [1]
    takes a [float], any other column an [int]; the temp record and the
    commit are those of [sample_store]. *)
Definition typed_store : Store := {|
  type_compatible := λ col_type v,
    if decide (col_type = 1%Z) then bool_decide (type v = TERM_FLOAT)
    else bool_decide (type v = TERM_INT);
  column_to_term := λ col_type, if decide (col_type = 1%Z) then TERM_FLOAT else TERM_INT;
  expr_to_db := λ v _, val_i v;
  init_temp_record := λ tb, tb;
  set_temp_record := λ tb cid v, (tb, bool_decide (v < 1000)%Z);
  insert_record := @insert_record sample_store
|}.

(** [T(a int, f float)] with the rows (0, 2), (1, 2) and (1, 3): [a] is
    false on the first row and true on the others, and [f] is a [float]
    on every row. *)
Definition typed_T : table_manager :=
  TableManager "T" ["a"; "f"; "__rowid__"] [0%Z; 1%Z; 0%Z]
    [RecordManager 1 [Some 0%Z; Some 2%Z]; RecordManager 2 [Some 1%Z; Some 2%Z];
     RecordManager 3 [Some 1%Z; Some 3%Z]]
    [None; None; None].

(** ** [database::create_table] *)

(** [table_header_t], of which the database reads the table name. *)
Record table_header_t : Type := TableHeader {
  header_table_name : string;
  header_column_names : list string;
  header_column_types : list Z
}.

Section create_table.
Context {L : Type}.
(** The capacity of the arrays [tables] and [info.table_name]. *)
Variable MAX_TABLE_NUM : nat.
(** [tables[id] = new table_manager; tables[id]->create(name, header)]. *)
Variable table_create : string → table_header_t → table_manager.

(** [database::create_table] on a database that is open ([Some]) or not. *)
Definition database_create_table (db : option database) (header : table_header_t)
  (w : world L) : outcome (option database * world L) :=
  match db with
  | None => Ok (None, puts "[Error] database not opened." w)
  | Some d =>
    match get_table d (header_table_name header) with
    | None =>
      Ok (Some d,
          puts ("[Error] table `" +:+ header_table_name header +:+ "` already exists.") w)
    | Some _ =>
      (* id = info.table_num++ *)
      if decide (length (tables d) < MAX_TABLE_NUM) then
        Ok (Some (Database
                    (tables d ++ [table_create (header_table_name header) header])), w)
      else Fault OutOfBounds
    end
  end.

(** [dbms::create_table]. *)
Definition create_table (cur_db : option database) (header : table_header_t) (w : world L)
  : outcome (option database * world L) :=
  match assert_db_open cur_db w with
  | (w, None) => Ok (None, w)
  | (w, Some db) => database_create_table (Some db) header w
  end.

End create_table.

(** A table made from its header, without rows or indexes. *)
Definition sample_table_create (name : string) (header : table_header_t) : table_manager :=
  TableManager name (header_column_names header) (header_column_types header) []
    (replicate (length (header_column_names header)) None).

(** ** Notions for the set-up of the executor *)

(** The conjunct [c] joins the tables [p] and [q] on a column of [p] that
    has an index, found the way the set-up of the iteration variables
    looks it up. *)
Definition conjunct_indexed (tbs : list table_manager) (c : expr_node_t) (p q : nat)
  : Prop :=
  ∃ l r lref rref tbp tid1 tid2,
    e_left c = Some l ∧ column_ref l = Some lref
    ∧ e_right c = Some r ∧ column_ref r = Some rref
    ∧ tbs !! p = Some tbp
    ∧ lookup_table tbs (table lref) = Some tid1
    ∧ lookup_table tbs (table rref) = Some tid2
    ∧ ((p = tid1 ∧ q = tid2
        ∧ is_Some (get_index tbp (lookup_column tbp (column lref))))
       ∨ (p = tid2 ∧ q = tid1
          ∧ is_Some (get_index tbp (lookup_column tbp (column rref))))).

(** Every edge of the graph carries such a conjunct. *)
Definition graph_indexed (tbs : list table_manager) (g : join_graph) : Prop :=
  square (length tbs) (E g) ∧ square (length tbs) (J g)
  ∧ ∀ p q, edge (E g) p q →
      ∃ c, mat_get (J g) p q = Ok (Some c) ∧ conjunct_indexed tbs c p q.

(** ** Notions for the order of a plain scan *)

(** What the nested scan of the first [k] tables does as [step] with the
    consumer [record_rids true], from a world in which the other tables
    are bound to [outer] and [rid_list] holds their row ids: it ends and
    asks to continue, having recorded the row ids of the tuples that
    complete [outer] and on which the predicate is true, in the order of
    the product. *)
Definition trace_level `{Evaluator} (tbs : list table_manager)
  (cond : option expr_node_t) (c0 : gmap string record_manager) (k : nat)
  (step : world (list (list Z)) → cursor → outcome (world (list (list Z)) * cursor * bool))
  : Prop :=
  ∀ outer w cur,
    length (record_list cur) = length tbs → length (rid_list cur) = length tbs →
    drop k (rid_list cur) = rid <$> outer →
    (∀ t, t ∈ product (take k tbs) → t ++ outer ∈ product tbs) →
    cache_bound tbs k outer c0 (row_cache w) →
    ∃ w' cur',
      step w cur = Ok (w', cur', true)
      ∧ locals w'
        = locals w
          ++ ((λ t, rid <$> (t ++ outer))
                <$> filter (λ t, holds cond (bind_tuple tbs (t ++ outer) c0) = inr true)
                      (product (take k tbs)))
      ∧ (∀ key, key ∉ table_name <$> take k tbs →
           row_cache w' !! key = row_cache w !! key)
      ∧ length (record_list cur') = length tbs
      ∧ length (rid_list cur') = length tbs
      ∧ drop k (rid_list cur') = drop k (rid_list cur).

(** * Properties *)

(** ** The outcome monad *)

Lemma bind_Ok {A B : Type} (a : A) (k : A → outcome B) : Ok a ≫= k = k a.
Proof. reflexivity. Qed.

Lemma bind_Fault {A B : Type} (f : fault) (k : A → outcome B) : Fault f ≫= k = Fault f.
Proof. reflexivity. Qed.

Lemma bind_Ok_inv {A B : Type} (m : outcome A) (k : A → outcome B) (b : B) :
  m ≫= k = Ok b → ∃ a, m = Ok a ∧ k a = Ok b.
Proof. destruct m as [a|f]; simpl; [eauto | discriminate]. Qed.

Lemma vec_get_Ok {A : Type} (v : list A) (i : nat) (a : A) :
  vec_get v i = Ok a ↔ v !! i = Some a.
Proof. unfold vec_get. destruct (v !! i); split; congruence. Qed.

Lemma vec_set_Ok {A : Type} (v v' : list A) (i : nat) (a : A) :
  vec_set v i a = Ok v' ↔ i < length v ∧ v' = <[i:=a]> v.
Proof.
  unfold vec_set. destruct (decide (i < length v)); split.
  - intros [= <-]. done.
  - intros [_ ->]. done.
  - discriminate.
  - intros [? _]. lia.
Qed.

Lemma vec_set_lt {A : Type} (v : list A) (i : nat) (a : A) :
  i < length v → vec_set v i a = Ok (<[i:=a]> v).
Proof. intros. by apply vec_set_Ok. Qed.

Lemma vec_get_lt {A : Type} (v : list A) (i : nat) :
  i < length v → ∃ a, vec_get v i = Ok a ∧ v !! i = Some a.
Proof.
  intros Hi. destruct (lookup_lt_is_Some_2 v i Hi) as [a Ha].
  exists a. split; [by apply vec_get_Ok | done].
Qed.

(** ** The single-table iterator with an absent predicate *)

Lemma iterate_one_table_loop_null `{Evaluator} (tb : table_manager) (tables : list table_manager)
  (bit : list record_manager) (w : world (list (list Z))) :
  final_locals
    (iterate_one_table_loop tb None
       (λ _ rm rid, record_rids true tables [Some rm] [rid]) bit w)
  = Some (locals w ++ ((λ rm, [rid rm]) <$> bit)).
Proof.
  revert w. induction bit as [|rm bit IH]; intros w; simpl.
  - by rewrite app_nil_r.
  - rewrite IH. simpl. by rewrite <- app_assoc.
Qed.

(** C9.  The many-table path needs a predicate: with an absent WHERE
    clause [iterate_many_tables] dereferences the null condition in
    [extract_and_cond] before anything else, so [iterate] over two or more
    tables faults without reaching the enumeration (the index join declines
    a null condition first); over a single table the absent predicate
    counts as true and every record reaches the consumer. *)
Theorem null_predicate_only_on_single_table `{Evaluator} {L : Type} (uninit : Z)
  (callback : list table_manager → list (option record_manager) → list Z
              → world L → outcome (world L * bool))
  (table_list : list table_manager) (tb tb1 tb2 : table_manager)
  (rest : list table_manager) (w : world L) (wr : world (list (list Z))) :
  iterate_many_tables uninit callback table_list None w = Fault NullDeref
  ∧ iterate_two_tables_with_joint_cond_equal callback tb1 tb2 None w = Ok (w, false)
  ∧ iterate uninit callback (tb1 :: tb2 :: rest) None w = Fault NullDeref
  ∧ final_locals (iterate uninit (record_rids true) [tb] None wr)
    = Some (locals wr ++ ((λ rm, [rid rm]) <$> records tb)).
Proof.
  split; [reflexivity|]. split; [reflexivity|]. split.
  - destruct rest; reflexivity.
  - apply iterate_one_table_loop_null.
Qed.

(** C10.  In the two-table index join a driver record whose join column is
    NULL (its cached column is null) is skipped: the loop goes on with the
    next driver record from the world in which the record was only
    cached; the probe index and the consumer play no part in the step. *)
Theorem null_driver_key_is_skipped `{Evaluator} {L : Type}
  (callback : list table_manager → list (option record_manager) → list Z
              → world L → outcome (world L * bool))
  (tb1 tb2 : table_manager) (cid1 : nat) (idx2 : index_manager) (cond : expr_node_t)
  (tb1_rm : record_manager) (tb1_it : list record_manager) (w : world L) :
  cols tb1_rm !! cid1 ≫= id = None →
  get_cached_column tb1 (Some cid1) (cache_record tb1 tb1_rm w) = None
  ∧ driver_loop callback tb1 tb2 cid1 idx2 cond (tb1_rm :: tb1_it) w
    = driver_loop callback tb1 tb2 cid1 idx2 cond tb1_it (cache_record tb1 tb1_rm w).
Proof.
  intros Hnull.
  assert (Hcol : get_cached_column tb1 (Some cid1) (cache_record tb1 tb1_rm w) = None).
  { unfold get_cached_column, cache_record. simpl.
    rewrite lookup_insert_eq. simpl.
    destruct (cols tb1_rm !! cid1) as [[v|]|]; simpl in *; congruence. }
  split; [done|]. cbn [driver_loop]. by rewrite Hcol.
Qed.

Lemma null_driver_key_is_skipped_witness :
  driver_loop (H:=sample_evaluator [stop_A; stop_B]) (record_rids true) stop_A stop_B 0
    (create_index 0 stop_rows_B) stop_cond
    (RecordManager 3 [None] :: stop_rows_A) (empty_world [])
  = driver_loop (H:=sample_evaluator [stop_A; stop_B]) (record_rids true) stop_A stop_B 0
      (create_index 0 stop_rows_B) stop_cond stop_rows_A
      (cache_record stop_A (RecordManager 3 [None]) (empty_world [])).
Proof.
  apply (null_driver_key_is_skipped (H:=sample_evaluator [stop_A; stop_B])
           (record_rids true) stop_A stop_B 0 (create_index 0 stop_rows_B) stop_cond
           (RecordManager 3 [None]) stop_rows_A (empty_world [])).
  reflexivity.
Defined.


(** ** A consumer that asks to stop *)

(** C2, on the two-table index join.  The consumer asks to stop at its
    first call, for the rows 1 of [A] and 10 of [B]; the [break] leaves the
    probe loop only, the driver loop goes on, and the consumer is called
    again for the rows 2 and 10.  The many-table path stops at the first
    call on the same input. *)
Theorem index_join_calls_consumer_after_stop :
  final_locals
    (iterate (H:=sample_evaluator [stop_A; stop_B]) 0 (record_rids false)
       [stop_A; stop_B] (Some stop_cond) (empty_world []))
  = Some [[1%Z; 10%Z]; [2%Z; 10%Z]]
  ∧ final_locals
      (iterate_many_tables (H:=sample_evaluator [stop_A; stop_B]) 0 (record_rids false)
         [stop_A; stop_B] (Some stop_cond) (empty_world []))
    = Some [[1%Z; 10%Z]].
Proof. split; vm_compute; reflexivity. Qed.

(** ** Index join against enumeration *)

(** C3, on [FROM A, B WHERE A.x = A.y].  The index join takes the right
    column [y] for a column of [B], probes the index of [B.y] from the key
    5 of the row of [A] and finds nothing, although the row of [A]
    satisfies the predicate; the many-table path resolves both columns to
    [A] and passes the pair of rows to the consumer. *)
Theorem index_join_misses_rows_of_enumeration :
  iterate_two_tables_with_joint_cond_equal (H:=sample_evaluator [same_A; same_B])
    (record_rids true) same_A same_B (Some same_cond) (empty_world [])
  = Ok (World {[ "A" := RecordManager 1 [Some 5%Z; Some 5%Z] ]} [] [] [], true)
  ∧ final_locals
      (iterate (H:=sample_evaluator [same_A; same_B]) 0 (record_rids true)
         [same_A; same_B] (Some same_cond) (empty_world []))
    = Some []
  ∧ final_locals
      (iterate_many_tables (H:=sample_evaluator [same_A; same_B]) 0 (record_rids true)
         [same_A; same_B] (Some same_cond) (empty_world []))
    = Some [[1%Z; 10%Z]].
Proof. repeat split; vm_compute; reflexivity. Qed.

(** ** The join-condition graph *)

Lemma square_replicate {A : Type} (n : nat) (a : A) : square n (replicate n (replicate n a)).
Proof.
  split; [apply length_replicate|].
  apply Forall_replicate, length_replicate.
Qed.

Lemma square_row {A : Type} (n : nat) (m : list (list A)) (i : nat) (row : list A) :
  square n m → m !! i = Some row → length row = n.
Proof. intros [_ Hrows] Hi. by eapply (Forall_lookup_1 _ _ _ _ Hrows Hi). Qed.

Lemma mat_get_Ok {A : Type} (m : list (list A)) (i j : nat) (a : A) :
  mat_get m i j = Ok a ↔ ∃ row, m !! i = Some row ∧ row !! j = Some a.
Proof.
  unfold mat_get, vec_get. split.
  - destruct (m !! i) as [row|]; simpl; [|discriminate].
    destruct (row !! j) eqn:Hj; [|discriminate]. intros [= <-]. eauto.
  - intros (row & -> & Hj). simpl. by rewrite Hj.
Qed.

Lemma mat_get_lt {A : Type} (n : nat) (m : list (list A)) (i j : nat) :
  square n m → i < n → j < n → ∃ a, mat_get m i j = Ok a.
Proof.
  intros Hsq Hi Hj.
  destruct (lookup_lt_is_Some_2 m i) as [row Hrow]; [destruct Hsq; lia|].
  destruct (lookup_lt_is_Some_2 row j) as [a Ha].
  { by rewrite (square_row n m i row). }
  exists a. apply mat_get_Ok. eauto.
Qed.

Lemma mat_set_spec {A : Type} (n : nat) (m : list (list A)) (i j : nat) (a : A) :
  square n m → i < n → j < n →
  ∃ m', mat_set m i j a = Ok m' ∧ square n m' ∧ mat_get m' i j = Ok a
        ∧ ∀ i' j', (i', j') ≠ (i, j) → mat_get m' i' j' = mat_get m i' j'.
Proof.
  intros Hsq Hi Hj.
  destruct (lookup_lt_is_Some_2 m i) as [row Hrow]; [destruct Hsq; lia|].
  assert (Hlen : length row = n) by by eapply square_row.
  exists (<[i:=<[j:=a]> row]> m). split; [|split; [|split]].
  - unfold mat_set, vec_get. rewrite Hrow. simpl.
    rewrite vec_set_lt by lia. simpl. apply vec_set_lt. destruct Hsq; lia.
  - destruct Hsq as [Hn Hrows]. split; [by rewrite length_insert|].
    apply Forall_insert; [done|]. by rewrite length_insert.
  - apply mat_get_Ok. exists (<[j:=a]> row). split.
    + apply list_lookup_insert_eq. destruct Hsq; lia.
    + apply list_lookup_insert_eq. lia.
  - intros i' j' Hne. unfold mat_get, vec_get.
    destruct (decide (i' = i)) as [->|Hi'].
    + rewrite list_lookup_insert_eq by (destruct Hsq; lia). rewrite Hrow. simpl.
      rewrite list_lookup_insert_ne by congruence. done.
    + by rewrite list_lookup_insert_ne.
Qed.

Lemma find_string_Some (name : string) (l : list string) (i : nat) :
  find_string name l = Some i → l !! i = Some name.
Proof.
  revert i. induction l as [|x l IH]; intros i; simpl; [discriminate|].
  destruct (decide (name = x)) as [->|Hne].
  - by intros [= <-].
  - destruct (find_string name l) as [k|]; simpl; [|discriminate].
    intros [= <-]. simpl. by apply IH.
Qed.

Lemma lookup_table_Some (table_list : list table_manager) (name : string) (i : nat) :
  lookup_table table_list name = Some i →
  ∃ tb, table_list !! i = Some tb ∧ table_name tb = name.
Proof.
  intros Hi. apply find_string_Some in Hi.
  rewrite list_lookup_fmap in Hi.
  destruct (table_list !! i) as [tb|]; simpl in Hi; [|discriminate].
  exists tb. split; [done|]. by injection Hi.
Qed.

Lemma add_edge_spec (n : nat) (g : join_graph) (i j : nat) (c : expr_node_t) :
  square n (E g) → square n (J g) → i < n → j < n →
  ∃ g', add_edge g i j c = Ok g' ∧ square n (E g') ∧ square n (J g')
        ∧ mat_get (E g') i j = Ok 1%Z ∧ mat_get (J g') i j = Ok (Some c)
        ∧ ∀ i' j', (i', j') ≠ (i, j) →
            mat_get (E g') i' j' = mat_get (E g) i' j'
            ∧ mat_get (J g') i' j' = mat_get (J g) i' j'.
Proof.
  intros HE HJ Hi Hj.
  destruct (mat_set_spec n (E g) i j 1%Z HE Hi Hj) as (e' & He & HE' & Hget & Hframe).
  destruct (mat_set_spec n (J g) i j (Some c) HJ Hi Hj) as (j' & Hj' & HJ' & Hgetj & Hframej).
  exists (JoinGraph e' j'). unfold add_edge. rewrite He. simpl. rewrite Hj'. simpl.
  split; [done|]. split; [done|]. split; [done|]. split; [done|]. split; [done|].
  intros i' k' Hne. simpl. split; [by apply Hframe | by apply Hframej].
Qed.

(** C4, the claim as stated, refuted: for [T0.a = T1.b] the left column is
    in table 0, which has an index on [a]; the claim puts the edge at
    [E[1][0]], the code leaves [E[1][0]] and [J[1][0]] empty and sets
    [E[0][1]]. *)
Lemma edge_is_not_towards_indexed_table :
  ∃ g, setup_join_cond [edge_T0; edge_T1] edge_cond (empty_graph 2) = Ok (inr g)
       ∧ lookup_table [edge_T0; edge_T1] "T0" = Some 0
       ∧ lookup_table [edge_T0; edge_T1] "T1" = Some 1
       ∧ is_Some (get_index edge_T0 (lookup_column edge_T0 "a"))
       ∧ mat_get (E g) 1 0 = Ok 0%Z ∧ mat_get (J g) 1 0 = Ok None
       ∧ mat_get (E g) 0 1 = Ok 1%Z.
Proof.
  eexists. split; [vm_compute; reflexivity|].
  repeat split; try (vm_compute; reflexivity). vm_compute. eauto.
Qed.

(** C4, amended.  For an equality conjunct [c] whose left column is in
    table [i] and whose right column is in table [j]: when table [i] has an
    index on its join column, [E[i][j]] is 1 and [J[i][j]] is [c]; when
    table [j] has one, [E[j][i]] is 1 and [J[j][i]] is [c]; no other entry
    of [E] or [J] changes, so a conjunct with no index on either side
    leaves the graph as it was. *)
Theorem join_edge_leaves_indexed_table (table_list : list table_manager)
  (c l r : expr_node_t) (lref rref : column_ref_t) (i j cid_i cid_j : nat)
  (tb_i tb_j : table_manager) (g : join_graph) :
  square (length table_list) (E g) → square (length table_list) (J g) →
  op c = OPERATOR_EQ →
  e_left c = Some l → term_type l = TERM_COLUMN_REF → column_ref l = Some lref →
  e_right c = Some r → term_type r = TERM_COLUMN_REF → column_ref r = Some rref →
  lookup_table table_list (table lref) = Some i → table_list !! i = Some tb_i →
  lookup_table table_list (table rref) = Some j → table_list !! j = Some tb_j →
  lookup_column tb_i (column lref) = Some cid_i →
  lookup_column tb_j (column rref) = Some cid_j →
  ∃ g', setup_join_cond table_list c g = Ok (inr g')
    ∧ (is_Some (get_index tb_i (Some cid_i)) →
       mat_get (E g') i j = Ok 1%Z ∧ mat_get (J g') i j = Ok (Some c))
    ∧ (is_Some (get_index tb_j (Some cid_j)) →
       mat_get (E g') j i = Ok 1%Z ∧ mat_get (J g') j i = Ok (Some c))
    ∧ (∀ a b, ¬ ((a, b) = (i, j) ∧ is_Some (get_index tb_i (Some cid_i))) →
              ¬ ((a, b) = (j, i) ∧ is_Some (get_index tb_j (Some cid_j))) →
              mat_get (E g') a b = mat_get (E g) a b
              ∧ mat_get (J g') a b = mat_get (J g) a b)
    ∧ (get_index tb_i (Some cid_i) = None → get_index tb_j (Some cid_j) = None → g' = g).
Proof.
  intros HE HJ Hop Hl Htl Hlref Hr Htr Hrref Hi Htbi Hj Htbj Hci Hcj.
  assert (Hilt : i < length table_list) by (by eapply lookup_lt_Some).
  assert (Hjlt : j < length table_list) by (by eapply lookup_lt_Some).
  unfold setup_join_cond, is_equality_of_columns, both_column_refs.
  rewrite Hop, Hl, Hr. obind. rewrite Htl, Htr. obind.
  rewrite Hlref, Hrref. obind. rewrite Hi, Hj.
  unfold vec_get. rewrite Htbi, Htbj. obind. rewrite Hci, Hcj.
  destruct (get_index tb_j (Some cid_j)) as [idx2|] eqn:Hidx2;
    destruct (get_index tb_i (Some cid_i)) as [idx1|] eqn:Hidx1.
  - destruct (add_edge_spec _ g j i c HE HJ Hjlt Hilt)
      as (g1 & Hg1 & HE1 & HJ1 & He1 & Hj1 & Hf1).
    destruct (add_edge_spec _ g1 i j c HE1 HJ1 Hilt Hjlt)
      as (g2 & Hg2 & HE2 & HJ2 & He2 & Hj2 & Hf2).
    exists g2. rewrite Hg1. obind. rewrite Hg2. obind.
    split; [done|]. split; [done|]. split; [|split].
    + intros _. destruct (decide ((j, i) = (i, j))) as [Heq|Hne].
      * injection Heq as -> _. done.
      * destruct (Hf2 j i Hne) as [-> ->]. done.
    + intros a b Hn1 Hn2.
      assert ((a, b) ≠ (i, j)) by (intros ?; apply Hn1; eauto).
      assert ((a, b) ≠ (j, i)) by (intros ?; apply Hn2; eauto).
      destruct (Hf2 a b) as [-> ->]; [done|]. by apply Hf1.
    + discriminate.
  - destruct (add_edge_spec _ g j i c HE HJ Hjlt Hilt)
      as (g1 & Hg1 & HE1 & HJ1 & He1 & Hj1 & Hf1).
    exists g1. rewrite Hg1. obind.
    split; [done|]. split; [by intros [? [=]]|]. split; [done|]. split.
    + intros a b _ Hn2. apply Hf1. intros ?. apply Hn2. eauto.
    + discriminate.
  - destruct (add_edge_spec _ g i j c HE HJ Hilt Hjlt)
      as (g1 & Hg1 & HE1 & HJ1 & He1 & Hj1 & Hf1).
    exists g1. obind. rewrite Hg1. obind.
    split; [done|]. split; [done|]. split; [by intros [? [=]]|]. split.
    + intros a b Hn1 _. apply Hf1. intros ?. apply Hn1. eauto.
    + discriminate.
  - exists g. obind. split; [done|].
    split; [by intros [? [=]]|]. split; [by intros [? [=]]|]. done.
Qed.

Lemma join_edge_leaves_indexed_table_witness :
  ∃ g', setup_join_cond [edge_T0; edge_T1] edge_cond (empty_graph 2) = Ok (inr g')
    ∧ mat_get (E g') 0 1 = Ok 1%Z ∧ mat_get (J g') 0 1 = Ok (Some edge_cond).
Proof.
  destruct (join_edge_leaves_indexed_table [edge_T0; edge_T1] edge_cond
              (col "T0" "a") (col "T1" "b") (ColumnRef "T0" "a") (ColumnRef "T1" "b")
              0 1 0 0 edge_T0 edge_T1 (empty_graph 2))
    as (g' & Hg' & Hi & _);
    try reflexivity; try apply square_replicate.
  exists g'. split; [exact Hg'|]. apply Hi. vm_compute. eauto.
Defined.

(** ** Aggregates *)

(** C6, on [SELECT MAX(x) FROM T] with the single [float] value -1.  The
    MAX accumulator starts at [std::numeric_limits<float>::min()], the
    least positive normal [float], not at the lowest one; no value below it
    replaces it, and the statement prints 2^-126 where the maximum is -1. *)
Theorem float_max_starts_at_least_positive :
  acc_f (aggregate_init OPERATOR_MAX) = FLT_MIN
  ∧ (0 < FLT_MIN)%Q
  ∧ passing_values (H:=sample_evaluator [neg_T]) neg_T None (col "T" "x") ∅ neg_rows
    = Some [float_value (inject_Z (-1))]
  ∧ output_file <$>
      (match select_rows (H:=sample_evaluator [neg_T]) 0 (Some (Database [neg_T]))
               (SelectInfo ["T"] [max_x] None) (empty_world ()) with
       | Ok w => Some w
       | Fault _ => None
       end)
    = Some [OutText "expr"; OutEndl; OutFloat FLT_MIN; OutEndl; OutEndl].
Proof. repeat split; vm_compute; reflexivity. Qed.

Lemma accumulate_type `{Evaluator} (o : operator_type_t) (v : expression)
  (st : aggregate_state) :
  agg_type (count_row (accumulate o v st)) = type v.
Proof.
  unfold accumulate, count_row.
  destruct (decide (type v = TERM_FLOAT)); destruct o; simpl;
    repeat (case_match; simpl); done.
Qed.

Lemma aggregate_fold_type `{Evaluator} (o : operator_type_t) (vals : list expression)
  (v : expression) (st : aggregate_state) :
  last vals = Some v →
  agg_type (foldl (λ st v, count_row (accumulate o v st)) st vals) = type v.
Proof.
  revert st. induction vals as [|x vals IH]; intros st Hlast; [discriminate|].
  destruct vals as [|y vals].
  - injection Hlast as ->. simpl. apply accumulate_type.
  - simpl in *. by apply IH.
Qed.

Lemma aggregate_callback_value `{Evaluator} (expr inner : expr_node_t)
  (tables : list table_manager) (records : list (option record_manager))
  (rids : list Z) (w : world aggregate_state) (v : expression) :
  op expr ≠ OPERATOR_COUNT → e_left expr = Some inner →
  eval (row_cache w) inner = inr v →
  aggregate_callback expr tables records rids w
  = Ok (set_locals (count_row (accumulate (op expr) v (locals w))) w, true).
Proof.
  intros Hop Hinner Hv. unfold aggregate_callback.
  destruct (decide (op expr ≠ OPERATOR_COUNT)); [|done].
  rewrite Hinner. obind. by rewrite Hv.
Qed.

(** The single-table loop with the aggregate callback folds the callback
    over the values of the passing records. *)
Lemma aggregate_loop_values `{Evaluator} (tb : table_manager) (tables : list table_manager)
  (cond : option expr_node_t) (expr inner : expr_node_t)
  (c0 : gmap string record_manager) (bit : list record_manager)
  (w : world aggregate_state) (vals : list expression) :
  op expr ≠ OPERATOR_COUNT → e_left expr = Some inner →
  (∀ rm, <[table_name tb := rm]> (row_cache w) = <[table_name tb := rm]> c0) →
  passing_values tb cond inner c0 bit = Some vals →
  ∃ w', iterate_one_table_loop tb cond
          (λ _ rm rid, aggregate_callback expr tables [Some rm] [rid]) bit w = Ok w'
    ∧ locals w' = foldl (λ st v, count_row (accumulate (op expr) v st)) (locals w) vals
    ∧ console w' = console w ∧ output_file w' = output_file w.
Proof.
  intros Hop Hinner. revert w vals.
  induction bit as [|rm bit IH]; intros w vals Hcache Hvals.
  - injection Hvals as <-. by exists w.
  - cbn [iterate_one_table_loop passing_values] in *.
    unfold eval_cond. cbn [cache_record row_cache]. rewrite (Hcache rm).
    destruct (match cond with
              | Some p => eval_bool (<[table_name tb:=rm]> c0) p
              | None => inr true
              end) as [msg|[|]] eqn:Hpass; [discriminate| |].
    + destruct (eval (<[table_name tb:=rm]> c0) inner) as [msg|v] eqn:Hv; [discriminate|].
      destruct (passing_values tb cond inner c0 bit) as [vals'|] eqn:Hrest; [|discriminate].
      injection Hvals as <-.
      rewrite (aggregate_callback_value expr inner _ _ _ _ v Hop Hinner)
        by (cbn [cache_record row_cache]; by rewrite (Hcache rm)).
      obind.
      edestruct (IH (set_locals
                       (count_row (accumulate (op expr) v (locals w)))
                       (cache_record tb rm w)) vals') as (w' & Hw' & Hl & Hc & Ho).
      * intros rm'. cbn [set_locals cache_record row_cache].
        rewrite insert_insert_eq. apply Hcache.
      * done.
      * exists w'. split; [exact Hw'|]. split; [|done]. rewrite Hl. done.
    + edestruct (IH (cache_record tb rm w) vals) as (w' & Hw' & Hl & Hc & Ho).
      * intros rm'. cbn [cache_record row_cache].
        rewrite insert_insert_eq. apply Hcache.
      * done.
      * exists w'. done.
Qed.




(** ** INSERT *)

(** The loop over the expressions of a tuple of the right arity ends
    without a fault, and for a reason.  A [return] comes at a position [i]
    whose expression throws, or whose value is incompatible with the type
    of the column at that position, after the values before it were
    written.  A failure comes at a position whose value is compatible and
    whose write into the temp record fails.  Otherwise every value was
    written. *)
Lemma set_values_reasons `{Evaluator} `{Store} (it : list nat)
  (expr_list : list expr_node_t) (tb : table_manager) (w : world ()) :
  length expr_list = length it →
  ∃ tb1 r, set_values it expr_list tb w = Ok (tb1, r)
    ∧ match r with
      | inl msg =>
        ∃ i e cid,
          expr_list !! i = Some e ∧ it !! i = Some cid
          ∧ set_values (take i it) (take i expr_list) tb w = Ok (tb1, inr true)
          ∧ (eval (row_cache w) e = inl msg
             ∨ ∃ v, eval (row_cache w) e = inr v
                 ∧ type_compatible (get_column_type tb1 cid) v = false
                 ∧ msg = "[Error] incompatible type.")
      | inr false =>
        ∃ i e cid tbi v,
          expr_list !! i = Some e ∧ it !! i = Some cid
          ∧ set_values (take i it) (take i expr_list) tb w = Ok (tbi, inr true)
          ∧ eval (row_cache w) e = inr v
          ∧ type_compatible (get_column_type tbi cid) v = true
          ∧ set_temp_record tbi cid
              (expr_to_db v (column_to_term (get_column_type tbi cid)))
            = (tb1, false)
      | inr true => True
      end.
Proof.
  revert it tb. induction expr_list as [|e expr_list IH]; intros it tb Hlen.
  - exists tb, (inr true). split; [reflexivity|exact I].
  - destruct it as [|cid it]; [discriminate|]. injection Hlen as Hlen.
    cbn [set_values].
    destruct (eval (row_cache w) e) as [msg|v] eqn:He.
    { exists tb, (inl msg). split; [done|]. exists 0, e, cid.
      split; [done|]. split; [done|]. split; [done|]. by left. }
    destruct (type_compatible (get_column_type tb cid) v) eqn:Hcompat.
    2:{ exists tb, (inl "[Error] incompatible type."). split; [done|].
        exists 0, e, cid. split; [done|]. split; [done|]. split; [done|].
        right. by exists v. }
    destruct (set_temp_record tb cid
                (expr_to_db v (column_to_term (get_column_type tb cid))))
      as [tb' [|]] eqn:Hset.
    2:{ exists tb', (inr false). split; [done|]. exists 0, e, cid, tb, v. done. }
    destruct (IH it tb' Hlen) as (tb1 & r & Hr & Hwhy).
    exists tb1, r. split; [done|].
    assert (Hstep : ∀ i tbi,
              set_values (take i it) (take i expr_list) tb' w = Ok (tbi, inr true) →
              set_values (take (S i) (cid :: it)) (take (S i) (e :: expr_list)) tb w
              = Ok (tbi, inr true)).
    { intros i tbi Hi. cbn [take set_values]. by rewrite He, Hcompat, Hset. }
    destruct r as [msg|[|]]; [|done|].
    + destruct Hwhy as (i & e' & cid' & He' & Hcid' & Hpre & Hcause).
      exists (S i), e', cid'. split; [done|]. split; [done|]. split; [by apply Hstep|done].
    + destruct Hwhy as (i & e' & cid' & tbi & v' & He' & Hcid' & Hpre & Hv' & Hc' & Hset').
      exists (S i), e', cid', tbi, v'. split; [done|]. split; [done|].
      split; [by apply Hstep|done].
Qed.

(** What the writes into the temp record preserve, the loop over the
    expressions of a tuple preserves. *)
Lemma set_values_keeps `{Evaluator} `{Store} (P : table_manager → Prop) (it : list nat)
  (expr_list : list expr_node_t) (tb tb1 : table_manager) (w : world ())
  (r : string + bool) :
  (∀ t cid v, P t → P (set_temp_record t cid v).1) →
  set_values it expr_list tb w = Ok (tb1, r) → P tb → P tb1.
Proof.
  intros Hset. revert it tb. induction expr_list as [|e expr_list IH]; intros it tb Hr HP.
  - cbn [set_values] in Hr. by injection Hr as <- _.
  - cbn [set_values] in Hr.
    destruct (eval (row_cache w) e) as [msg|v]; [by injection Hr as <- _|].
    destruct it as [|cid it]; [done|].
    destruct (type_compatible (get_column_type tb cid) v); [|by injection Hr as <- _].
    pose proof (Hset tb cid (expr_to_db v (column_to_term (get_column_type tb cid))) HP)
      as HP'.
    destruct (set_temp_record tb cid
                (expr_to_db v (column_to_term (get_column_type tb cid)))) as [tb' [|]].
    + by apply (IH it tb').
    + by injection Hr as <- _.
Qed.

(** The tuples behind a list of tuples that did not end the statement are
    processed from the table, the world and the counts it left. *)
Lemma insert_tuples_app `{Evaluator} `{Store} (cols_id : list nat)
  (pre rest : list (list expr_node_t)) (tb tb' : table_manager) (w w' : world ())
  (count_succ count_fail cs cf : Z) :
  insert_tuples cols_id pre tb w count_succ count_fail = Ok (tb', w', Some (cs, cf)) →
  insert_tuples cols_id (pre ++ rest) tb w count_succ count_fail
  = insert_tuples cols_id rest tb' w' cs cf.
Proof.
  revert tb w count_succ count_fail.
  induction pre as [|t pre IH]; intros tb w count_succ count_fail Hpre.
  - cbn [insert_tuples] in Hpre. by injection Hpre as <- <- <- <-.
  - cbn [app insert_tuples] in Hpre |- *.
    destruct (insert_tuple cols_id t tb w) as [[[tb1 w1] e]|f]; [|done].
    revert Hpre. obind. destruct e; intros Hpre; [by apply IH|by apply IH|done].
Qed.

(** C7, the claim as stated, refuted: a tuple of the wrong arity is skipped
    without being counted, and the summary reports no failure. *)
Lemma insert_does_not_count_arity_mismatch :
  insert_rows (H:=sample_evaluator [ins_T]) (H0:=sample_store)
    (Some (Database [ins_T])) ins_wrong_arity (empty_world ())
  = Ok (Some ins_T,
        World ∅ ["[Error] column size not equal.";
                 "[Info] 0 row(s) inserted, 0 row(s) failed."] [] ()).
Proof. vm_compute. reflexivity. Qed.

(** C7, amended.  For every INSERT each value tuple ends in one of four
    ways.  A tuple of the wrong arity gets a diagnostic, is counted neither
    as a success nor as a failure, and processing continues.  A tuple with
    an expression that fails to evaluate, or with a value incompatible
    with the type of the column at its own position, ends the whole
    statement after the diagnostic, once the values before it were written
    into the temp record: no later tuple is processed, no summary is
    printed, and the table is left with what the earlier tuples inserted
    (whatever the temp-record operations preserve still holds of it).  A
    tuple whose write into the temp record fails, for a value compatible
    with its column, or whose commit fails, is counted as a failure and
    processing continues.  A tuple that commits is counted as a success.
    The tuples behind tuples that did not end the statement are processed
    from the table and the counts those left, and when the statement is
    not ended early the summary reports the two counts. *)
Theorem insert_tuple_ends_one_of_four_ways `{Evaluator} `{Store} (cols_id : list nat)
  (expr_list : list expr_node_t) (values' : list (list expr_node_t))
  (tb : table_manager) (w : world ()) (count_succ count_fail : Z) :
  ((length expr_list ≠ length cols_id
    ∧ insert_tuples cols_id (expr_list :: values') tb w count_succ count_fail
      = insert_tuples cols_id values' (init_temp_record tb)
          (puts "[Error] column size not equal." w) count_succ count_fail)
   ∨ (∃ i e cid tbi msg,
        length expr_list = length cols_id
        ∧ expr_list !! i = Some e ∧ cols_id !! i = Some cid
        ∧ set_values (take i cols_id) (take i expr_list) (init_temp_record tb) w
          = Ok (tbi, inr true)
        ∧ (eval (row_cache w) e = inl msg
           ∨ ∃ v, eval (row_cache w) e = inr v
               ∧ type_compatible (get_column_type tbi cid) v = false
               ∧ msg = "[Error] incompatible type.")
        ∧ insert_tuples cols_id (expr_list :: values') tb w count_succ count_fail
          = Ok (tbi, puts msg w, None)
        ∧ ∀ P : table_manager → Prop,
            (∀ t, P t → P (init_temp_record t)) →
            (∀ t c v, P t → P (set_temp_record t c v).1) →
            P tb → P tbi)
   ∨ (∃ tb1,
        length expr_list = length cols_id
        ∧ ((∃ i e cid tbi v,
              expr_list !! i = Some e ∧ cols_id !! i = Some cid
              ∧ set_values (take i cols_id) (take i expr_list) (init_temp_record tb) w
                = Ok (tbi, inr true)
              ∧ eval (row_cache w) e = inr v
              ∧ type_compatible (get_column_type tbi cid) v = true
              ∧ set_temp_record tbi cid
                  (expr_to_db v (column_to_term (get_column_type tbi cid)))
                = (tb1, false))
           ∨ ∃ tbn new_rid,
               set_values cols_id expr_list (init_temp_record tb) w = Ok (tbn, inr true)
               ∧ insert_record tbn = (tb1, new_rid) ∧ (new_rid <= 0)%Z)
        ∧ insert_tuples cols_id (expr_list :: values') tb w count_succ count_fail
          = insert_tuples cols_id values' tb1 w count_succ (count_fail + 1))
   ∨ (∃ tbn tb1 new_rid,
        length expr_list = length cols_id
        ∧ set_values cols_id expr_list (init_temp_record tb) w = Ok (tbn, inr true)
        ∧ insert_record tbn = (tb1, new_rid) ∧ (new_rid > 0)%Z
        ∧ insert_tuples cols_id (expr_list :: values') tb w count_succ count_fail
          = insert_tuples cols_id values' tb1 w (count_succ + 1) count_fail))
  ∧ (∀ pre rest tb' w' cs cf,
       insert_tuples cols_id pre tb w count_succ count_fail = Ok (tb', w', Some (cs, cf)) →
       insert_tuples cols_id (pre ++ rest) tb w count_succ count_fail
       = insert_tuples cols_id rest tb' w' cs cf)
  ∧ ∀ info, insert_columns tb (columns info) = inr cols_id →
      match insert_tuples cols_id (values info) tb w 0 0 with
      | Ok (tb', w', Some (succ, fail)) =>
        insert_rows_into tb info w = Ok (tb', puts (inserted_message succ fail) w')
      | Ok (tb', w', None) => insert_rows_into tb info w = Ok (tb', w')
      | Fault f => insert_rows_into tb info w = Fault f
      end.
Proof.
  split; [|split].
  - cbn [insert_tuples]. unfold insert_tuple.
    destruct (decide (length expr_list ≠ length cols_id)) as [Hne|Heq].
    { left. done. }
    right. apply dec_stable in Heq.
    destruct (set_values_reasons cols_id expr_list (init_temp_record tb) w Heq)
      as (tb1 & r & Hr & Hwhy).
    rewrite Hr. obind.
    destruct r as [msg|[|]].
    + left. destruct Hwhy as (i & e & cid & He & Hcid & Hpre & Hcause).
      exists i, e, cid, tb1, msg.
      split; [done|]. split; [done|]. split; [done|]. split; [done|].
      split; [done|]. split; [reflexivity|].
      intros P Hinit Hset HP.
      apply (set_values_keeps P cols_id expr_list (init_temp_record tb) tb1 w (inl msg));
        [done|done|by apply Hinit].
    + right. destruct (insert_record tb1) as [tb2 new_rid] eqn:Hins. obind.
      destruct (decide (new_rid > 0)%Z) as [Hpos|Hneg].
      * right. exists tb1, tb2, new_rid.
        rewrite bool_decide_eq_true_2 by done. cbn [Z.b2z].
        split; [done|]. split; [done|]. split; [done|]. split; [lia|].
        f_equal; lia.
      * left. exists tb2. split; [done|]. split.
        { right. exists tb1, new_rid. split; [done|]. split; [done|lia]. }
        rewrite bool_decide_eq_false_2 by done. cbn [Z.b2z]. f_equal; lia.
    + right. left.
      destruct Hwhy as (i & e & cid & tbi & v & He & Hcid & Hpre & Hv & Hc & Hset).
      exists tb1. split; [done|]. split.
      { left. exists i, e, cid, tbi, v. done. }
      obind. cbn [Z.b2z]. f_equal; lia.
  - intros pre rest tb' w' cs cf. apply insert_tuples_app.
  - intros info Hcols. unfold insert_rows_into. rewrite Hcols.
    destruct (insert_tuples cols_id (values info) tb w 0 0) as [[[tb' w'] [[s f]|]]|f];
      done.
Qed.

(** ** The planner: [find_longest_path] *)

Lemma free_le_length (mark : list Z) : free mark ≤ length mark.
Proof. induction mark as [|m mark IH]; simpl; [lia|]. case_decide; lia. Qed.

Lemma free_replicate (n : nat) : free (replicate n 0%Z) = n.
Proof. induction n as [|n IH]; simpl; [done|]. by rewrite IH. Qed.

Lemma free_mark (mark : list Z) (v : nat) :
  mark !! v = Some 0%Z → free mark = S (free (<[v:=1%Z]> mark)).
Proof.
  revert v. induction mark as [|m mark IH]; intros v Hv; [done|].
  destruct v as [|v]; simpl in *.
  - injection Hv as ->. done.
  - rewrite (IH v Hv). case_decide; lia.
Qed.

Lemma free_pos (mark : list Z) (v : nat) : mark !! v = Some 0%Z → 0 < free mark.
Proof. intros Hv. rewrite (free_mark mark v Hv). lia. Qed.

Lemma set_marks_length (l : list nat) (mark : list Z) :
  length (set_marks l mark) = length mark.
Proof.
  induction l as [|v l IH]; simpl; [done|]. by rewrite length_insert.
Qed.

Lemma set_marks_lookup_notin (l : list nat) (mark : list Z) (v : nat) :
  v ∉ l → set_marks l mark !! v = mark !! v.
Proof.
  induction l as [|x l IH]; simpl; [done|]. intros Hv.
  apply not_elem_of_cons in Hv as [Hne Hv].
  rewrite list_lookup_insert_ne by done. by apply IH.
Qed.

Lemma set_marks_lookup_in (l : list nat) (mark : list Z) (v : nat) :
  v ∈ l → v < length mark → set_marks l mark !! v = Some 1%Z.
Proof.
  induction l as [|x l IH]; simpl; intros Hv Hlt; [by apply elem_of_nil in Hv|].
  destruct (decide (x = v)) as [->|Hne].
  - apply list_lookup_insert_eq. by rewrite set_marks_length.
  - rewrite list_lookup_insert_ne by done. apply IH; [|done].
    apply elem_of_cons in Hv as [->|Hv]; done.
Qed.

(** Marking [now] before or after the vertices of [l] is the same. *)
Lemma set_marks_cons_first (now : nat) (l : list nat) (mark : list Z) :
  set_marks l (<[now:=1%Z]> mark) = set_marks (now :: l) mark.
Proof.
  simpl. induction l as [|v l IH]; simpl; [done|].
  rewrite IH. destruct (decide (v = now)) as [->|Hne].
  - by rewrite list_insert_insert_eq.
  - by apply list_insert_insert_ne.
Qed.

Lemma chain_cons (E : list (list Z)) (p q : nat) (l : list nat) :
  edge E p q → head l = Some q → chain E l → chain E (p :: l).
Proof. destruct l as [|x l]; simpl; [done|]. intros Hpq [= ->] Hl. done. Qed.

(** A list without repetition of numbers below [n] has at most [n]
    elements. *)
Lemma NoDup_below_length (n : nat) (l : list nat) :
  NoDup l → Forall (λ v, v < n) l → length l ≤ n.
Proof.
  intros Hnd Hall.
  assert (Hsub : l ⊆+ seq 0 n).
  { apply NoDup_submseteq; [done|].
    intros v Hv. apply elem_of_seq. rewrite Forall_forall in Hall.
    specialize (Hall v Hv). lia. }
  apply submseteq_length in Hsub. by rewrite length_seq in Hsub.
Qed.

(** The loop over the neighbours of [now], once [now] is marked and stored
    at [depth]. *)
Lemma try_neighbours_post (n : nat) (E : list (list Z)) (excepted_len : Z)
  (now depth fuel : nat) (visit : nat → search_state → outcome (bool * search_state))
  (candidates : list nat) (st : search_state) :
  square n E → visit_ok n E excepted_len (S depth) fuel visit →
  now < n → Forall (λ i, i < n) candidates →
  search_wf n st → free (s_mark st) ≤ fuel → S depth + free (s_mark st) ≤ n →
  (Z.of_nat (S depth) ≤ excepted_len)%Z →
  ∃ r, try_neighbours visit E now candidates st = Ok r
    ∧ search_wf n r.2
    ∧ (∀ k, k < S depth → s_path r.2 !! k = s_path st !! k)
    ∧ (s_max_depth st ≤ s_max_depth r.2)%Z
    ∧ (if r.1 then ∃ i, edge E now i ∧ found_chain n E excepted_len i (S depth) st r.2
       else s_mark r.2 = s_mark st).
Proof.
  intros HE Hvisit Hnow. revert st.
  induction candidates as [|i candidates IH]; intros st Hcand Hwf Hfuel Hroom Hlen.
  - exists (false, st). simpl.
    split; [done|]. split; [done|]. split; [done|]. split; [lia|done].
  - apply Forall_cons in Hcand as [Hi Hcand]. cbn [try_neighbours].
    destruct (mat_get_lt n E now i HE Hnow Hi) as [e He]. rewrite He. obind.
    destruct (decide (e = 0%Z)) as [He0|He0]; [by apply IH|].
    destruct (vec_get_lt (s_mark st) i) as (m & Hm & Hmi); [destruct Hwf; lia|].
    rewrite Hm. obind.
    destruct (decide (m ≠ 0%Z)) as [Hm0|Hm0]; [by apply IH|].
    apply dec_stable in Hm0. subst m.
    destruct (Hvisit i st Hwf Hi Hmi Hfuel Hroom Hlen)
      as ([b st1] & Hr & (Hwf1 & Hpre1 & Hmd1 & Hres1) & _).
    rewrite Hr. obind. simpl in *. destruct b.
    + exists (true, st1). simpl.
      split; [done|]. split; [done|]. split; [done|]. split; [done|].
      exists i. split; [|done]. exists e. done.
    + destruct (IH st1) as (r & Hr2 & Hwf2 & Hpre2 & Hmd2 & Hres2);
        [done|done|by rewrite Hres1|by rewrite Hres1|done|].
      exists r. split; [done|]. split; [done|]. split; [|split].
      * intros k Hk. rewrite Hpre2 by done. by apply Hpre1.
      * lia.
      * destruct r as [[|] st2]; simpl in *.
        -- destruct Hres2 as (j & Hj & l & Hhd & Hl & Hch & Hnd & Hall & Hpath & Hmarks).
           exists j. split; [done|]. exists l.
           rewrite Hres1 in Hall, Hmarks. done.
        -- by rewrite Hres2.
Qed.

(** [find_longest_path] returns whenever it is called on an unmarked
    vertex with fuel for the unmarked vertices and room in [path]; a false
    result restores the marks, a true result leaves a chain that ends at
    [excepted_len]. *)
Lemma find_longest_path_post (n : nat) (E : list (list Z)) (excepted_len : Z)
  (fuel depth : nat) :
  square n E →
  visit_ok n E excepted_len depth fuel
    (λ i st, find_longest_path fuel i depth E excepted_len st).
Proof.
  intros HE. revert depth.
  induction fuel as [|fuel IH]; intros depth now st Hwf Hnow Hmark Hfuel Hroom Hlen.
  - pose proof (free_pos _ _ Hmark). lia.
  - pose proof (free_pos _ _ Hmark) as Hpos.
    pose proof (free_mark _ _ Hmark) as Hfree.
    destruct Hwf as [Hlm Hlp].
    cbn [find_longest_path].
    rewrite vec_set_lt by lia. obind. rewrite vec_set_lt by lia. obind.
    set (md := if bool_decide (Z.of_nat depth > s_max_depth st)%Z
               then Z.of_nat depth else s_max_depth st).
    assert (Hmd : (s_max_depth st ≤ md ∧ Z.of_nat depth ≤ md)%Z).
    { unfold md. case_bool_decide; lia. }
    clearbody md.
    set (st1 := SearchState (<[now:=1%Z]> (s_mark st)) (<[depth:=now]> (s_path st)) md).
    assert (Hwf1 : search_wf n st1).
    { split; simpl; by rewrite length_insert. }
    assert (Hpre1 : ∀ k, k < depth → s_path st1 !! k = s_path st !! k).
    { intros k Hk. simpl. apply list_lookup_insert_ne. lia. }
    case_bool_decide as Hend.
    + exists (true, st1). split; [done|]. split; [|simpl; lia].
      split; [done|]. split; [done|]. split; [simpl; lia|]. simpl.
      exists [now]. simpl. repeat split; try done; try lia.
      * apply NoDup_singleton.
      * by apply Forall_singleton.
      * intros k v Hk. destruct k; simpl in Hk; [|done]. injection Hk as <-.
        rewrite Nat.add_0_r. apply list_lookup_insert_eq. lia.
    + destruct (try_neighbours_post n E excepted_len now depth fuel
                  (λ i st, find_longest_path fuel i (S depth) E excepted_len st)
                  (seq 0 (length E)) st1)
        as ([b st2] & Hr & Hwf2 & Hpre2 & Hmd2 & Hres2); try done.
      * apply Forall_forall. intros i Hi. apply elem_of_seq in Hi.
        destruct HE. lia.
      * simpl. lia.
      * simpl. lia.
      * lia.
      * rewrite Hr. obind. subst st1. simpl in *. destruct b.
        -- exists (true, st2). split; [done|]. split; [|simpl; lia].
           split; [done|]. split; [|split; [simpl; lia|]].
           { intros k Hk. simpl. rewrite Hpre2 by lia. apply Hpre1. done. }
           simpl.
           destruct Hres2 as (j & Hj & l & Hhd & Hl & Hch & Hnd & Hall & Hpath & Hmarks).
           simpl in Hall, Hmarks.
           exists (now :: l). simpl. split; [done|]. split; [lia|].
           split; [by eapply chain_cons|]. split; [|split; [|split]].
           ++ apply NoDup_cons. split; [|done]. intros Hin.
              rewrite Forall_forall in Hall. destruct (Hall now Hin) as [_ Hm].
              simpl in Hm. rewrite list_lookup_insert_eq in Hm by lia. done.
           ++ apply Forall_cons. split; [done|].
              eapply Forall_impl; [exact Hall|]. simpl. intros v [Hv Hm].
              split; [done|]. destruct (decide (v = now)) as [->|Hne].
              ** rewrite list_lookup_insert_eq in Hm by lia. done.
              ** by rewrite list_lookup_insert_ne in Hm.
           ++ intros k v Hk. destruct k as [|k]; simpl in Hk.
              ** injection Hk as <-. rewrite Nat.add_0_r, Hpre2 by lia.
                 simpl. apply list_lookup_insert_eq. lia.
              ** replace (depth + S k) with (S depth + k) by lia. by apply Hpath.
           ++ rewrite Hmarks. apply set_marks_cons_first.
        -- destruct Hwf2 as [Hlm2 Hlp2].
           rewrite vec_set_lt by lia. obind.
           eexists (false, _). split; [done|]. split; [|simpl; lia].
           split; [split; simpl; [by rewrite length_insert|done]|].
           split; [|split; [simpl; lia|]]; simpl.
           { intros k Hk. rewrite Hpre2 by lia. apply Hpre1. done. }
           rewrite Hres2. rewrite list_insert_insert_eq.
           by apply list_insert_id.
Qed.

Lemma unmarked_length_le_free (l : list nat) (mark : list Z) :
  NoDup l → Forall (λ v, mark !! v = Some 0%Z) l → length l ≤ free mark.
Proof.
  revert mark. induction l as [|v l IH]; intros mark Hnd Hall; simpl; [lia|].
  apply NoDup_cons in Hnd as [Hv Hnd]. apply Forall_cons in Hall as [Hm Hall].
  rewrite (free_mark mark v Hm). apply le_n_S, IH; [done|].
  rewrite Forall_forall in *. intros x Hx.
  rewrite list_lookup_insert_ne; [by apply Hall|]. intros ->. done.
Qed.

(** A chain found at [depth] ends below the number of vertices. *)
Lemma found_chain_bound (n : nat) (E : list (list Z)) (excepted_len : Z)
  (now depth : nat) (st st' : search_state) :
  found_chain n E excepted_len now depth st st' →
  depth + free (s_mark st) ≤ n → (excepted_len + 1 ≤ Z.of_nat n)%Z.
Proof.
  intros (l & _ & Hl & _ & Hnd & Hall & _) Hroom.
  assert (length l ≤ free (s_mark st)); [|lia].
  apply unmarked_length_le_free; [done|].
  eapply Forall_impl; [exact Hall|]. by intros v [_ ?].
Qed.

(** The search to [INT_MAX] returns false. *)
Lemma find_longest_path_unbounded (n : nat) (E : list (list Z)) (bound : Z)
  (fuel now depth : nat) (st : search_state) :
  square n E → (Z.of_nat n ≤ bound)%Z →
  search_wf n st → now < n → s_mark st !! now = Some 0%Z →
  free (s_mark st) ≤ fuel → depth + free (s_mark st) ≤ n →
  ∃ st', find_longest_path fuel now depth E bound st = Ok (false, st')
    ∧ search_wf n st' ∧ s_mark st' = s_mark st
    ∧ (s_max_depth st ≤ s_max_depth st')%Z ∧ (Z.of_nat depth ≤ s_max_depth st')%Z.
Proof.
  intros HE Hbound Hwf Hnow Hmark Hfuel Hroom.
  pose proof (free_pos _ _ Hmark).
  destruct (find_longest_path_post n E bound fuel depth HE now st)
    as ([[|] st'] & Hr & (Hwf' & _ & Hmd & Hres) & Hd); try done; try lia.
  - simpl in Hres. pose proof (found_chain_bound _ _ _ _ _ _ _ Hres Hroom). lia.
  - exists st'. done.
Qed.

(** The loop of the search to [INT_MAX] returns false. *)
Lemma try_neighbours_unbounded (n : nat) (E : list (list Z)) (bound : Z)
  (now depth fuel : nat) (candidates : list nat) (st : search_state) :
  square n E → (Z.of_nat n ≤ bound)%Z →
  now < n → Forall (λ i, i < n) candidates →
  search_wf n st → free (s_mark st) ≤ fuel → S depth + free (s_mark st) ≤ n →
  ∃ st', try_neighbours (λ i st, find_longest_path fuel i (S depth) E bound st)
           E now candidates st = Ok (false, st')
    ∧ search_wf n st' ∧ s_mark st' = s_mark st
    ∧ (s_max_depth st ≤ s_max_depth st')%Z.
Proof.
  intros HE Hbound Hnow Hcand Hwf Hfuel Hroom.
  destruct (try_neighbours_post n E bound now depth fuel
              (λ i st, find_longest_path fuel i (S depth) E bound st) candidates st)
    as ([[|] st'] & Hr & Hwf' & _ & Hmd & Hres); try done.
  - by apply find_longest_path_post.
  - lia.
  - simpl in Hres. destruct Hres as (i & _ & Hch).
    pose proof (found_chain_bound _ _ _ _ _ _ _ Hch Hroom). lia.
  - exists st'. done.
Qed.

(** The loops of the two searches, in step. *)
Lemma try_neighbours_sim (n : nat) (E : list (list Z)) (bound excepted_len : Z)
  (now depth fuel : nat) (candidates : list nat) (stA stB : search_state) :
  square n E → (Z.of_nat n ≤ bound)%Z →
  visit_sim n excepted_len (S depth) fuel
    (λ i st, find_longest_path fuel i (S depth) E bound st)
    (λ i st, find_longest_path fuel i (S depth) E excepted_len st) →
  now < n → Forall (λ i, i < n) candidates →
  search_wf n stA → search_wf n stB → s_mark stA = s_mark stB →
  free (s_mark stA) ≤ fuel → S depth + free (s_mark stA) ≤ n →
  (Z.of_nat (S depth) ≤ excepted_len)%Z → (s_max_depth stA < excepted_len)%Z →
  ∃ stA' b stB',
    try_neighbours (λ i st, find_longest_path fuel i (S depth) E bound st)
      E now candidates stA = Ok (false, stA')
    ∧ try_neighbours (λ i st, find_longest_path fuel i (S depth) E excepted_len st)
        E now candidates stB = Ok (b, stB')
    ∧ search_wf n stA' ∧ search_wf n stB'
    ∧ if b : bool then (excepted_len ≤ s_max_depth stA')%Z
      else (s_max_depth stA' < excepted_len)%Z.
Proof.
  intros HE Hbound Hsim Hnow. revert stA stB.
  induction candidates as [|i candidates IH];
    intros stA stB Hcand HwfA HwfB Hmarks Hfuel Hroom Hlen Hmd.
  - exists stA, false, stB. done.
  - pose proof Hcand as Hcand0.
    apply Forall_cons in Hcand as [Hi Hcand]. cbn [try_neighbours].
    destruct (mat_get_lt n E now i HE Hnow Hi) as [e He]. rewrite He. obind.
    destruct (decide (e = 0%Z)) as [He0|He0]; [by apply IH|].
    destruct (vec_get_lt (s_mark stA) i) as (m & Hm & Hmi); [destruct HwfA; lia|].
    rewrite <- Hmarks, Hm. obind.
    destruct (decide (m ≠ 0%Z)) as [Hm0|Hm0]; [by apply IH|].
    apply dec_stable in Hm0. subst m.
    destruct (Hsim i stA stB) as (stA1 & b & stB1 & HA & HB & Hrel); try done.
    destruct (find_longest_path_unbounded n E bound fuel i (S depth) stA)
      as (stA1' & HA' & HwfA1 & HmA1 & HmdA1 & _); try done.
    rewrite HA in HA'. injection HA' as <-.
    destruct (find_longest_path_post n E excepted_len fuel (S depth) HE i stB)
      as ([b' stB1'] & HB' & (HwfB1 & _ & _ & HresB) & _); try done;
      try (rewrite <- Hmarks; done).
    rewrite HB in HB'. injection HB' as <- <-. simpl in HwfB1, HresB.
    rewrite HA, HB. obind. destruct b.
    + destruct (try_neighbours_unbounded n E bound now depth fuel candidates stA1)
        as (stA2 & HA2 & HwfA2 & _ & HmdA2); try done; try (rewrite HmA1; done).
      exists stA2, true, stB1. rewrite HA2. split; [done|]. split; [done|].
      split; [done|]. split; [done|]. lia.
    + apply IH; try done; try (rewrite HmA1; done). congruence.
Qed.

(** The two searches, in step. *)
Lemma find_longest_path_sim (n : nat) (E : list (list Z)) (bound excepted_len : Z)
  (fuel depth : nat) :
  square n E → (Z.of_nat n ≤ bound)%Z →
  visit_sim n excepted_len depth fuel
    (λ i st, find_longest_path fuel i depth E bound st)
    (λ i st, find_longest_path fuel i depth E excepted_len st).
Proof.
  intros HE Hbound. revert depth.
  induction fuel as [|fuel IH];
    intros depth now stA stB HwfA HwfB Hmarks Hnow Hmark Hfuel Hroom Hlen Hmd.
  - pose proof (free_pos _ _ Hmark). lia.
  - pose proof (free_pos _ _ Hmark) as Hpos.
    pose proof (free_mark _ _ Hmark) as Hfree.
    destruct (find_longest_path_unbounded n E bound (S fuel) now depth stA)
      as (stA' & HA & HwfA' & HmA' & HmdA' & HdA'); try done.
    exists stA'. rewrite HA.
    destruct HwfA as [HlmA HlpA]. destruct HwfB as [HlmB HlpB].
    cbn [find_longest_path] in HA |- *.
    rewrite vec_set_lt in HA by lia. rewrite vec_set_lt by lia. obind.
    rewrite vec_set_lt in HA by lia. rewrite vec_set_lt by lia.
    cbn [mbind outcome_bind] in HA. obind.
    rewrite (bool_decide_eq_false_2 (Z.of_nat depth = bound)) in HA by lia.
    destruct (bool_decide (Z.of_nat depth = excepted_len)) eqn:Hend.
    + apply bool_decide_eq_true in Hend.
      exists true. eexists. split; [done|]. split; [done|]. lia.
    + apply bool_decide_eq_false in Hend.
      set (mdA := if bool_decide (Z.of_nat depth > s_max_depth stA)%Z
                  then Z.of_nat depth else s_max_depth stA) in *.
      assert (HmdA : (mdA < excepted_len)%Z).
      { unfold mdA. case_bool_decide; lia. }
      clearbody mdA.
      set (mdB := if bool_decide (Z.of_nat depth > s_max_depth stB)%Z
                  then Z.of_nat depth else s_max_depth stB).
      clearbody mdB.
      destruct (try_neighbours_sim n E bound excepted_len now depth fuel
                  (seq 0 (length E))
                  (SearchState (<[now:=1%Z]> (s_mark stA)) (<[depth:=now]> (s_path stA)) mdA)
                  (SearchState (<[now:=1%Z]> (s_mark stB)) (<[depth:=now]> (s_path stB)) mdB))
        as (stA2 & b & stB2 & HA2 & HB2 & HwfA2 & HwfB2 & Hrel).
      { done. }
      { done. }
      { apply IH. }
      { done. }
      { apply Forall_forall. intros i Hi. apply elem_of_seq in Hi.
        destruct HE. lia. }
      { split; simpl; by rewrite length_insert. }
      { split; simpl; by rewrite length_insert. }
      { simpl. by rewrite Hmarks. }
      { simpl. lia. }
      { simpl. lia. }
      { lia. }
      { done. }
      rewrite HA2 in HA. rewrite HB2. obind. cbn [mbind outcome_bind] in HA.
      destruct HwfA2 as [HlmA2 _]. destruct HwfB2 as [HlmB2 _].
      rewrite vec_set_lt in HA by lia. cbn [mbind outcome_bind] in HA.
      injection HA as <-. simpl.
      destruct b.
      * exists true, stB2. done.
      * rewrite vec_set_lt by lia. obind.
        exists false. eexists. done.
Qed.

(** ** The planner: the iteration sequence *)

Lemma longest_path_starts_post (n : nat) (E : list (list Z)) (starts : list nat)
  (path : list nat) (max_depth : Z) (start : nat) :
  square n E → (Z.of_nat n ≤ INT_MAX)%Z →
  Forall (λ i, i < n) starts → length path = n → start < n →
  (0 ≤ max_depth)%Z → start_reaches n E start max_depth →
  ∃ path' max_depth' start',
    longest_path_starts E n starts path max_depth start = Ok (path', max_depth', start')
    ∧ length path' = n ∧ start' < n ∧ (0 ≤ max_depth')%Z
    ∧ start_reaches n E start' max_depth'.
Proof.
  intros HE Hbound. revert path max_depth start.
  induction starts as [|i starts IH]; intros path max_depth start Hall Hlen Hstart Hpos Hreach.
  - exists path, max_depth, start. done.
  - apply Forall_cons in Hall as [Hi Hall]. cbn [longest_path_starts].
    destruct (find_longest_path_unbounded n E INT_MAX (S n) i 0
                (SearchState (replicate n 0%Z) path 0))
      as (stA & HA & [HlmA HlpA] & _ & HmdA & _); try done.
    { split; simpl; [apply length_replicate|done]. }
    { simpl. by apply lookup_replicate_2. }
    { simpl. rewrite free_replicate. lia. }
    { simpl. rewrite free_replicate. lia. }
    rewrite HA. obind. simpl in HmdA.
    case_bool_decide as Hm.
    + apply IH; try done; try lia. right. exists path, stA. done.
    + by apply IH.
Qed.

Lemma foldl_marks_length (vs : list nat) (mark : list Z) :
  length (foldl (λ m v, <[v:=1%Z]> m) mark vs) = length mark.
Proof.
  revert mark. induction vs as [|v vs IH]; intros mark; simpl; [done|].
  by rewrite IH, length_insert.
Qed.

Lemma foldl_marks_lookup (vs : list nat) (mark : list Z) (v : nat) :
  v < length mark →
  foldl (λ m v, <[v:=1%Z]> m) mark vs !! v
  = if decide (v ∈ vs) then Some 1%Z else mark !! v.
Proof.
  revert mark. induction vs as [|x vs IH]; intros mark Hv.
  - destruct (decide (v ∈ [])) as [Hin|_]; [|done]. by apply elem_of_nil in Hin.
  - cbn [foldl]. rewrite IH by (by rewrite length_insert).
    destruct (decide (v ∈ vs)) as [Hin|Hnin];
      destruct (decide (v ∈ x :: vs)) as [Hin'|Hnin']; try done.
    + exfalso. apply Hnin'. by right.
    + apply elem_of_cons in Hin' as [->|Hin']; [|done].
      by apply list_lookup_insert_eq.
    + apply list_lookup_insert_ne. intros ->. apply Hnin'. left.
Qed.

Lemma mark_path_values (path : list nat) (positions vs : list nat) (mark : list Z) :
  Forall2 (λ i v, path !! i = Some v) positions vs →
  Forall (λ v, v < length mark) vs →
  mark_path path positions mark = Ok (foldl (λ m v, <[v:=1%Z]> m) mark vs).
Proof.
  intros Hpos. revert mark.
  induction Hpos as [|i v positions vs Hi Hpos IH]; intros mark Hvs; [done|].
  apply Forall_cons in Hvs as [Hv Hvs]. cbn [mark_path]. unfold vec_get.
  rewrite Hi. obind. rewrite vec_set_lt by done. obind.
  apply IH. eapply Forall_impl; [exact Hvs|]. intros x Hx. by rewrite length_insert.
Qed.

Lemma path_holds_positions (path l : list nat) :
  path_holds path 0 l →
  Forall2 (λ i v, path !! i = Some v) (seq 0 (length l)) l.
Proof.
  intros Hpath. apply Forall2_same_length_lookup. split; [by rewrite length_seq|].
  intros k i v Hi Hv. apply lookup_seq in Hi as [-> _]. by apply Hpath.
Qed.

(** The loop that appends the unmarked vertices writes them after
    position [cur], in the order of [vertices]. *)
Lemma append_unmarked_post (mark : list Z) (vertices : list nat) (cur : nat)
  (path : list nat) :
  Forall (λ i, i < length mark) vertices →
  S cur + length (filter (λ i, mark !! i = Some 0%Z) vertices) ≤ length path →
  ∃ path', append_unmarked mark vertices cur path = Ok path'
    ∧ length path' = length path
    ∧ (∀ k, k < S cur → path' !! k = path !! k)
    ∧ path_holds path' (S cur) (filter (λ i, mark !! i = Some 0%Z) vertices).
Proof.
  revert cur path.
  induction vertices as [|i vertices IH]; intros cur path Hall Hroom.
  - exists path. split; [done|]. split; [done|]. split; [done|].
    intros k v Hk. done.
  - apply Forall_cons in Hall as [Hi Hall]. cbn [append_unmarked].
    destruct (vec_get_lt mark i Hi) as (m & Hm & Hmi). rewrite Hm. obind.
    rewrite filter_cons in Hroom |- *.
    destruct (decide (m = 0%Z)) as [->|Hm0].
    + rewrite decide_True in Hroom |- * by done. simpl in Hroom.
      rewrite vec_set_lt by lia. obind.
      destruct (IH (S cur) (<[S cur:=i]> path)) as (path' & Hr & Hlen & Hpre & Hpath);
        [done|rewrite length_insert; lia|].
      exists path'. split; [done|]. rewrite length_insert in Hlen.
      split; [done|]. split.
      * intros k Hk. rewrite Hpre by lia. apply list_lookup_insert_ne. lia.
      * intros k v Hk. destruct k as [|k]; simpl in Hk.
        -- injection Hk as <-. rewrite Nat.add_0_r, Hpre by lia.
           apply list_lookup_insert_eq. lia.
        -- replace (S cur + S k) with (S (S cur) + k) by lia. by apply Hpath.
    + rewrite decide_False in Hroom |- * by congruence.
      by apply IH.
Qed.

(** A list without repetition below [n], followed by the numbers below [n]
    that it misses, is a permutation of the numbers below [n]. *)
Lemma with_missing_is_permutation (n : nat) (l : list nat) :
  NoDup l → Forall (λ v, v < n) l →
  l ++ filter (λ v, v ∉ l) (seq 0 n) ≡ₚ seq 0 n.
Proof.
  intros Hnd Hall. apply NoDup_Permutation.
  - apply NoDup_app. split; [done|]. split.
    + intros x Hx Hf. apply list_elem_of_filter in Hf as [Hf _]. done.
    + apply NoDup_filter, NoDup_seq.
  - apply NoDup_seq.
  - intros x. rewrite elem_of_app, list_elem_of_filter, elem_of_seq.
    rewrite Forall_forall in Hall. split.
    + intros [Hx|[_ Hx]]; [|done]. specialize (Hall x Hx). lia.
    + intros Hx. destruct (decide (x ∈ l)); [by left|by right].
Qed.

Lemma filter_iff_on (P1 P2 : nat → Prop) `{!∀ x, Decision (P1 x), !∀ x, Decision (P2 x)}
  (l : list nat) :
  (∀ x, x ∈ l → P1 x ↔ P2 x) → filter P1 l = filter P2 l.
Proof.
  induction l as [|a l IH]; intros Hiff; [done|].
  rewrite !filter_cons.
  assert (Ha : P1 a ↔ P2 a) by (apply Hiff; left).
  rewrite IH by (intros x Hx; apply Hiff; by right).
  destruct (decide (P1 a)), (decide (P2 a)); tauto.
Qed.

(** The second search, to the depth the first ones found from [start],
    succeeds. *)
Lemma second_search_finds_chain (n : nat) (E : list (list Z)) (start : nat)
  (max_depth : Z) (st : search_state) :
  square n E → (Z.of_nat n ≤ INT_MAX)%Z → start < n → (0 ≤ max_depth)%Z →
  start_reaches n E start max_depth →
  search_wf n st → s_mark st = replicate n 0%Z →
  ∃ st', find_longest_path (S n) start 0 E max_depth st = Ok (true, st')
    ∧ search_wf n st' ∧ found_chain n E max_depth start 0 st st'.
Proof.
  intros HE Hbound Hstart Hpos Hreach Hwf Hmarks.
  assert (Hm : s_mark st !! start = Some 0%Z).
  { rewrite Hmarks. by apply lookup_replicate_2. }
  assert (Hfree : free (s_mark st) = n) by (rewrite Hmarks; apply free_replicate).
  destruct (find_longest_path_post n E max_depth (S n) 0 HE start st)
    as ([b st'] & Hr & (Hwf' & _ & _ & Hres) & _); try done; try lia.
  simpl in Hwf', Hres.
  assert (b = true) as ->; [|by exists st'].
  destruct (decide (max_depth = 0%Z)) as [->|Hne].
  - destruct Hwf as [Hlm Hlp]. cbn [find_longest_path] in Hr.
    rewrite !vec_set_lt in Hr by lia. cbn [mbind outcome_bind] in Hr.
    rewrite (bool_decide_eq_true_2 (Z.of_nat 0 = 0%Z)) in Hr by done.
    by injection Hr as <- _.
  - destruct Hreach as [?|(path0 & stA & Hl0 & HA & HmdA)]; [done|].
    destruct (find_longest_path_sim n E INT_MAX max_depth (S n) 0 HE Hbound start
                (SearchState (replicate n 0%Z) path0 0) st)
      as (stA' & b' & st2 & HA' & HB' & Hrel); try done; try (simpl; lia).
    { split; simpl; [apply length_replicate|done]. }
    { simpl. by apply lookup_replicate_2. }
    { simpl. rewrite free_replicate. lia. }
    { simpl. rewrite free_replicate. lia. }
    rewrite HA in HA'. injection HA' as <-.
    rewrite Hr in HB'. injection HB' as <- <-.
    destruct b; [done|]. lia.
Qed.

(** C5.  For every many-table plan over [n] tables (at least one, at most
    [INT_MAX]) and every [n] by [n] edge matrix, the planner returns; its
    [path] is a permutation of the table indexes below [n]; the first
    [max_depth + 1] entries are pairwise distinct and consecutive ones are
    joined by edges of [E]; and the entries after them are the unused
    indexes in ascending order. *)
Theorem plan_is_permutation_with_chain (E : list (list Z)) (n : nat) (uninit : Z) :
  0 < n → (Z.of_nat n ≤ INT_MAX)%Z → square n E →
  ∃ path max_depth,
    plan_iteration_order E n uninit = Ok (path, max_depth)
    ∧ path ≡ₚ seq 0 n
    ∧ max_depth < n
    ∧ chain E (take (S max_depth) path)
    ∧ NoDup (take (S max_depth) path)
    ∧ drop (S max_depth) path
      = filter (λ v, v ∉ take (S max_depth) path) (seq 0 n).
Proof.
  intros Hn Hbound HE. unfold plan_iteration_order.
  destruct (longest_path_starts_post n E (seq 0 n) (replicate n 0) 0%Z 0 HE Hbound)
    as (path1 & L & start & H1 & Hlen1 & Hstart & HL & Hreach); try done.
  { apply Forall_forall. intros i Hi. apply elem_of_seq in Hi. lia. }
  { apply length_replicate. }
  { by left. }
  rewrite H1. obind.
  destruct (second_search_finds_chain n E start L
              (SearchState (replicate n 0%Z) path1 uninit) HE Hbound Hstart HL Hreach)
    as (st2 & H2 & [Hlm2 Hlp2] & l & Hhd & Hl & Hch & Hnd & Hall & Hpath & _);
    [by split; simpl; [apply length_replicate|]|done|].
  rewrite H2. obind.
  assert (Hlen : length l = S (Z.to_nat L)) by lia.
  assert (Hbelow : Forall (λ v, v < n) l).
  { eapply Forall_impl; [exact Hall|]. by intros v [? _]. }
  pose proof (NoDup_below_length n l Hnd Hbelow) as Hle.
  rewrite <- Hlen.
  rewrite (mark_path_values (s_path st2) (seq 0 (length l)) l).
  2:{ by apply path_holds_positions. }
  2:{ by rewrite length_replicate. }
  obind.
  set (markf := foldl (λ m v, <[v:=1%Z]> m) (replicate n 0%Z) l).
  assert (Hmarkf : length markf = n).
  { unfold markf. by rewrite foldl_marks_length, length_replicate. }
  assert (Hfilter : filter (λ i, markf !! i = Some 0%Z) (seq 0 n)
                    = filter (λ v, v ∉ l) (seq 0 n)).
  { apply filter_iff_on. intros x Hx. apply elem_of_seq in Hx.
    unfold markf. rewrite foldl_marks_lookup by (rewrite length_replicate; lia).
    rewrite lookup_replicate_2 by lia.
    destruct (decide (x ∈ l)); split; try done. }
  pose proof (with_missing_is_permutation n l Hnd Hbelow) as Hperm.
  assert (Hcount : length l + length (filter (λ v, v ∉ l) (seq 0 n)) = n).
  { apply Permutation_length in Hperm. by rewrite length_app, length_seq in Hperm. }
  destruct (append_unmarked_post markf (seq 0 n) (Z.to_nat L) (s_path st2))
    as (path' & Hr & Hlen' & Hpre & Hrest).
  { apply Forall_forall. intros i Hi. apply elem_of_seq in Hi. lia. }
  { rewrite Hfilter. lia. }
  rewrite Hr. obind. rewrite Hfilter in Hrest.
  assert (Hpath' : path' = l ++ filter (λ v, v ∉ l) (seq 0 n)).
  { apply list_eq. intros i. destruct (decide (i < length l)) as [Hi|Hi].
    - rewrite lookup_app_l by done. rewrite Hpre by lia.
      destruct (lookup_lt_is_Some_2 l i Hi) as [v Hv]. rewrite Hv.
      apply (Hpath i v Hv).
    - rewrite lookup_app_r by lia.
      destruct (filter (λ v, v ∉ l) (seq 0 n) !! (i - length l)) as [v|] eqn:Hv.
      + specialize (Hrest _ _ Hv).
        replace (S (Z.to_nat L) + (i - length l)) with i in Hrest by lia. done.
      + apply lookup_ge_None. apply lookup_ge_None in Hv. lia. }
  exists path', (Z.to_nat L). split; [done|].
  rewrite Hpath'. rewrite take_app_length' by lia. rewrite drop_app_length' by lia.
  split; [done|]. split; [lia|]. done.
Qed.

Lemma plan_is_permutation_with_chain_witness :
  ∃ path max_depth,
    plan_iteration_order one_edge 2 0 = Ok (path, max_depth)
    ∧ path ≡ₚ seq 0 2
    ∧ max_depth < 2
    ∧ chain one_edge (take (S max_depth) path)
    ∧ NoDup (take (S max_depth) path)
    ∧ drop (S max_depth) path
      = filter (λ v, v ∉ take (S max_depth) path) (seq 0 2).
Proof.
  apply (plan_is_permutation_with_chain one_edge 2 0).
  - lia.
  - vm_compute. discriminate.
  - split; [reflexivity|]. repeat constructor.
Defined.

(** ** Plain scans: the rows that reach the consumer *)

Lemma product_length (tbs : list table_manager) (t : list record_manager) :
  t ∈ product tbs → length t = length tbs.
Proof.
  revert t. induction tbs as [|tb tbs IH]; intros t Ht; simpl in Ht.
  - apply list_elem_of_singleton in Ht as ->. done.
  - apply list_elem_of_bind in Ht as (t' & Ht & Ht').
    apply list_elem_of_bind in Ht as (rm & Ht & _).
    apply list_elem_of_singleton in Ht as ->. simpl. by rewrite (IH t').
Qed.

Lemma bind_map {A B : Type} (g : A → B) (l : list A) : l ≫= (λ x, [g x]) = g <$> l.
Proof. induction l as [|x l IH]; [done|]. rewrite bind_cons, IH. done. Qed.

Lemma fmap_bind_comm {A B : Type} (g : B → B) (f : A → list B) (f' : A → list B)
  (l : list A) :
  (∀ x, f' x = g <$> f x) → l ≫= f' = g <$> (l ≫= f).
Proof.
  intros Hf. induction l as [|x l IH]; [done|].
  by rewrite !bind_cons, fmap_app, IH, Hf.
Qed.

(** The product with one more table at the end: that table varies
    slowest. *)
Lemma product_snoc (tbs : list table_manager) (tb : table_manager) :
  product (tbs ++ [tb]) = rm ← records tb; (λ t, t ++ [rm]) <$> product tbs.
Proof.
  induction tbs as [|a tbs IH]; simpl.
  - apply app_nil_r.
  - rewrite IH. clear IH.
    induction (records tb) as [|rm rms IHr]; [done|].
    rewrite !bind_cons, bind_app, IHr. f_equal.
    rewrite list_fmap_bind. apply fmap_bind_comm. intros t. simpl.
    rewrite !bind_map, <- list_fmap_compose. done.
Qed.

Lemma length_filter_fmap {A B : Type} (Q : B → Prop) `{!∀ x, Decision (Q x)}
  (g : A → B) (l : list A) :
  length (filter Q (g <$> l)) = length (filter (λ x, Q (g x)) l).
Proof.
  induction l as [|x l IH]; [done|]. rewrite fmap_cons, !filter_cons.
  destruct (decide (Q (g x))); simpl; by rewrite IH.
Qed.

Lemma bind_tuple_agree (tbs : list table_manager) (t : list record_manager)
  (c c' : gmap string record_manager) (key : string) :
  length t = length tbs →
  (key ∉ table_name <$> tbs → c !! key = c' !! key) →
  bind_tuple tbs t c !! key = bind_tuple tbs t c' !! key.
Proof.
  revert t. induction tbs as [|tb tbs IH]; intros t Hlen Hc.
  - destruct t; simpl; apply Hc; apply not_elem_of_nil.
  - destruct t as [|rm t]; [discriminate|]. injection Hlen as Hlen. simpl.
    destruct (decide (table_name tb = key)) as [->|Hne].
    + by rewrite !lookup_insert_eq.
    + rewrite !lookup_insert_ne by done. apply IH; [done|].
      intros Hkey. apply Hc. rewrite fmap_cons. intros Hin.
      apply elem_of_cons in Hin as [->|Hin]; done.
Qed.

Lemma bind_tuple_app (tbs1 tbs2 : list table_manager) (t outer : list record_manager)
  (c0 : gmap string record_manager) :
  length t = length tbs1 →
  bind_tuple (tbs1 ++ tbs2) (t ++ outer) c0 = bind_tuple tbs1 t (bind_tuple tbs2 outer c0).
Proof.
  revert t. induction tbs1 as [|tb tbs1 IH]; intros t Hlen.
  - by destruct t.
  - destruct t as [|rm t]; [discriminate|]. injection Hlen as Hlen. simpl.
    by rewrite IH.
Qed.

Lemma filter_iff_on_any {A : Type} (P1 P2 : A → Prop)
  `{!∀ x, Decision (P1 x), !∀ x, Decision (P2 x)} (l : list A) :
  (∀ x, P1 x ↔ P2 x) → length (filter P1 l) = length (filter P2 l).
Proof. intros Hiff. by rewrite (list_filter_iff P1 P2 l Hiff). Qed.

Section plain_scan.
Context `{Evaluator} {L : Type}.
Variable callback :
  list table_manager → list (option record_manager) → list Z → world L
  → outcome (world L * bool).
Variable measure : world L → Z.
Variable next : Z → Z.
Variable tbs : list table_manager.
Variable cond : option expr_node_t.
Variable c0 : gmap string record_manager.
Variable index_cond : list (list (option expr_node_t)).
Variable index_cid : list (option nat).

Hypothesis measure_cache : ∀ tb rm w, measure (cache_record tb rm w) = measure w.
Hypothesis tuples_ok :
  ∀ rms, rms ∈ product tbs → counted_tuple callback measure next tbs cond c0 rms.

(** The scan loop of one level, given the level below. *)
Lemma impl_scan_loop_counts (k : nat) (tb : table_manager)
  (inner : world L → cursor → outcome (world L * cursor * bool))
  (outer : list record_manager) (it : list record_manager) (w : world L) (cur : cursor) :
  tbs !! k = Some tb →
  scan_level measure next tbs cond c0 k inner →
  length (record_list cur) = length tbs → length (rid_list cur) = length tbs →
  (∀ r t, r ∈ it → t ∈ product (take k tbs) → t ++ r :: outer ∈ product tbs) →
  cache_bound tbs (S k) outer c0 (row_cache w) →
  ∃ w' cur',
    impl_scan_loop inner tb k it w cur = Ok (w', cur', true)
    ∧ measure w'
      = Nat.iter (length (filter
                    (λ t, holds cond (bind_tuple tbs (t ++ outer) c0) = inr true)
                    (r ← it; (λ t, t ++ [r]) <$> product (take k tbs)))) next (measure w)
    ∧ (∀ key, key ∉ table_name <$> take (S k) tbs →
         row_cache w' !! key = row_cache w !! key)
    ∧ length (record_list cur') = length tbs
    ∧ length (rid_list cur') = length tbs.
Proof.
  intros Htb Hinner.
  assert (Hk : k < length tbs) by (by eapply lookup_lt_Some).
  assert (Htake : take (S k) tbs = take k tbs ++ [tb]) by (by apply take_S_r).
  assert (Hdrop : drop k tbs = tb :: drop (S k) tbs) by (by apply drop_S).
  assert (Hnames : ∀ key, key ∉ table_name <$> take (S k) tbs →
                          key ≠ table_name tb ∧ key ∉ table_name <$> take k tbs).
  { intros key Hkey. rewrite Htake, fmap_app in Hkey.
    apply not_elem_of_app in Hkey as [Hkey Hne]. split; [|done].
    intros ->. apply Hne. simpl. left. }
  revert w cur. induction it as [|r it IH]; intros w cur Hrl Hil Hok Hcache.
  - exists w, cur. simpl. split; [done|]. split; [done|]. done.
  - cbn [impl_scan_loop].
    rewrite vec_set_lt by lia. obind. rewrite vec_set_lt by lia. obind.
    destruct (Hinner (r :: outer) (cache_record tb r w)
                (Cursor (<[k:=Some r]> (record_list cur)) (<[k:=rid r]> (rid_list cur))))
      as (w1 & cur1 & Hr1 & Hm1 & Hf1 & Hrl1 & Hil1).
    { simpl. by rewrite length_insert. }
    { simpl. by rewrite length_insert. }
    { intros t Ht. apply Hok; [left|done]. }
    { intros key Hkey. rewrite Hdrop. cbn [cache_record row_cache bind_tuple].
      destruct (decide (table_name tb = key)) as [->|Hne].
      - by rewrite !lookup_insert_eq.
      - rewrite !lookup_insert_ne by done. apply Hcache.
        rewrite Htake, fmap_app. apply not_elem_of_app. split; [done|].
        simpl. intros Hin. apply list_elem_of_singleton in Hin. done. }
    rewrite Hr1. obind.
    destruct (IH w1 cur1) as (w2 & cur2 & Hr2 & Hm2 & Hf2 & Hrl2 & Hil2); try done.
    { intros r' t Hr' Ht. apply Hok; [by right|done]. }
    { intros key Hkey. destruct (Hnames key Hkey) as [Hne Hkey'].
      rewrite Hf1 by done. cbn [cache_record row_cache].
      rewrite lookup_insert_ne by done. by apply Hcache. }
    exists w2, cur2. split; [done|]. split; [|split; [|done]].
    + rewrite Hm2, Hm1, measure_cache.
      rewrite bind_cons, filter_app, length_app, length_filter_fmap.
      rewrite Nat.add_comm, Nat.iter_add.
      rewrite (filter_iff_on_any
                 (λ x, holds cond (bind_tuple tbs ((x ++ [r]) ++ outer) c0) = inr true)
                 (λ t, holds cond (bind_tuple tbs (t ++ r :: outer) c0) = inr true)).
      * done.
      * intros x. by rewrite <- app_assoc.
    + intros key Hkey. destruct (Hnames key Hkey) as [Hne Hkey'].
      rewrite Hf2 by done. rewrite Hf1 by done. cbn [cache_record row_cache].
      by rewrite lookup_insert_ne.
Qed.

(** The nested scan of the first [k] tables. *)
Lemma impl_counts (k : nat) :
  k ≤ length tbs →
  scan_level measure next tbs cond c0 k
    (iterate_many_tables_impl tbs index_cond (seq 0 (length tbs)) index_cid
       (replicate (length tbs) None) cond callback k).
Proof.
  induction k as [|k IH]; intros Hk outer w cur Hrl Hil Hok Hcache.
  - assert (Houter : outer ∈ product tbs).
    { apply (Hok []). rewrite take_0. simpl. left. }
    assert (Hc : row_cache w = bind_tuple tbs outer c0).
    { apply map_eq. intros key. rewrite (Hcache key); [by rewrite drop_0|].
      rewrite take_0. apply not_elem_of_nil. }
    pose proof (tuples_ok outer Houter) as Hgood. unfold counted_tuple in Hgood.
    cbn [iterate_many_tables_impl]. unfold eval_cond.
    change (match cond with
            | Some c => eval_bool (row_cache w) c
            | None => inr true
            end) with (holds cond (row_cache w)).
    rewrite take_0. cbn [product]. rewrite filter_cons, filter_nil. cbn [app].
    replace (holds cond (row_cache w)) with (holds cond (bind_tuple tbs outer c0))
      by (by rewrite Hc).
    destruct (holds cond (bind_tuple tbs outer c0)) as [msg|[|]] eqn:Hholds; [done| |].
    + destruct (Hgood tbs (record_list cur) (rid_list cur) w Hc)
        as (w' & Hcb & Hrc & Hm); [lia|].
      rewrite Hcb. obind. exists w', cur. split; [done|].
      rewrite decide_True by done. simpl. split; [done|]. split; [|done].
      intros key _. by rewrite Hrc.
    + exists w, cur. split; [done|]. rewrite decide_False by done.
      simpl. split; [done|]. done.
  - assert (Hlt : k < length tbs) by lia.
    destruct (lookup_lt_is_Some_2 tbs k Hlt) as [tb Htb].
    cbn [iterate_many_tables_impl]. unfold vec_get.
    rewrite lookup_replicate_2 by done. obind.
    rewrite lookup_seq_lt by done. obind. change (0 + k) with k.
    rewrite Htb. obind.
    assert (Htake : take (S k) tbs = take k tbs ++ [tb]) by (by apply take_S_r).
    destruct (impl_scan_loop_counts k tb
                (iterate_many_tables_impl tbs index_cond (seq 0 (length tbs)) index_cid
                   (replicate (length tbs) None) cond callback k)
                outer (records tb) w cur Htb)
      as (w' & cur' & Hr & Hm & Hf & Hrl' & Hil'); try done.
    + apply IH. lia.
    + intros r t Hr Ht. replace (t ++ r :: outer) with ((t ++ [r]) ++ outer)
        by (by rewrite <- app_assoc).
      apply Hok. rewrite Htake, product_snoc. apply list_elem_of_bind.
      exists r. split; [|done]. apply list_elem_of_fmap. by exists t.
    + exists w', cur'. split; [done|]. split; [|done].
      rewrite Hm, Htake, product_snoc. done.
Qed.

End plain_scan.

(** *** The planner on a graph without edges *)

Lemma mat_get_zero (n : nat) (i j : nat) :
  i < n → j < n → mat_get (replicate n (replicate n 0%Z)) i j = Ok 0%Z.
Proof.
  intros Hi Hj. apply mat_get_Ok. exists (replicate n 0%Z).
  by rewrite !lookup_replicate_2.
Qed.

Lemma try_neighbours_zero (n : nat)
  (visit : nat → search_state → outcome (bool * search_state))
  (now : nat) (candidates : list nat) (st : search_state) :
  now < n → Forall (λ i, i < n) candidates →
  try_neighbours visit (replicate n (replicate n 0%Z)) now candidates st = Ok (false, st).
Proof.
  intros Hnow. induction candidates as [|i candidates IH]; intros Hall; [done|].
  apply Forall_cons in Hall as [Hi Hall]. cbn [try_neighbours].
  rewrite mat_get_zero by done. obind. rewrite decide_True by done. by apply IH.
Qed.

Lemma below_seq (n : nat) : Forall (λ i, i < n) (seq 0 n).
Proof. apply Forall_forall. intros i Hi. apply elem_of_seq in Hi. lia. Qed.

(** A search to a depth other than 0 in a graph without edges stores its
    start and returns false. *)
Lemma find_longest_path_zero (n fuel now : nat) (excepted_len : Z) (st : search_state) :
  now < n → search_wf n st → excepted_len ≠ 0%Z →
  find_longest_path (S fuel) now 0 (replicate n (replicate n 0%Z)) excepted_len st
  = Ok (false,
        SearchState (<[now:=0%Z]> (<[now:=1%Z]> (s_mark st))) (<[0:=now]> (s_path st))
          (if bool_decide (Z.of_nat 0 > s_max_depth st)%Z then Z.of_nat 0
           else s_max_depth st)).
Proof.
  intros Hnow [Hlm Hlp] Hlen. cbn [find_longest_path].
  rewrite !vec_set_lt by lia. obind.
  rewrite (bool_decide_eq_false_2 (Z.of_nat 0 = excepted_len)) by lia.
  rewrite length_replicate, try_neighbours_zero by (done || apply below_seq).
  obind. cbn [s_mark s_path s_max_depth].
  rewrite vec_set_lt by (rewrite length_insert; lia). done.
Qed.

Lemma longest_path_starts_zero (n : nat) (starts : list nat) (path : list nat) :
  Forall (λ i, i < n) starts → length path = n →
  ∃ path', longest_path_starts (replicate n (replicate n 0%Z)) n starts path 0%Z 0
           = Ok (path', 0%Z, 0)
    ∧ length path' = n.
Proof.
  revert path. induction starts as [|i starts IH]; intros path Hall Hlen.
  - by exists path.
  - apply Forall_cons in Hall as [Hi Hall]. cbn [longest_path_starts].
    rewrite find_longest_path_zero; [|done| |done].
    2:{ split; simpl; [apply length_replicate|done]. }
    obind. cbn [s_max_depth s_path].
    rewrite (bool_decide_eq_false_2 (Z.of_nat 0 > 0)%Z) by (simpl; lia).
    apply IH; [done|]. rewrite length_insert. done.
Qed.

Lemma filter_all {A : Type} (P : A → Prop) `{!∀ x, Decision (P x)} (l : list A) :
  Forall P l → filter P l = l.
Proof.
  induction l as [|x l IH]; intros Hall; [done|].
  apply Forall_cons in Hall as [Hx Hall].
  rewrite filter_cons, decide_True by done. by rewrite IH.
Qed.

(** Without edges the tables are iterated in their own order. *)
Lemma plan_without_edges (n : nat) (uninit : Z) :
  0 < n →
  plan_iteration_order (replicate n (replicate n 0%Z)) n uninit = Ok (seq 0 n, 0).
Proof.
  intros Hn. unfold plan_iteration_order.
  destruct (longest_path_starts_zero n (seq 0 n) (replicate n 0))
    as (path1 & H1 & Hlen1); [apply below_seq|apply length_replicate|].
  rewrite H1. obind.
  cbn [find_longest_path s_mark s_path s_max_depth].
  rewrite !vec_set_lt by (rewrite ?length_replicate; lia).
  obind. rewrite (bool_decide_eq_true_2 (Z.of_nat 0 = 0%Z)) by done. obind.
  change (Z.to_nat 0) with 0. cbn [s_path seq mark_path]. unfold vec_get.
  rewrite list_lookup_insert_eq by lia. obind.
  rewrite vec_set_lt by (rewrite length_replicate; lia). obind.
  set (markf := <[0:=1%Z]> (replicate n 0%Z)).
  assert (Hfilter : filter (λ i, markf !! i = Some 0%Z) (seq 0 n) = seq 1 (n - 1)).
  { destruct n as [|m]; [lia|]. replace (S m - 1) with m by lia.
    cbn [seq]. rewrite filter_cons, decide_False.
    - apply filter_all, Forall_forall. intros i Hi. apply elem_of_seq in Hi.
      unfold markf. rewrite list_lookup_insert_ne by lia.
      apply lookup_replicate_2. lia.
    - unfold markf. rewrite list_lookup_insert_eq by (rewrite length_replicate; lia).
      done. }
  destruct (append_unmarked_post markf (seq 0 n) 0 (<[0:=0]> path1))
    as (path' & Hr & Hlen' & Hpre & Hrest).
  { unfold markf. rewrite length_insert, length_replicate. apply below_seq. }
  { rewrite Hfilter, length_seq, length_insert. lia. }
  rewrite Hr. obind. f_equal. f_equal.
  rewrite Hfilter in Hrest. rewrite length_insert in Hlen'.
  apply list_eq. intros i. destruct (decide (i < n)) as [Hi|Hi].
  - rewrite lookup_seq_lt by done. destruct i as [|i].
    + rewrite Hpre by lia. apply list_lookup_insert_eq. lia.
    + apply (Hrest i (S i)). rewrite lookup_seq_lt by lia. done.
  - rewrite lookup_seq_ge by lia. apply lookup_ge_None. lia.
Qed.

Lemma iteration_order_names_total (tbs : list table_manager) (positions : list nat) :
  0 < length tbs →
  ∃ names,
    iteration_order_names tbs (seq 0 (length tbs)) (length tbs) positions = Ok names.
Proof.
  intros Hn. induction positions as [|i positions [names IH]]; [by exists []|].
  cbn [iteration_order_names]. unfold vec_get.
  rewrite lookup_seq_lt by lia. obind.
  destruct (lookup_lt_is_Some_2 tbs (0 + (length tbs - i - 1))) as [tb Htb]; [lia|].
  rewrite Htb. obind. rewrite IH. obind. eauto.
Qed.

(** *** Tables without index *)

Lemma no_index_lookup (tbs : list table_manager) (i : nat) (tb : table_manager)
  (cid : option nat) :
  Forall no_index tbs → tbs !! i = Some tb → get_index tb cid = None.
Proof.
  intros Hall Hi. rewrite Forall_forall in Hall. apply Hall.
  by eapply list_elem_of_lookup_2.
Qed.

(** Without an index a conjunct adds no edge; and when the construction
    goes through, the column references of an equality were read. *)
Lemma setup_join_cond_no_index (tbs : list table_manager) (c : expr_node_t)
  (g g' : join_graph) :
  Forall no_index tbs → setup_join_cond tbs c g = Ok (inr g') →
  g' = g ∧ readable_equality c.
Proof.
  intros Hall. unfold setup_join_cond, is_equality_of_columns, readable_equality.
  destruct (decide (op c = OPERATOR_EQ)) as [Hop|Hop]; obind.
  2:{ intros [= <-]. done. }
  destruct (both_column_refs c) as [[|]|f] eqn:Hboth; obind; [| |discriminate].
  2:{ intros [= <-]. split; [done|]. intros _ [=]. }
  destruct (e_left c) as [l|]; obind; [|discriminate].
  destruct (column_ref l) as [lref|] eqn:Hl; obind; [|discriminate].
  destruct (e_right c) as [r|]; obind; [|discriminate].
  destruct (column_ref r) as [rref|] eqn:Hrr; obind; [|discriminate].
  intros Hr. split; [|intros _ _; by exists l, r, lref, rref].
  destruct (lookup_table tbs (table lref)) as [tid1|]; [|discriminate].
  destruct (lookup_table tbs (table rref)) as [tid2|]; [|discriminate].
  unfold vec_get in Hr.
  destruct (tbs !! tid1) as [tb1|] eqn:Htb1; cbn [mbind outcome_bind] in Hr; [|discriminate].
  destruct (tbs !! tid2) as [tb2|] eqn:Htb2; cbn [mbind outcome_bind] in Hr; [|discriminate].
  destruct (lookup_column tb1 (column lref)) as [cid1|]; [|discriminate].
  destruct (lookup_column tb2 (column rref)) as [cid2|]; [|discriminate].
  rewrite (no_index_lookup tbs tid1 tb1 _ Hall Htb1) in Hr.
  rewrite (no_index_lookup tbs tid2 tb2 _ Hall Htb2) in Hr.
  cbn [mbind outcome_bind] in Hr. by injection Hr as <-.
Qed.

Lemma setup_join_graph_no_index (tbs : list table_manager) (and_cond : list expr_node_t)
  (g g' : join_graph) :
  Forall no_index tbs → setup_join_graph tbs and_cond g = Ok (inr g') →
  g' = g ∧ Forall readable_equality and_cond.
Proof.
  intros Hall. induction and_cond as [|c and_cond IH]; cbn [setup_join_graph].
  - intros [= <-]. done.
  - destruct (setup_join_cond tbs c g) as [[msg|g1]|f] eqn:Hc; obind; try discriminate.
    destruct (setup_join_cond_no_index tbs c g g1 Hall Hc) as [-> Hread].
    intros Hrest. destruct (IH Hrest) as [-> Hreads]. split; [done|].
    by apply Forall_cons.
Qed.

Lemma extract_and_cond_leaf (c : expr_node_t) (and_cond : list expr_node_t) :
  op c ≠ OPERATOR_AND → extract_and_cond c and_cond = Ok (and_cond ++ [c]).
Proof. destruct c as [[] ? ? ? ?]; simpl; done. Qed.

(** Without an index the two-table index join declines. *)
Lemma index_join_declines `{Evaluator} {L : Type}
  (callback : list table_manager → list (option record_manager) → list Z
              → world L → outcome (world L * bool))
  (tb1 tb2 : table_manager) (c : expr_node_t) (j : option expr_node_t) (w : world L) :
  no_index tb1 → no_index tb2 → get_join_cond (Some c) = Ok j → readable_equality c →
  ∃ w', iterate_two_tables_with_joint_cond_equal callback tb1 tb2 (Some c) w = Ok (w', false)
    ∧ (w' = w ∨ ∃ msg, w' = puts msg w).
Proof.
  intros Hn1 Hn2 Hj Hread. unfold iterate_two_tables_with_joint_cond_equal.
  rewrite Hj. obind. unfold get_join_cond in Hj.
  destruct (both_column_refs c) as [[|]|f] eqn:Hboth; cbn [mbind outcome_bind] in Hj;
    [| |discriminate]; injection Hj as <-; [|by eauto].
  destruct (decide (op c ≠ OPERATOR_EQ)) as [Hop|Hop]; [by eauto|].
  apply dec_stable in Hop.
  destruct (Hread Hop Hboth) as (l & r & lref & rref & -> & Hl & -> & Hr).
  obind. rewrite Hl, Hr. obind.
  destruct (decide (table lref ≠ get_table_name tb1)).
  - destruct (lookup_column tb2 (column lref)), (lookup_column tb1 (column rref));
      rewrite ?Hn1, ?Hn2; eauto.
  - destruct (lookup_column tb1 (column lref)), (lookup_column tb2 (column rref));
      rewrite ?Hn1, ?Hn2; eauto.
Qed.

(** *** [iterate] as a plain nested scan *)

Lemma product_one (tb : table_manager) :
  product [tb] = (λ rm, [rm]) <$> records tb.
Proof. simpl. rewrite app_nil_r. apply bind_map. Qed.

Section iterate_counts.
Context `{Evaluator} {L : Type}.
Variable callback :
  list table_manager → list (option record_manager) → list Z → world L
  → outcome (world L * bool).
Variable measure : world L → Z.
Variable next : Z → Z.
Variable tbs : list table_manager.
Variable cond : option expr_node_t.
Variable c0 : gmap string record_manager.

Hypothesis measure_cache : ∀ tb rm w, measure (cache_record tb rm w) = measure w.
Hypothesis measure_puts : ∀ msg w, measure (puts msg w) = measure w.
Hypothesis tuples_ok :
  ∀ rms, rms ∈ product tbs → counted_tuple callback measure next tbs cond c0 rms.

(** The loop of [iterate_one_table] on the records still ahead. *)
Lemma iterate_one_table_counts (tb : table_manager) (it : list record_manager)
  (w : world L) :
  tbs = [tb] →
  (∀ rm, rm ∈ it → rm ∈ records tb) →
  (∀ key, key ≠ table_name tb → row_cache w !! key = c0 !! key) →
  ∃ w',
    iterate_one_table_loop tb cond (λ _ rm rid, callback tbs [Some rm] [rid]) it w = Ok w'
    ∧ measure w'
      = Nat.iter (length (filter
                    (λ rm, holds cond (bind_tuple tbs [rm] c0) = inr true) it))
          next (measure w).
Proof.
  intros Htbs. revert w. induction it as [|rm it IH]; intros w Hin Hcache.
  - exists w. simpl. split; [done|done].
  - cbn [iterate_one_table_loop]. unfold eval_cond.
    change (match cond with
            | Some c => eval_bool (row_cache (cache_record tb rm w)) c
            | None => inr true
            end) with (holds cond (row_cache (cache_record tb rm w))).
    assert (Hc : row_cache (cache_record tb rm w) = bind_tuple tbs [rm] c0).
    { rewrite Htbs. cbn [cache_record row_cache bind_tuple]. apply map_eq. intros key.
      destruct (decide (table_name tb = key)) as [->|Hne].
      - by rewrite !lookup_insert_eq.
      - rewrite !lookup_insert_ne by done. by apply Hcache. }
    assert (Hrm : [rm] ∈ product tbs).
    { rewrite Htbs, product_one.
      apply list_elem_of_fmap. exists rm. split; [done|]. apply Hin. left. }
    pose proof (tuples_ok [rm] Hrm) as Hgood. unfold counted_tuple in Hgood.
    rewrite filter_cons.
    replace (holds cond (row_cache (cache_record tb rm w)))
      with (holds cond (bind_tuple tbs [rm] c0)) by (by rewrite Hc).
    destruct (holds cond (bind_tuple tbs [rm] c0)) as [msg|[|]] eqn:Hholds; [done| |].
    + destruct (Hgood tbs [Some rm] [rid rm] (cache_record tb rm w) Hc)
        as (w1 & Hcb & Hrc & Hm); [by rewrite Htbs|].
      rewrite Hcb. obind.
      destruct (IH w1) as (w2 & Hr2 & Hm2).
      { intros r Hr. apply Hin. by right. }
      { intros key Hkey. rewrite Hrc. cbn [cache_record row_cache].
        rewrite lookup_insert_ne by done. by apply Hcache. }
      exists w2. split; [done|]. rewrite decide_True by done.
      rewrite Hm2, Hm, measure_cache. simpl length.
      by rewrite <- Nat.iter_succ_r.
    + destruct (IH (cache_record tb rm w)) as (w2 & Hr2 & Hm2).
      { intros r Hr. apply Hin. by right. }
      { intros key Hkey. cbn [cache_record row_cache].
        rewrite lookup_insert_ne by done. by apply Hcache. }
      exists w2. split; [done|]. rewrite decide_False by done.
      rewrite Hm2, measure_cache. done.
Qed.

(** The enumeration of [iterate_many_tables] when the join graph stays
    without edges. *)
Lemma iterate_many_tables_counts (uninit : Z) (c : expr_node_t)
  (and_cond : list expr_node_t) (g : join_graph) (w : world L) :
  0 < length tbs → (Z.of_nat (length tbs) ≤ INT_MAX)%Z → Forall no_index tbs →
  cond = Some c →
  extract_and_cond c [] = Ok and_cond →
  setup_join_graph tbs and_cond (empty_graph (length tbs)) = Ok (inr g) →
  row_cache w = c0 →
  ∃ w',
    iterate_many_tables uninit callback tbs cond w = Ok w'
    ∧ measure w' = Nat.iter (length (true_tuples cond tbs c0)) next (measure w).
Proof.
  intros Hpos Hmax Hall Hcond Hextract Hgraph Hc0.
  destruct (setup_join_graph_no_index tbs and_cond _ g Hall Hgraph) as [Hg _].
  assert (Hd : deref cond = Ok c) by (by rewrite Hcond).
  unfold iterate_many_tables. rewrite Hd. obind.
  rewrite Hextract. obind. rewrite Hgraph. obind. rewrite Hg.
  cbn [E J empty_graph].
  rewrite plan_without_edges by done. obind.
  cbn [seq setup_iteration_variables]. obind.
  destruct (impl_counts callback measure next tbs cond c0
              (replicate (length tbs) (replicate (length tbs) None))
              (replicate (length tbs) None) measure_cache tuples_ok (length tbs)
              (le_n _) [] w
              (Cursor (replicate (length tbs) None) (replicate (length tbs) 0%Z)))
    as (w1 & cur1 & Hr & Hm & _).
  { simpl. apply length_replicate. }
  { simpl. apply length_replicate. }
  { intros t Ht. rewrite firstn_all in Ht. by rewrite app_nil_r. }
  { intros key _. rewrite Hc0. rewrite drop_all. by destruct tbs. }
  rewrite Hr. obind.
  destruct (iteration_order_names_total tbs (seq 0 (length tbs)) Hpos) as [names Hnames].
  rewrite Hnames. obind. cbn [index_use_names]. obind.
  eexists. split; [done|]. rewrite !measure_puts, Hm. f_equal.
  unfold true_tuples. rewrite firstn_all.
  apply filter_iff_on_any. intros t. by rewrite app_nil_r.
Qed.

(** [iterate] on a plain nested scan: it ends, and the measure has moved
    by [next] once for each tuple of the product on which the predicate is
    true. *)
Lemma iterate_counts (uninit : Z) (w : world L) :
  plain_scan tbs cond → row_cache w = c0 →
  ∃ w',
    iterate uninit callback tbs cond w = Ok w'
    ∧ measure w' = Nat.iter (length (true_tuples cond tbs c0)) next (measure w).
Proof.
  intros [Hone|(Hlen & Hmax & Hall & c & and_cond & g & j & Hcond & Hextract & Hgraph & Hj)]
    Hc0.
  - assert (∃ tb, tbs = [tb]) as [tb Htbs].
    { destruct tbs as [|tb [|tb' rest]]; [discriminate| |discriminate]. by exists tb. }
    destruct (iterate_one_table_counts tb (records tb) w Htbs) as (w' & Hr & Hm).
    { done. }
    { intros key _. by rewrite Hc0. }
    exists w'. split.
    + rewrite Htbs in Hr |- *. exact Hr.
    + rewrite Hm. f_equal. unfold true_tuples.
      assert (Hp : product tbs = (λ rm, [rm]) <$> records tb)
        by (rewrite Htbs; apply product_one).
      rewrite Hp, length_filter_fmap. done.
  - assert (Hpos : 0 < length tbs) by lia.
    assert (∃ tb1 tb2 rest, tbs = tb1 :: tb2 :: rest) as (tb1 & tb2 & rest & Htbs).
    { destruct tbs as [|tb1 [|tb2 rest]]; [simpl in Hlen; lia|simpl in Hlen; lia|].
      by exists tb1, tb2, rest. }
    destruct (iterate_many_tables_counts uninit c and_cond g w) as (w' & Hr & Hm);
      try done.
    destruct rest as [|tb3 rest].
    + assert (Hread : readable_equality c).
      { destruct (decide (op c = OPERATOR_AND)) as [Hand|Hand].
        - intros Heq. rewrite Hand in Heq. discriminate.
        - rewrite extract_and_cond_leaf in Hextract by done.
          injection Hextract as <-.
          destruct (setup_join_graph_no_index tbs [c] _ g Hall Hgraph) as [_ Hreads].
          by apply Forall_inv in Hreads. }
      assert (Hn1 : no_index tb1).
      { rewrite Forall_forall in Hall. apply Hall. rewrite Htbs. left. }
      assert (Hn2 : no_index tb2).
      { rewrite Forall_forall in Hall. apply Hall. rewrite Htbs. right. left. }
      rewrite Hcond in Hj.
      destruct (index_join_declines callback tb1 tb2 c j w Hn1 Hn2 Hj Hread)
        as (w0 & Hdecl & Hw0).
      assert (Hdecl' :
        iterate_two_tables_with_joint_cond_equal callback tb1 tb2 cond w = Ok (w0, false))
        by (by rewrite Hcond).
      assert (Hit :
        iterate uninit callback tbs cond w
        = (w ← iterate_many_tables uninit callback tbs cond w0;
           Ok (puts "[Info] Join two tables by enumerating." w))).
      { rewrite Htbs. cbn [iterate]. rewrite Hdecl'. by obind. }
      rewrite Hit.
      destruct Hw0 as [->|[msg ->]].
      * rewrite Hr. obind. eexists. split; [done|]. by rewrite measure_puts.
      * destruct (iterate_many_tables_counts uninit c and_cond g (puts msg w))
          as (w'' & Hr' & Hm'); try done.
        rewrite Hr'. obind. eexists. split; [done|].
        by rewrite measure_puts, Hm', measure_puts.
    + assert (Hit :
        iterate uninit callback tbs cond w
        = (w ← iterate_many_tables uninit callback tbs cond w;
           Ok (puts "[Info] Join many tables by enumerating." w))).
      { by rewrite Htbs. }
      rewrite Hit, Hr. obind.
      eexists. split; [done|]. by rewrite measure_puts.
Qed.

End iterate_counts.

(** ** SELECT: the rows emitted *)

Lemma count_endl_app (a b : list out_token) :
  count_endl (a ++ b) = (count_endl a + count_endl b)%Z.
Proof. induction a as [|t a IH]; simpl; lia. Qed.

Lemma count_endl_header_names (names : list string) :
  count_endl (header_names names) = 0%Z.
Proof.
  destruct names as [|n names]; [done|]. simpl.
  induction names as [|m names IH]; simpl; lia.
Qed.

Lemma count_endl_header_tables (tbs : list table_manager) :
  count_endl (header_tables tbs) = 0%Z.
Proof.
  destruct tbs as [|tb tbs]; [done|]. simpl.
  induction tbs as [|tb' tbs IH]; simpl; lia.
Qed.

Lemma print_value_keeps {L : Type} (ret : expression) (w : world L) :
  row_cache (print_value ret w) = row_cache w
  ∧ locals (print_value ret w) = locals w
  ∧ count_endl (output_file (print_value ret w)) = count_endl (output_file w).
Proof.
  unfold print_value.
  destruct (type ret); cbn [fprint puts row_cache locals output_file];
    rewrite ?count_endl_app; simpl; repeat split; lia.
Qed.

(** The projections that evaluate are printed without ending the line. *)
Lemma print_exprs_ok `{Evaluator} {L : Type} (exprs : list expr_node_t) (first : bool)
  (w : world L) :
  (∀ e, e ∈ exprs → ∃ v, eval (row_cache w) e = inr v) →
  ∃ w',
    print_exprs exprs first w = (w', true)
    ∧ row_cache w' = row_cache w
    ∧ locals w' = locals w
    ∧ count_endl (output_file w') = count_endl (output_file w).
Proof.
  revert first w. induction exprs as [|e exprs IH]; intros first w Hev.
  - by exists w.
  - cbn [print_exprs]. destruct (Hev e) as [v Hv]; [left|]. rewrite Hv.
    set (w1 := if first then w else fprint [OutText ","] w).
    assert (Hw1 : row_cache w1 = row_cache w ∧ locals w1 = locals w
                  ∧ count_endl (output_file w1) = count_endl (output_file w)).
    { subst w1. destruct first; [done|]. cbn [fprint row_cache locals output_file].
      rewrite count_endl_app. simpl. repeat split; lia. }
    destruct Hw1 as (Hc1 & Hl1 & Ho1).
    destruct (print_value_keeps v w1) as (Hc2 & Hl2 & Ho2).
    destruct (IH false (print_value v w1)) as (w' & Hr & Hc & Hl & Ho).
    { intros e' He'. rewrite Hc2, Hc1. apply Hev. by right. }
    exists w'. split; [done|]. rewrite Hc, Hl, Ho. repeat split; congruence.
Qed.

Lemma dump_records_ok (tl : list table_manager) (rl : list (option record_manager))
  (first : bool) :
  length rl = length tl →
  ∃ d, dump_records tl rl first = Ok d ∧ count_endl d = 0%Z.
Proof.
  revert rl first. induction tl as [|tb tl IH]; intros rl first Hlen.
  - by exists [].
  - destruct rl as [|rm rl]; [discriminate|]. injection Hlen as Hlen.
    cbn [dump_records]. destruct (IH rl false Hlen) as (d & -> & Hd). obind.
    eexists. split; [done|]. rewrite count_endl_app. destruct first; simpl; lia.
Qed.

(** A counter that stays in the range of [int] has counted exactly. *)
Lemma counter_exact (n : nat) (z0 : Z) :
  (INT_MIN ≤ z0)%Z → (z0 + Z.of_nat n ≤ INT_MAX)%Z →
  Nat.iter n (λ z, wrap_int (z + 1)) z0 = (z0 + Z.of_nat n)%Z.
Proof.
  intros Hlo. induction n as [|n IH]; intros Hhi.
  - simpl. lia.
  - rewrite Nat.iter_succ, IH by lia. unfold wrap_int, INT_MIN, INT_MAX in *.
    rewrite Z.mod_small by lia. lia.
Qed.

Lemma iter_succ_count (n : nat) (z0 : Z) : Nat.iter n Z.succ z0 = (z0 + Z.of_nat n)%Z.
Proof.
  induction n as [|n IH]; [simpl; lia|]. rewrite Nat.iter_succ, IH. lia.
Qed.

(** One call of the callback of [select_rows] whose projections evaluate:
    one line more in the output, one more on the counter. *)
Lemma select_callback_counts `{Evaluator} (exprs : list expr_node_t)
  (tl : list table_manager) (rl : list (option record_manager)) (rids : list Z)
  (w : world Z) :
  (∀ e, e ∈ exprs → ∃ v, eval (row_cache w) e = inr v) →
  length rl = length tl →
  ∃ w',
    select_callback exprs tl rl rids w = Ok (w', true)
    ∧ row_cache w' = row_cache w
    ∧ locals w' = wrap_int (locals w + 1)
    ∧ count_endl (output_file w') = (count_endl (output_file w) + 1)%Z.
Proof.
  intros Hev Hlen. unfold select_callback.
  destruct (print_exprs_ok exprs true w Hev) as (w1 & -> & Hc & Hl & Ho).
  assert (∃ d, (if decide (length exprs = 0) then dump_records tl rl true else Ok [])
               = Ok d ∧ count_endl d = 0%Z) as (d & -> & Hd).
  { destruct (decide (length exprs = 0)); [by apply dump_records_ok|by exists []]. }
  obind. eexists. split; [done|].
  cbn [set_locals fprint row_cache locals output_file].
  rewrite !count_endl_app. simpl. repeat split; [done|by rewrite Hl|lia].
Qed.

(** A predicate that throws ends the scan.  [SELECT a FROM T WHERE a / b]
    over the rows (1, 0) and (1, 1): the projection [a] evaluates on both
    rows and the predicate is true on the second row; the predicate throws
    on the first row, the scan stops there with the diagnostic, and no row
    is emitted: the output is the header line and the closing line. *)
Lemma select_stops_at_predicate_error :
  (λ rms, eval (Evaluator:=sample_evaluator [div_T]) (bind_tuple [div_T] rms ∅)
            (col "T" "a")) <$> product [div_T]
  = [inr (int_value 1); inr (int_value 1)]
  ∧ true_tuples (H:=sample_evaluator [div_T]) (where_ div_info) [div_T] ∅
    = [[RecordManager 2 [Some 1%Z; Some 1%Z]]]
  ∧ final_output
      (select_rows (H:=sample_evaluator [div_T]) 0 (Some (Database [div_T])) div_info
         (empty_world ()))
    = Some [OutText "expr"; OutEndl; OutEndl]
  ∧ final_console
      (select_rows (H:=sample_evaluator [div_T]) 0 (Some (Database [div_T])) div_info
         (empty_world ()))
    = Some ["[Error] Division by zero."; "[Info] 0 row(s) selected."].
Proof. repeat split; vm_compute; reflexivity. Qed.

(** C1, on [SELECT x FROM A, B WHERE A.x = A.y] with an index on [B.y].
    The predicate evaluates to true on the one tuple of the product and
    the projection evaluates on it, so one row is to be emitted.  [iterate]
    takes the two-table index join, which reads the right column [y] as a
    column of [B], probes the index of [B.y] from the key 5 and finds
    nothing: the statement emits no row and reports 0 rows.  And on the
    same tables without WHERE clause, where every tuple counts, the
    many-table path dereferences the absent predicate and the statement
    emits nothing at all. *)
Theorem select_misses_true_tuple :
  (λ rms, holds (H:=sample_evaluator [same_A; same_B]) (Some same_cond)
            (bind_tuple [same_A; same_B] rms ∅)) <$> product [same_A; same_B]
  = [inr true]
  ∧ (λ rms, eval (Evaluator:=sample_evaluator [same_A; same_B])
              (bind_tuple [same_A; same_B] rms ∅) (col "A" "x"))
    <$> product [same_A; same_B]
    = [inr (int_value 5)]
  ∧ final_output
      (select_rows (H:=sample_evaluator [same_A; same_B]) 0
         (Some (Database [same_A; same_B]))
         (SelectInfo ["A"; "B"] [col "A" "x"] (Some same_cond)) (empty_world ()))
    = Some [OutText "expr"; OutEndl; OutEndl]
  ∧ final_console
      (select_rows (H:=sample_evaluator [same_A; same_B]) 0
         (Some (Database [same_A; same_B]))
         (SelectInfo ["A"; "B"] [col "A" "x"] (Some same_cond)) (empty_world ()))
    = Some ["[Info] Join two tables using index."; "[Info] 0 row(s) selected."]
  ∧ length (product [same_A; same_B]) = 1
  ∧ select_rows (H:=sample_evaluator [same_A; same_B]) 0
      (Some (Database [same_A; same_B]))
      (SelectInfo ["A"; "B"] [col "A" "x"] None) (empty_world ())
    = Fault NullDeref.
Proof. repeat split; vm_compute; reflexivity. Qed.

(** SELECT over a plain nested scan.  For every SELECT statement without
    aggregate that runs as a plain nested scan (over one table, with or
    without predicate; or over several tables none of which has an index,
    with a predicate that is present and that the join planner can
    inspect), provided the predicate evaluates without error on every
    tuple of the Cartesian product of the tables' rows and the projection
    expressions evaluate without error on the tuples on which it is true:
    the statement ends, the number of lines written to the output is the
    header line, one line for each tuple on which the predicate is true
    (an absent predicate being true on every tuple) and the closing line;
    the count reported on the console is that number of tuples when it
    fits the [int] counter; and the row cache is cleared. *)
Theorem select_emits_true_tuples `{Evaluator} (uninit : Z) (db : database)
  (info : select_info_t) (tbs : list table_manager) (w : world ()) :
  get_required_tables db (select_tables info) = inr tbs →
  existsb is_aggregate (exprs info) = false →
  plain_scan tbs (where_ info) →
  (∀ rms, rms ∈ product tbs →
     ∃ b, holds (where_ info) (bind_tuple tbs rms (row_cache w)) = inr b) →
  (∀ rms e, rms ∈ true_tuples (where_ info) tbs (row_cache w) → e ∈ exprs info →
     ∃ v, eval (bind_tuple tbs rms (row_cache w)) e = inr v) →
  ∃ w',
    select_rows uninit (Some db) info w = Ok w'
    ∧ count_endl (output_file w')
      = (count_endl (output_file w) + 1
         + Z.of_nat (length (true_tuples (where_ info) tbs (row_cache w))) + 1)%Z
    ∧ ((Z.of_nat (length (true_tuples (where_ info) tbs (row_cache w))) ≤ INT_MAX)%Z →
       last (console w')
       = Some (selected_message
                 (Z.of_nat (length (true_tuples (where_ info) tbs (row_cache w))))))
    ∧ row_cache w' = ∅.
Proof.
  intros Hreq Hagg Hscan Hpred Hproj.
  unfold select_rows, assert_db_open. rewrite Hreq, Hagg.
  set (w0 := fprint [OutEndl]
               (if decide (length (exprs info) = 0)
                then fprint (header_tables tbs)
                       (fprint (header_names (to_string <$> exprs info)) w)
                else fprint (header_names (to_string <$> exprs info)) w)).
  assert (Hc0 : row_cache (set_locals 0%Z w0) = row_cache w).
  { subst w0. by destruct (decide (length (exprs info) = 0)). }
  assert (Ho0 : count_endl (output_file w0) = (count_endl (output_file w) + 1)%Z).
  { subst w0. destruct (decide (length (exprs info) = 0));
      cbn [fprint output_file];
      rewrite !count_endl_app, ?count_endl_header_names, ?count_endl_header_tables;
      simpl; lia. }
  assert (Htuples : ∀ (measure : world Z → Z) (next : Z → Z),
            (∀ tl rl rids w1 w2,
               select_callback (exprs info) tl rl rids w1 = Ok (w2, true) →
               count_endl (output_file w2) = (count_endl (output_file w1) + 1)%Z →
               locals w2 = wrap_int (locals w1 + 1) →
               measure w2 = next (measure w1)) →
            ∀ rms, rms ∈ product tbs →
              counted_tuple (select_callback (exprs info)) measure next tbs (where_ info)
                (row_cache w) rms).
  { intros measure next Hmeasure rms Hrms. unfold counted_tuple.
    destruct (Hpred rms Hrms) as [b Hb]. rewrite Hb. destruct b; [|done].
    intros tl rl rids w1 Hw1 Hlen.
    destruct (select_callback_counts (exprs info) tl rl rids w1) as (w2 & Hr & Hc & Hl & Ho).
    { intros e He. rewrite Hw1. apply Hproj; [|done].
      apply list_elem_of_filter. done. }
    { done. }
    exists w2. split; [done|]. split; [done|]. by eapply Hmeasure. }
  destruct (iterate_counts (select_callback (exprs info)) locals
              (λ z, wrap_int (z + 1)) tbs (where_ info)
              (row_cache w)) with (uninit := uninit) (w := set_locals 0%Z w0)
    as (w1 & Hr1 & Hm1); try done.
  { apply Htuples. intros; done. }
  destruct (iterate_counts (select_callback (exprs info))
              (λ w, count_endl (output_file w)) Z.succ tbs (where_ info)
              (row_cache w)) with (uninit := uninit) (w := set_locals 0%Z w0)
    as (w2 & Hr2 & Hm2); try done.
  { apply Htuples. intros; lia. }
  rewrite Hr1 in Hr2. injection Hr2 as <-.
  rewrite Hr1. obind. eexists. split; [done|].
  cbn [cache_clear set_locals fprint puts output_file console row_cache].
  rewrite count_endl_app, Hm2, iter_succ_count. cbn [set_locals output_file locals].
  rewrite Ho0. split; [simpl; lia|]. split; [|done].
  intros Hfit. rewrite last_snoc, Hm1. cbn [set_locals locals].
  rewrite counter_exact by (unfold INT_MIN; lia). by rewrite Z.add_0_l.
Qed.

Lemma select_emits_true_tuples_witness :
  ∃ w',
    select_rows (H:=sample_evaluator [div_T; scan_U]) 0 (Some (Database [div_T; scan_U]))
      scan_info (empty_world ()) = Ok w'
    ∧ count_endl (output_file w') = 3%Z
    ∧ last (console w') = Some "[Info] 1 row(s) selected."
    ∧ row_cache w' = ∅.
Proof.
  destruct (select_emits_true_tuples (H:=sample_evaluator [div_T; scan_U]) 0
              (Database [div_T; scan_U]) scan_info [div_T; scan_U] (empty_world ()))
    as (w' & Hr & Ho & Hc & Hcache).
  - reflexivity.
  - reflexivity.
  - right. split; [simpl; lia|]. split; [vm_compute; discriminate|]. split.
    + repeat constructor; intros [[|[|[|?]]]|]; reflexivity.
    + eexists _, _, _, _. repeat split; vm_compute; reflexivity.
  - apply Forall_forall.
    let l := eval vm_compute in (product [div_T; scan_U]) in
    change (product [div_T; scan_U]) with l.
    repeat constructor; eexists; vm_compute; reflexivity.
  - intros rms e Hrms He.
    apply list_elem_of_singleton in He as ->.
    assert (Ht : true_tuples (H:=sample_evaluator [div_T; scan_U]) (where_ scan_info)
                   [div_T; scan_U] (row_cache (empty_world ()))
                 = [[RecordManager 2 [Some 1%Z; Some 1%Z]; RecordManager 1 [Some 1%Z]]])
      by (vm_compute; reflexivity).
    rewrite Ht in Hrms. apply list_elem_of_singleton in Hrms as ->.
    eexists. vm_compute. reflexivity.
  - exists w'. split; [exact Hr|]. split; [|split; [|exact Hcache]].
    + rewrite Ho. vm_compute. reflexivity.
    + rewrite Hc by (vm_compute; discriminate). vm_compute. reflexivity.
Defined.

(** * Further properties *)

(** ** Invariants of the iterators *)

Tactic Notation "bind_inv" hyp(H) ident(x) ident(Hx) :=
  apply bind_Ok_inv in H as (x & Hx & H).

Section scan_invariant.
Context `{Evaluator} {L : Type}.
Variable callback :
  list table_manager → list (option record_manager) → list Z → world L
  → outcome (world L * bool).
Variable cond : option expr_node_t.
Variables Inv Stop : world L → Prop.

Hypothesis Inv_cache : ∀ tb rm w, Inv w → Inv (cache_record tb rm w).
Hypothesis Inv_puts : ∀ msg w, Inv w → Inv (puts msg w).
Hypothesis Stop_puts : ∀ msg w, Stop w → Stop (puts msg w).
Hypothesis callback_step :
  ∀ tl rl rids w w' go,
    Inv w → holds cond (row_cache w) = inr true →
    callback tl rl rids w = Ok (w', go) → if go : bool then Inv w' else Stop w'.

Lemma iterate_one_table_loop_inv (tb : table_manager) (tbs : list table_manager)
  (it : list record_manager) (w w' : world L) :
  Inv w →
  iterate_one_table_loop tb cond (λ _ rm rid, callback tbs [Some rm] [rid]) it w = Ok w' →
  Inv w' ∨ Stop w'.
Proof.
  revert w. induction it as [|rm it IH]; intros w HI Hr.
  - injection Hr as <-. by left.
  - cbn [iterate_one_table_loop] in Hr. unfold eval_cond in Hr.
    change (match cond with
            | Some c => eval_bool (row_cache (cache_record tb rm w)) c
            | None => inr true
            end) with (holds cond (row_cache (cache_record tb rm w))) in Hr.
    pose proof (Inv_cache tb rm w HI) as HI1.
    destruct (holds cond (row_cache (cache_record tb rm w))) as [msg|[|]] eqn:Hh.
    + injection Hr as <-. left. by apply Inv_puts.
    + bind_inv Hr r Hcb. destruct r as [w1 go].
      pose proof (callback_step _ _ _ _ _ _ HI1 Hh Hcb) as Hstep.
      destruct go; [by eapply IH|]. injection Hr as <-. by right.
    + by eapply IH.
Qed.

Lemma impl_scan_loop_inv
  (inner : world L → cursor → outcome (world L * cursor * bool))
  (tb : table_manager) (ord : nat) (it : list record_manager) (w : world L)
  (cur : cursor) (r : world L * cursor * bool) :
  (∀ w cur r, Inv w → inner w cur = Ok r → flagged Inv Stop r) →
  Inv w → impl_scan_loop inner tb ord it w cur = Ok r → flagged Inv Stop r.
Proof.
  intros Hinner. revert w cur. induction it as [|rm it IH]; intros w cur HI Hr.
  - injection Hr as <-. exact HI.
  - cbn [impl_scan_loop] in Hr.
    bind_inv Hr rids Hrids. bind_inv Hr recs Hrecs. bind_inv Hr r1 Hr1.
    destruct r1 as [[w1 cur1] ret].
    pose proof (Hinner _ _ _ (Inv_cache tb rm w HI) Hr1) as Hpost.
    destruct ret; [by eapply IH; [exact Hpost|]|]. injection Hr as <-. exact Hpost.
Qed.

Lemma impl_probe_loop_inv (index_cond : list (list (option expr_node_t)))
  (inner : world L → cursor → outcome (world L * cursor * bool))
  (tb2 : table_manager) (ord ord1 : nat) (it : list record_manager) (w : world L)
  (cur : cursor) (r : world L * cursor * bool) :
  (∀ w cur r, Inv w → inner w cur = Ok r → flagged Inv Stop r) →
  Inv w → impl_probe_loop index_cond inner tb2 ord ord1 it w cur = Ok r → flagged Inv Stop r.
Proof.
  intros Hinner. revert w cur. induction it as [|rm it IH]; intros w cur HI Hr.
  - injection Hr as <-. exact HI.
  - cbn [impl_probe_loop] in Hr.
    bind_inv Hr jn Hjn. bind_inv Hr join_cond Hjc.
    pose proof (Inv_cache tb2 rm w HI) as HI1.
    destruct (eval_cond join_cond (cache_record tb2 rm w)) as [msg|[|]].
    + injection Hr as <-. left. by apply Inv_puts.
    + bind_inv Hr rids Hrids. bind_inv Hr recs Hrecs. bind_inv Hr r1 Hr1.
      destruct r1 as [[w1 cur1] ret].
      pose proof (Hinner _ _ _ HI1 Hr1) as Hpost.
      destruct ret; [by eapply IH; [exact Hpost|]|]. injection Hr as <-. exact Hpost.
    + injection Hr as <-. exact HI1.
Qed.

Lemma iterate_many_tables_impl_inv (table_list : list table_manager)
  (index_cond : list (list (option expr_node_t))) (iter_order : list nat)
  (index_cid : list (option nat)) (index : list (option index_manager))
  (level : nat) (w : world L) (cur : cursor) (r : world L * cursor * bool) :
  Inv w →
  iterate_many_tables_impl table_list index_cond iter_order index_cid index cond
    callback level w cur = Ok r →
  flagged Inv Stop r.
Proof.
  revert w cur r. induction level as [|now IH]; intros w cur r HI Hr.
  - cbn [iterate_many_tables_impl] in Hr. unfold eval_cond in Hr.
    change (match cond with
            | Some c => eval_bool (row_cache w) c
            | None => inr true
            end) with (holds cond (row_cache w)) in Hr.
    destruct (holds cond (row_cache w)) as [msg|[|]] eqn:Hh.
    + injection Hr as <-. left. by apply Inv_puts.
    + bind_inv Hr r1 Hcb. destruct r1 as [w1 go]. injection Hr as <-.
      pose proof (callback_step _ _ _ _ _ _ HI Hh Hcb) as Hstep.
      unfold flagged. simpl. destruct go; [done|by right].
    + injection Hr as <-. exact HI.
  - cbn [iterate_many_tables_impl] in Hr.
    bind_inv Hr idx Hidx. destruct idx as [idx|].
    + bind_inv Hr ord1 Hord1. bind_inv Hr tb1 Htb1. bind_inv Hr cid Hcid.
      bind_inv Hr ord Hord. bind_inv Hr tb2 Htb2. bind_inv Hr tb2_it Hit.
      eapply impl_probe_loop_inv; [|exact HI|exact Hr]. intros; by eapply IH.
    + bind_inv Hr ord Hord. bind_inv Hr tb Htb.
      eapply impl_scan_loop_inv; [|exact HI|exact Hr]. intros; by eapply IH.
Qed.

Lemma iterate_many_tables_inv (uninit : Z) (tbs : list table_manager) (w w' : world L) :
  Inv w → iterate_many_tables uninit callback tbs cond w = Ok w' → Inv w' ∨ Stop w'.
Proof.
  intros HI Hr. unfold iterate_many_tables in Hr.
  bind_inv Hr c Hc. bind_inv Hr and_cond Hand. bind_inv Hr g Hg.
  destruct g as [msg|g].
  - injection Hr as <-. left. by apply Inv_puts.
  - bind_inv Hr plan Hplan. destruct plan as [path max_depth].
    bind_inv Hr vars Hvars. destruct vars as [index_ref index_cid].
    bind_inv Hr r Himpl. destruct r as [[w1 cur1] b].
    bind_inv Hr order Horder. bind_inv Hr uses Huses. injection Hr as <-.
    pose proof (iterate_many_tables_impl_inv _ _ _ _ _ _ _ _ _ HI Himpl) as Hpost.
    unfold flagged in Hpost. simpl in Hpost.
    destruct b; [left; by do 2 apply Inv_puts|].
    destruct Hpost; [left; by do 2 apply Inv_puts|right; by do 2 apply Stop_puts].
Qed.

End scan_invariant.

Section iterate_invariant.
Context `{Evaluator} {L : Type}.
Variable callback :
  list table_manager → list (option record_manager) → list Z → world L
  → outcome (world L * bool).
Variable cond : option expr_node_t.
Variable Inv : world L → Prop.

Hypothesis Inv_cache : ∀ tb rm w, Inv w → Inv (cache_record tb rm w).
Hypothesis Inv_puts : ∀ msg w, Inv w → Inv (puts msg w).
Hypothesis callback_step :
  ∀ tl rl rids w w' go,
    Inv w → holds cond (row_cache w) = inr true →
    callback tl rl rids w = Ok (w', go) → Inv w'.

Lemma probe_loop_inv (tb1 tb2 : table_manager) (tb1_rm : record_manager)
  (c : expr_node_t) (it : list record_manager) (w : world L) (r : world L * bool) :
  cond = Some c → Inv w →
  probe_loop callback tb1 tb2 tb1_rm c it w = Ok r → Inv r.1.
Proof.
  intros Hc. revert w. induction it as [|rm it IH]; intros w HI Hr.
  - injection Hr as <-. exact HI.
  - cbn [probe_loop] in Hr.
    pose proof (Inv_cache tb2 rm w HI) as HI1.
    destruct (eval_cond c (cache_record tb2 rm w)) as [msg|[|]] eqn:Hh.
    + injection Hr as <-. by apply Inv_puts.
    + bind_inv Hr r1 Hcb. destruct r1 as [w1 go].
      assert (HI2 : Inv w1).
      { eapply callback_step; [exact HI1| |exact Hcb]. by rewrite Hc. }
      destruct go; [by eapply IH|]. by injection Hr as <-.
    + by injection Hr as <-.
Qed.

Lemma driver_loop_inv (tb1 tb2 : table_manager) (cid1 : nat) (idx2 : index_manager)
  (c : expr_node_t) (it : list record_manager) (w w' : world L) :
  cond = Some c → Inv w →
  driver_loop callback tb1 tb2 cid1 idx2 c it w = Ok w' → Inv w'.
Proof.
  intros Hc. revert w. induction it as [|rm it IH]; intros w HI Hr.
  - by injection Hr as <-.
  - cbn [driver_loop] in Hr.
    pose proof (Inv_cache tb1 rm w HI) as HI1.
    destruct (get_cached_column tb1 (Some cid1) (cache_record tb1 rm w)) as [tb1_col|].
    + bind_inv Hr r1 Hprobe. destruct r1 as [w1 returned].
      pose proof (probe_loop_inv _ _ _ _ _ _ _ Hc HI1 Hprobe) as HI2. simpl in HI2.
      destruct returned; [by injection Hr as <-|by eapply IH].
    + by eapply IH.
Qed.

Lemma index_join_inv (tb1 tb2 : table_manager) (w : world L) (r : world L * bool) :
  Inv w →
  iterate_two_tables_with_joint_cond_equal callback tb1 tb2 cond w = Ok r → Inv r.1.
Proof.
  intros HI Hr. unfold iterate_two_tables_with_joint_cond_equal in Hr.
  bind_inv Hr j Hj. destruct j as [jc|]; [|by injection Hr as <-].
  assert (Hc : cond = Some jc).
  { unfold get_join_cond in Hj. destruct cond as [c|]; [|discriminate].
    bind_inv Hj b Hb. destruct b; [by injection Hj as <-|discriminate]. }
  destruct (decide (op jc ≠ OPERATOR_EQ)); [by injection Hr as <-|].
  bind_inv Hr l Hl. bind_inv Hr lref Hlref.
  destruct (decide (table lref ≠ get_table_name tb1)).
  - bind_inv Hr r' Hr'. bind_inv Hr rref Hrref.
    destruct (lookup_column tb2 (column lref)) as [cid1|]; [|by injection Hr as <-].
    destruct (lookup_column tb1 (column rref)) as [cid2|]; [|by injection Hr as <-].
    destruct (get_index tb2 (Some cid1)) as [idx1|], (get_index tb1 (Some cid2)) as [idx2|];
      try (bind_inv Hr w1 Hloop; injection Hr as <-; by eapply driver_loop_inv).
    injection Hr as <-. by apply Inv_puts.
  - bind_inv Hr r' Hr'. bind_inv Hr rref Hrref.
    destruct (lookup_column tb1 (column lref)) as [cid1|]; [|by injection Hr as <-].
    destruct (lookup_column tb2 (column rref)) as [cid2|]; [|by injection Hr as <-].
    destruct (get_index tb1 (Some cid1)) as [idx1|], (get_index tb2 (Some cid2)) as [idx2|];
      try (bind_inv Hr w1 Hloop; injection Hr as <-; by eapply driver_loop_inv).
    injection Hr as <-. by apply Inv_puts.
Qed.

Lemma iterate_inv (uninit : Z) (tbs : list table_manager) (w w' : world L) :
  Inv w → iterate uninit callback tbs cond w = Ok w' → Inv w'.
Proof.
  intros HI Hr.
  assert (Hstep : ∀ tl rl rids w w' go,
            Inv w → holds cond (row_cache w) = inr true →
            callback tl rl rids w = Ok (w', go) → if go : bool then Inv w' else Inv w').
  { intros tl rl rids w1 w2 go HI1 Hh Hcb. destruct go; by eapply callback_step. }
  assert (Hone : ∀ tb it w w',
            Inv w →
            iterate_one_table_loop tb cond (λ _ rm rid, callback tbs [Some rm] [rid]) it w
            = Ok w' → Inv w').
  { intros tb it w1 w2 HI1 Hloop.
    destruct (iterate_one_table_loop_inv callback cond Inv Inv Inv_cache Inv_puts Hstep
                tb tbs it w1 w2 HI1 Hloop); done. }
  assert (Hmany : ∀ w w',
            Inv w → iterate_many_tables uninit callback tbs cond w = Ok w' → Inv w').
  { intros w1 w2 HI1 Hm.
    destruct (iterate_many_tables_inv callback cond Inv Inv Inv_cache Inv_puts Inv_puts Hstep
                uninit tbs w1 w2 HI1 Hm); done. }
  destruct tbs as [|tb1 [|tb2 [|tb3 rest]]]; cbn [iterate] in Hr.
  - bind_inv Hr w1 Hm. injection Hr as <-. apply Inv_puts. by eapply Hmany.
  - by eapply Hone.
  - bind_inv Hr r Hjoin. destruct r as [w1 joined].
    pose proof (index_join_inv _ _ _ _ HI Hjoin) as HI1. simpl in HI1.
    destruct joined; [injection Hr as <-; by apply Inv_puts|].
    bind_inv Hr w2 Hm. injection Hr as <-. apply Inv_puts. by eapply Hmany.
  - bind_inv Hr w1 Hm. injection Hr as <-. apply Inv_puts. by eapply Hmany.
Qed.

End iterate_invariant.

(** ** Two consumers that agree where the scan calls them *)

Section consumer_ext.
Context `{Evaluator} {L : Type}.
Variables callback1 callback2 :
  list table_manager → list (option record_manager) → list Z → world L
  → outcome (world L * bool).
Variable cond : option expr_node_t.
Variable Inv : world L → Prop.

Hypothesis Inv_cache : ∀ tb rm w, Inv w → Inv (cache_record tb rm w).
Hypothesis Inv_puts : ∀ msg w, Inv w → Inv (puts msg w).
Hypothesis continue_step :
  ∀ tl rl rids w w',
    Inv w → holds cond (row_cache w) = inr true →
    callback1 tl rl rids w = Ok (w', true) → Inv w'.
Hypothesis agree :
  ∀ tl rl rids w,
    Inv w → holds cond (row_cache w) = inr true →
    callback1 tl rl rids w = callback2 tl rl rids w.

Lemma continue_flagged (tl : list table_manager) (rl : list (option record_manager))
  (rids : list Z) (w w' : world L) (go : bool) :
  Inv w → holds cond (row_cache w) = inr true →
  callback1 tl rl rids w = Ok (w', go) → if go then Inv w' else True.
Proof. intros HI Hh Hcb. destruct go; [by eapply continue_step|done]. Qed.

Lemma iterate_one_table_loop_ext (tb : table_manager) (tbs : list table_manager)
  (it : list record_manager) (w : world L) :
  Inv w →
  iterate_one_table_loop tb cond (λ _ rm rid, callback1 tbs [Some rm] [rid]) it w
  = iterate_one_table_loop tb cond (λ _ rm rid, callback2 tbs [Some rm] [rid]) it w.
Proof.
  revert w. induction it as [|rm it IH]; intros w HI; [done|].
  cbn [iterate_one_table_loop]. unfold eval_cond.
  change (match cond with
          | Some c => eval_bool (row_cache (cache_record tb rm w)) c
          | None => inr true
          end) with (holds cond (row_cache (cache_record tb rm w))).
  pose proof (Inv_cache tb rm w HI) as HI1.
  destruct (holds cond (row_cache (cache_record tb rm w))) as [msg|[|]] eqn:Hh; [done| |].
  - rewrite <- (agree _ _ _ _ HI1 Hh).
    destruct (callback1 tbs [Some rm] [rid rm] (cache_record tb rm w))
      as [[w1 go]|f] eqn:Hcb; [|done].
    obind. destruct go; [|done]. apply IH. by eapply continue_step.
  - by apply IH.
Qed.

Lemma impl_scan_loop_ext
  (inner1 inner2 : world L → cursor → outcome (world L * cursor * bool))
  (tb : table_manager) (ord : nat) (it : list record_manager) (w : world L)
  (cur : cursor) :
  (∀ w cur, Inv w → inner1 w cur = inner2 w cur) →
  (∀ w cur r, Inv w → inner1 w cur = Ok r → flagged Inv (λ _, True) r) →
  Inv w →
  impl_scan_loop inner1 tb ord it w cur = impl_scan_loop inner2 tb ord it w cur.
Proof.
  intros Hext Hinv. revert w cur. induction it as [|rm it IH]; intros w cur HI; [done|].
  cbn [impl_scan_loop].
  destruct (vec_set (rid_list cur) ord (rid rm)) as [rids|f]; [|done]. obind.
  destruct (vec_set (record_list cur) ord (Some rm)) as [recs|f]; [|done]. obind.
  pose proof (Inv_cache tb rm w HI) as HI1.
  rewrite <- (Hext _ _ HI1).
  destruct (inner1 (cache_record tb rm w) (Cursor recs rids)) as [[[w1 cur1] ret]|f] eqn:Hr;
    [|done].
  obind. destruct ret; [|done]. apply IH. exact (Hinv _ _ _ HI1 Hr).
Qed.

Lemma impl_probe_loop_ext (index_cond : list (list (option expr_node_t)))
  (inner1 inner2 : world L → cursor → outcome (world L * cursor * bool))
  (tb2 : table_manager) (ord ord1 : nat) (it : list record_manager) (w : world L)
  (cur : cursor) :
  (∀ w cur, Inv w → inner1 w cur = inner2 w cur) →
  (∀ w cur r, Inv w → inner1 w cur = Ok r → flagged Inv (λ _, True) r) →
  Inv w →
  impl_probe_loop index_cond inner1 tb2 ord ord1 it w cur
  = impl_probe_loop index_cond inner2 tb2 ord ord1 it w cur.
Proof.
  intros Hext Hinv. revert w cur. induction it as [|rm it IH]; intros w cur HI; [done|].
  cbn [impl_probe_loop].
  destruct (mat_get index_cond ord ord1) as [jn|f]; [|done]. obind.
  destruct jn as [join_cond|]; [|done]. obind.
  pose proof (Inv_cache tb2 rm w HI) as HI1.
  destruct (eval_cond join_cond (cache_record tb2 rm w)) as [msg|[|]]; [done| |done].
  destruct (vec_set (rid_list cur) ord (rid rm)) as [rids|f]; [|done]. obind.
  destruct (vec_set (record_list cur) ord (Some rm)) as [recs|f]; [|done]. obind.
  rewrite <- (Hext _ _ HI1).
  destruct (inner1 (cache_record tb2 rm w) (Cursor recs rids)) as [[[w1 cur1] ret]|f] eqn:Hr;
    [|done].
  obind. destruct ret; [|done]. apply IH. exact (Hinv _ _ _ HI1 Hr).
Qed.

Lemma iterate_many_tables_impl_ext (table_list : list table_manager)
  (index_cond : list (list (option expr_node_t))) (iter_order : list nat)
  (index_cid : list (option nat)) (index : list (option index_manager))
  (level : nat) (w : world L) (cur : cursor) :
  Inv w →
  iterate_many_tables_impl table_list index_cond iter_order index_cid index cond
    callback1 level w cur
  = iterate_many_tables_impl table_list index_cond iter_order index_cid index cond
      callback2 level w cur.
Proof.
  assert (Hinv : ∀ level w cur r,
            Inv w →
            iterate_many_tables_impl table_list index_cond iter_order index_cid index
              cond callback1 level w cur = Ok r →
            flagged Inv (λ _, True) r).
  { intros level' w' cur' r HI Hr.
    eapply (iterate_many_tables_impl_inv callback1 cond Inv (λ _, True));
      [exact Inv_cache|exact Inv_puts|exact continue_flagged|exact HI|exact Hr]. }
  revert w cur. induction level as [|now IH]; intros w cur HI.
  - cbn [iterate_many_tables_impl]. unfold eval_cond.
    change (match cond with
            | Some c => eval_bool (row_cache w) c
            | None => inr true
            end) with (holds cond (row_cache w)).
    destruct (holds cond (row_cache w)) as [msg|[|]] eqn:Hh; [done| |done].
    by rewrite (agree _ _ _ _ HI Hh).
  - cbn [iterate_many_tables_impl].
    destruct (vec_get index now) as [[idx|]|f]; [| |done]; obind.
    + destruct (vec_get iter_order (S now)) as [ord1|f]; [|done]. obind.
      destruct (vec_get table_list ord1) as [tb1|f]; [|done]. obind.
      destruct (vec_get index_cid now) as [cid|f]; [|done]. obind.
      destruct (vec_get iter_order now) as [ord|f]; [|done]. obind.
      destruct (vec_get table_list ord) as [tb2|f]; [|done]. obind.
      destruct (match get_cached_column tb1 cid w with
                | Some tb_col => Ok (get_iterator_lower_bound idx tb_col)
                | None => lower_bound_null idx
                end) as [tb2_it|f]; [|done]. obind.
      apply impl_probe_loop_ext; [exact IH|apply Hinv|exact HI].
    + destruct (vec_get iter_order now) as [ord|f]; [|done]. obind.
      destruct (vec_get table_list ord) as [tb|f]; [|done]. obind.
      apply impl_scan_loop_ext; [exact IH|apply Hinv|exact HI].
Qed.

Lemma iterate_many_tables_ext (uninit : Z) (tbs : list table_manager) (w : world L) :
  Inv w →
  iterate_many_tables uninit callback1 tbs cond w
  = iterate_many_tables uninit callback2 tbs cond w.
Proof.
  intros HI. unfold iterate_many_tables.
  destruct (deref cond) as [c|f]; [|done]. obind.
  destruct (extract_and_cond c []) as [and_cond|f]; [|done]. obind.
  destruct (setup_join_graph tbs and_cond (empty_graph (length tbs))) as [[msg|g]|f];
    [done| |done]. obind.
  destruct (plan_iteration_order (E g) (length tbs) uninit) as [[path max_depth]|f];
    [|done]. obind.
  destruct (setup_iteration_variables tbs (J g) path (seq 0 max_depth)
              (replicate (length tbs) None) (replicate (length tbs) None))
    as [[index_ref index_cid]|f]; [|done]. obind.
  by rewrite iterate_many_tables_impl_ext.
Qed.

End consumer_ext.

Section consumer_ext_all.
Context `{Evaluator} {L : Type}.
Variables callback1 callback2 :
  list table_manager → list (option record_manager) → list Z → world L
  → outcome (world L * bool).
Variable cond : option expr_node_t.
Variable Inv : world L → Prop.

Hypothesis Inv_cache : ∀ tb rm w, Inv w → Inv (cache_record tb rm w).
Hypothesis Inv_puts : ∀ msg w, Inv w → Inv (puts msg w).
Hypothesis callback_step :
  ∀ tl rl rids w w' go,
    Inv w → holds cond (row_cache w) = inr true →
    callback1 tl rl rids w = Ok (w', go) → Inv w'.
Hypothesis agree :
  ∀ tl rl rids w,
    Inv w → holds cond (row_cache w) = inr true →
    callback1 tl rl rids w = callback2 tl rl rids w.

Lemma probe_loop_ext (tb1 tb2 : table_manager) (tb1_rm : record_manager)
  (c : expr_node_t) (it : list record_manager) (w : world L) :
  cond = Some c → Inv w →
  probe_loop callback1 tb1 tb2 tb1_rm c it w = probe_loop callback2 tb1 tb2 tb1_rm c it w.
Proof.
  intros Hc. revert w. induction it as [|rm it IH]; intros w HI; [done|].
  cbn [probe_loop].
  pose proof (Inv_cache tb2 rm w HI) as HI1.
  destruct (eval_cond c (cache_record tb2 rm w)) as [msg|[|]] eqn:Hh; [done| |done].
  assert (Hh' : holds cond (row_cache (cache_record tb2 rm w)) = inr true)
    by (by rewrite Hc).
  rewrite <- (agree _ _ _ _ HI1 Hh').
  destruct (callback1 [tb1; tb2] [Some tb1_rm; Some rm] [rid tb1_rm; rid rm]
              (cache_record tb2 rm w)) as [[w1 go]|f] eqn:Hcb; [|done].
  obind. destruct go; [|done]. apply IH. by eapply callback_step.
Qed.

Lemma driver_loop_ext (tb1 tb2 : table_manager) (cid1 : nat) (idx2 : index_manager)
  (c : expr_node_t) (it : list record_manager) (w : world L) :
  cond = Some c → Inv w →
  driver_loop callback1 tb1 tb2 cid1 idx2 c it w
  = driver_loop callback2 tb1 tb2 cid1 idx2 c it w.
Proof.
  intros Hc. revert w. induction it as [|rm it IH]; intros w HI; [done|].
  cbn [driver_loop].
  pose proof (Inv_cache tb1 rm w HI) as HI1.
  destruct (get_cached_column tb1 (Some cid1) (cache_record tb1 rm w)) as [tb1_col|];
    [|by apply IH].
  rewrite <- (probe_loop_ext _ _ _ _ _ _ Hc HI1).
  destruct (probe_loop callback1 tb1 tb2 rm c (get_iterator_lower_bound idx2 tb1_col)
              (cache_record tb1 rm w)) as [[w1 returned]|f] eqn:Hprobe; [|done].
  obind. destruct returned; [done|]. apply IH.
  exact (probe_loop_inv callback1 cond Inv Inv_cache Inv_puts callback_step
           _ _ _ _ _ _ _ Hc HI1 Hprobe).
Qed.

Lemma index_join_ext (tb1 tb2 : table_manager) (w : world L) :
  Inv w →
  iterate_two_tables_with_joint_cond_equal callback1 tb1 tb2 cond w
  = iterate_two_tables_with_joint_cond_equal callback2 tb1 tb2 cond w.
Proof.
  intros HI. unfold iterate_two_tables_with_joint_cond_equal.
  destruct (get_join_cond cond) as [[jc|]|f] eqn:Hj; [|done|done]. obind.
  assert (Hc : cond = Some jc).
  { unfold get_join_cond in Hj. destruct cond as [c|]; [|discriminate].
    bind_inv Hj b Hb. destruct b; [by injection Hj as <-|discriminate]. }
  destruct (decide (op jc ≠ OPERATOR_EQ)); [done|].
  destruct (e_left jc) as [l|]; [|done]. obind.
  destruct (column_ref l) as [lref|]; [|done]. obind.
  destruct (decide (table lref ≠ get_table_name tb1)).
  - destruct (e_right jc) as [r|]; [|done]. obind.
    destruct (column_ref r) as [rref|]; [|done]. obind.
    destruct (lookup_column tb2 (column lref)) as [cid1|]; [|done].
    destruct (lookup_column tb1 (column rref)) as [cid2|]; [|done].
    destruct (get_index tb2 (Some cid1)) as [idx1|], (get_index tb1 (Some cid2)) as [idx2|];
      try done; by rewrite (driver_loop_ext _ _ _ _ _ _ _ Hc HI).
  - destruct (e_right jc) as [r|]; [|done]. obind.
    destruct (column_ref r) as [rref|]; [|done]. obind.
    destruct (lookup_column tb1 (column lref)) as [cid1|]; [|done].
    destruct (lookup_column tb2 (column rref)) as [cid2|]; [|done].
    destruct (get_index tb1 (Some cid1)) as [idx1|], (get_index tb2 (Some cid2)) as [idx2|];
      try done; by rewrite (driver_loop_ext _ _ _ _ _ _ _ Hc HI).
Qed.

Lemma iterate_ext (uninit : Z) (tbs : list table_manager) (w : world L) :
  Inv w →
  iterate uninit callback1 tbs cond w = iterate uninit callback2 tbs cond w.
Proof.
  intros HI.
  assert (Hcont : ∀ tl rl rids w w',
            Inv w → holds cond (row_cache w) = inr true →
            callback1 tl rl rids w = Ok (w', true) → Inv w').
  { intros tl rl rids w1 w2 HI1 Hh Hcb. by eapply callback_step. }
  assert (Hmany : ∀ w, Inv w →
            iterate_many_tables uninit callback1 tbs cond w
            = iterate_many_tables uninit callback2 tbs cond w).
  { intros w1 HI1.
    exact (iterate_many_tables_ext callback1 callback2 cond Inv Inv_cache Inv_puts
             Hcont agree uninit tbs w1 HI1). }
  destruct tbs as [|tb1 [|tb2 [|tb3 rest]]]; cbn [iterate].
  - by rewrite Hmany.
  - unfold iterate_one_table.
    exact (iterate_one_table_loop_ext callback1 callback2 cond Inv Inv_cache
             Hcont agree tb1 [tb1] (records tb1) w HI).
  - rewrite <- (index_join_ext _ _ _ HI).
    destruct (iterate_two_tables_with_joint_cond_equal callback1 tb1 tb2 cond w)
      as [[w1 joined]|f] eqn:Hjoin; [|done].
    obind. destruct joined; [done|]. rewrite Hmany; [done|].
    exact (index_join_inv callback1 cond Inv Inv_cache Inv_puts callback_step
             _ _ _ _ HI Hjoin).
  - by rewrite Hmany.
Qed.

End consumer_ext_all.

(** ** What the consumer of [iterate] can rely on *)

(** The consumer is called only on rows on which the predicate is true:
    with every strategy of [iterate] (single table, index join,
    enumeration), a consumer that first asserts that the predicate
    evaluates to true on the current rows of the row cache (an absent
    predicate counting as true) runs exactly as the consumer without the
    assertion. *)
Theorem consumer_called_only_on_true_rows `{Evaluator} {L : Type} (uninit : Z)
  (callback : list table_manager → list (option record_manager) → list Z
              → world L → outcome (world L * bool))
  (tbs : list table_manager) (cond : option expr_node_t) (w : world L) :
  iterate uninit (checked cond callback) tbs cond w = iterate uninit callback tbs cond w.
Proof.
  symmetry.
  apply (iterate_ext callback (checked cond callback) cond (λ _, True)); try done.
  intros tl rl rids w1 _ Hh. unfold checked. by rewrite Hh.
Qed.

(** Over one table the consumer is never called again once it has asked to
    stop: when the consumer keeps in [halted] whether it returned false,
    the consumer that asserts [halted] is unset at each call runs exactly
    as the consumer without the assertion. *)
Theorem one_table_consumer_not_called_after_stop `{Evaluator} {L : Type} (uninit : Z)
  (halted : world L → bool)
  (callback : list table_manager → list (option record_manager) → list Z
              → world L → outcome (world L * bool))
  (tb : table_manager) (cond : option expr_node_t) (w : world L) :
  (∀ tb rm w, halted (cache_record tb rm w) = halted w) →
  (∀ msg w, halted (puts msg w) = halted w) →
  (∀ tl rl rids w w' go,
     halted w = false → callback tl rl rids w = Ok (w', go) → halted w' = negb go) →
  halted w = false →
  iterate uninit (unhalted halted callback) [tb] cond w
  = iterate uninit callback [tb] cond w.
Proof.
  intros Hcache Hputs Hlatch Hw. symmetry. cbn [iterate]. unfold iterate_one_table.
  apply (iterate_one_table_loop_ext callback (unhalted halted callback) cond
           (λ w, halted w = false)); try done.
  - intros tb' rm w1 Hw1. by rewrite Hcache.
  - intros tl rl rids w1 w2 Hw1 _ Hcb. by rewrite (Hlatch _ _ _ _ _ _ Hw1 Hcb).
  - intros tl rl rids w1 Hw1 _. unfold unhalted. by rewrite Hw1.
Qed.

Lemma one_table_consumer_not_called_after_stop_witness :
  final_locals
    (iterate (H:=sample_evaluator [stop_A]) 0 (unhalted has_recorded (record_rids false))
       [stop_A] None (empty_world []))
  = Some [[1%Z]].
Proof.
  rewrite (one_table_consumer_not_called_after_stop (H:=sample_evaluator [stop_A]) 0
             has_recorded (record_rids false) stop_A None (empty_world [])).
  - vm_compute. reflexivity.
  - reflexivity.
  - reflexivity.
  - intros tl rl rids w w' go _ [= <- <-]. unfold has_recorded. simpl.
    by destruct (locals w).
  - reflexivity.
Defined.

(** Over many tables (the enumeration, with or without index probes) the
    consumer is never called again once it has asked to stop: the consumer
    that asserts [halted] is unset at each call runs exactly as the consumer
    without the assertion. *)
Theorem many_tables_consumer_not_called_after_stop `{Evaluator} {L : Type} (uninit : Z)
  (halted : world L → bool)
  (callback : list table_manager → list (option record_manager) → list Z
              → world L → outcome (world L * bool))
  (tbs : list table_manager) (cond : option expr_node_t) (w : world L) :
  (∀ tb rm w, halted (cache_record tb rm w) = halted w) →
  (∀ msg w, halted (puts msg w) = halted w) →
  (∀ tl rl rids w w' go,
     halted w = false → callback tl rl rids w = Ok (w', go) → halted w' = negb go) →
  halted w = false →
  iterate_many_tables uninit (unhalted halted callback) tbs cond w
  = iterate_many_tables uninit callback tbs cond w.
Proof.
  intros Hcache Hputs Hlatch Hw. symmetry.
  apply (iterate_many_tables_ext callback (unhalted halted callback) cond
           (λ w, halted w = false)); try done.
  - intros tb' rm w1 Hw1. by rewrite Hcache.
  - intros msg w1 Hw1. by rewrite Hputs.
  - intros tl rl rids w1 w2 Hw1 _ Hcb. by rewrite (Hlatch _ _ _ _ _ _ Hw1 Hcb).
  - intros tl rl rids w1 Hw1 _. unfold unhalted. by rewrite Hw1.
Qed.

Lemma many_tables_consumer_not_called_after_stop_witness :
  final_locals
    (iterate_many_tables (H:=sample_evaluator [div_T; scan_U]) 0
       (unhalted has_recorded (record_rids false)) [div_T; scan_U] (Some scan_cond)
       (empty_world []))
  = Some [[2%Z; 1%Z]].
Proof.
  rewrite (many_tables_consumer_not_called_after_stop (H:=sample_evaluator [div_T; scan_U])
             0 has_recorded (record_rids false) [div_T; scan_U] (Some scan_cond)
             (empty_world [])).
  - vm_compute. reflexivity.
  - reflexivity.
  - reflexivity.
  - intros tl rl rids w w' go _ [= <- <-]. unfold has_recorded. simpl.
    by destruct (locals w).
  - reflexivity.
Defined.

(** [iterate] keeps what the consumer keeps: with every strategy, a
    property of the world that caching a row and writing to the console
    preserve, and that the consumer preserves when it is called on rows on
    which the predicate is true, holds when [iterate] returns. *)
Theorem iterate_keeps_consumer_invariant `{Evaluator} {L : Type} (uninit : Z)
  (callback : list table_manager → list (option record_manager) → list Z
              → world L → outcome (world L * bool))
  (tbs : list table_manager) (cond : option expr_node_t) (Inv : world L → Prop)
  (w w' : world L) :
  (∀ tb rm w, Inv w → Inv (cache_record tb rm w)) →
  (∀ msg w, Inv w → Inv (puts msg w)) →
  (∀ tl rl rids w w' go,
     Inv w → holds cond (row_cache w) = inr true →
     callback tl rl rids w = Ok (w', go) → Inv w') →
  Inv w → iterate uninit callback tbs cond w = Ok w' → Inv w'.
Proof.
  intros Hcache Hputs Hstep HI Hr.
  exact (iterate_inv callback cond Inv Hcache Hputs Hstep uninit tbs w w' HI Hr).
Qed.

Lemma iterate_keeps_consumer_invariant_witness :
  ∃ w',
    iterate (H:=sample_evaluator [div_T; scan_U]) 0 (record_rids true) [div_T; scan_U]
      (Some scan_cond) (empty_world []) = Ok w'
    ∧ output_file w' = [].
Proof.
  assert (Hrun : ∃ w',
            iterate (H:=sample_evaluator [div_T; scan_U]) 0 (record_rids true)
              [div_T; scan_U] (Some scan_cond) (empty_world []) = Ok w')
    by (eexists; vm_compute; reflexivity).
  destruct Hrun as [w' Hrun]. exists w'. split; [exact Hrun|].
  apply (iterate_keeps_consumer_invariant (H:=sample_evaluator [div_T; scan_U]) 0
           (record_rids true) [div_T; scan_U] (Some scan_cond)
           (λ w, output_file w = []) (empty_world []) w'); try done.
  intros tl rl rids w1 w2 go Hout _ [= <- _]. exact Hout.
Defined.

(** ** The planner: the chain is a longest one *)

Lemma try_neighbours_covers (n : nat) (E : list (list Z)) (bound : Z)
  (now depth fuel : nat) (candidates : list nat) (st st' : search_state)
  (q : nat) (l : list nat) :
  square n E → (Z.of_nat n ≤ bound)%Z →
  visit_covers n E (S depth) fuel (λ i st, find_longest_path fuel i (S depth) E bound st) →
  now < n → Forall (λ i, i < n) candidates →
  search_wf n st → free (s_mark st) ≤ fuel → S depth + free (s_mark st) ≤ n →
  q ∈ candidates → edge E now q →
  head l = Some q → chain E l → NoDup l →
  Forall (λ v, v < n ∧ s_mark st !! v = Some 0%Z) l →
  try_neighbours (λ i st, find_longest_path fuel i (S depth) E bound st)
    E now candidates st = Ok (false, st') →
  (Z.of_nat (S depth + length l) ≤ s_max_depth st' + 1)%Z.
Proof.
  intros HE Hbound Hcov Hnow. revert st.
  induction candidates as [|i candidates IH];
    intros st Hcand Hwf Hfuel Hroom Hq Hedge Hhd Hch Hnd Hall Hr.
  - by apply elem_of_nil in Hq.
  - apply Forall_cons in Hcand as [Hi Hcand].
    assert (Hqmark : q < n ∧ s_mark st !! q = Some 0%Z).
    { rewrite Forall_forall in Hall. apply Hall.
      destruct l as [|x l']; [discriminate|]. injection Hhd as ->. left. }
    cbn [try_neighbours] in Hr.
    destruct (mat_get_lt n E now i HE Hnow Hi) as [e He]. rewrite He in Hr.
    cbn [mbind outcome_bind] in Hr.
    assert (Hrest : i ≠ q → q ∈ candidates).
    { intros Hne. apply elem_of_cons in Hq as [->|Hq]; done. }
    destruct (decide (e = 0%Z)) as [He0|He0].
    { apply (IH st); try done. apply Hrest. intros ->.
      destruct Hedge as (e' & He' & Hne). congruence. }
    destruct (vec_get_lt (s_mark st) i) as (m & Hm & Hmi); [destruct Hwf; lia|].
    rewrite Hm in Hr. cbn [mbind outcome_bind] in Hr.
    destruct (decide (m ≠ 0%Z)) as [Hm0|Hm0].
    { apply (IH st); try done. apply Hrest. intros ->.
      destruct Hqmark as [_ Hq0]. congruence. }
    apply dec_stable in Hm0. subst m.
    destruct (find_longest_path_unbounded n E bound fuel i (S depth) st)
      as (st1 & Hv & Hwf1 & Hmarks1 & Hmd1 & _); try done.
    rewrite Hv in Hr. cbn [mbind outcome_bind] in Hr.
    destruct (decide (i = q)) as [->|Hne].
    + pose proof (Hcov q st st1 l Hwf Hi Hmi Hfuel Hroom Hhd Hch Hnd Hall Hv) as Hreach.
      destruct (try_neighbours_unbounded n E bound now depth fuel candidates st1)
        as (st2 & Hr2 & _ & _ & Hmd2); try done; try (by rewrite Hmarks1).
      rewrite Hr2 in Hr. injection Hr as <-. lia.
    + apply (IH st1); try done; try (by rewrite Hmarks1). by apply Hrest.
Qed.

Lemma find_longest_path_covers (n : nat) (E : list (list Z)) (bound : Z)
  (fuel depth : nat) :
  square n E → (Z.of_nat n ≤ bound)%Z →
  visit_covers n E depth fuel (λ i st, find_longest_path fuel i depth E bound st).
Proof.
  intros HE Hbound. revert depth.
  induction fuel as [|fuel IH];
    intros depth now st st' l Hwf Hnow Hmark Hfuel Hroom Hhd Hch Hnd Hall Hr.
  - pose proof (free_pos _ _ Hmark). lia.
  - pose proof (free_pos _ _ Hmark) as Hpos.
    pose proof (free_mark _ _ Hmark) as Hfree.
    destruct Hwf as [Hlm Hlp].
    cbn [find_longest_path] in Hr.
    rewrite vec_set_lt in Hr by lia. cbn [mbind outcome_bind] in Hr.
    rewrite vec_set_lt in Hr by lia. cbn [mbind outcome_bind] in Hr.
    set (md := if bool_decide (Z.of_nat depth > s_max_depth st)%Z
               then Z.of_nat depth else s_max_depth st) in Hr.
    assert (Hmd : (s_max_depth st ≤ md ∧ Z.of_nat depth ≤ md)%Z).
    { unfold md. destruct (bool_decide_reflect (Z.of_nat depth > s_max_depth st)%Z); lia. }
    clearbody md.
    rewrite (bool_decide_eq_false_2 (Z.of_nat depth = bound)) in Hr by lia.
    set (st1 := SearchState (<[now:=1%Z]> (s_mark st)) (<[depth:=now]> (s_path st)) md)
      in Hr.
    assert (Hwf1 : search_wf n st1).
    { split; simpl; by rewrite length_insert. }
    assert (Hcands : Forall (λ i, i < n) (seq 0 (length E))).
    { apply Forall_forall. intros i Hi. apply elem_of_seq in Hi. destruct HE. lia. }
    destruct (try_neighbours_unbounded n E bound now depth fuel (seq 0 (length E)) st1)
      as (st2 & Hr2 & [Hlm2 Hlp2] & Hmarks2 & Hmd2); try done; try (simpl; lia).
    rewrite Hr2 in Hr. cbn [mbind outcome_bind] in Hr.
    rewrite vec_set_lt in Hr by lia. cbn [mbind outcome_bind] in Hr.
    injection Hr as <-. cbn [s_max_depth].
    destruct l as [|x l']; [discriminate|]. injection Hhd as ->.
    destruct l' as [|q l''].
    + simpl in *. lia.
    + destruct Hch as [Hedge Hch].
      apply NoDup_cons in Hnd as [Hnotin Hnd].
      apply Forall_cons in Hall as [_ Hall].
      assert (Hall1 : Forall (λ v, v < n ∧ s_mark st1 !! v = Some 0%Z) (q :: l'')).
      { rewrite Forall_forall in Hall |- *. intros v Hv.
        destruct (Hall v Hv) as [Hvn Hv0]. split; [done|]. simpl.
        rewrite list_lookup_insert_ne; [done|]. intros ->. done. }
      assert (Hqn : q < n).
      { rewrite Forall_forall in Hall. apply Hall. left. }
      pose proof (try_neighbours_covers n E bound now depth fuel (seq 0 (length E))
                    st1 st2 q (q :: l'') HE Hbound (IH (S depth)) Hnow Hcands Hwf1)
        as Hreach.
      simpl in Hreach |- *.
      assert ((Z.of_nat (S (depth + S (length l''))) ≤ s_max_depth st2 + 1)%Z); [|lia].
      apply Hreach; try done; try lia.
      apply elem_of_seq. destruct HE. lia.
Qed.

Lemma longest_path_starts_max (n : nat) (E : list (list Z)) (starts : list nat)
  (path : list nat) (max_depth : Z) (start : nat) (r : list nat * Z * nat) :
  square n E → (Z.of_nat n ≤ INT_MAX)%Z →
  Forall (λ i, i < n) starts → length path = n →
  longest_path_starts E n starts path max_depth start = Ok r →
  (max_depth ≤ r.1.2)%Z
  ∧ ∀ l i, i ∈ starts → head l = Some i → chain E l → NoDup l →
      Forall (λ v, v < n) l → (Z.of_nat (length l) ≤ r.1.2 + 1)%Z.
Proof.
  intros HE Hbound. revert path max_depth start.
  induction starts as [|i starts IH]; intros path max_depth start Hall Hlen Hr.
  - injection Hr as <-. simpl. split; [lia|]. intros l i Hi. by apply elem_of_nil in Hi.
  - apply Forall_cons in Hall as [Hi Hall]. cbn [longest_path_starts] in Hr.
    assert (Hwf : search_wf n (SearchState (replicate n 0%Z) path 0)).
    { split; simpl; [apply length_replicate|done]. }
    destruct (find_longest_path_unbounded n E INT_MAX (S n) i 0
                (SearchState (replicate n 0%Z) path 0))
      as (stA & HA & [HlmA HlpA] & _ & HmdA & _); try done.
    { simpl. by apply lookup_replicate_2. }
    { simpl. rewrite free_replicate. lia. }
    { simpl. rewrite free_replicate. lia. }
    assert (Hcov : ∀ l, head l = Some i → chain E l → NoDup l → Forall (λ v, v < n) l →
                     (Z.of_nat (length l) ≤ s_max_depth stA + 1)%Z).
    { intros l Hhd Hch Hnd Hbelow.
      apply (find_longest_path_covers n E INT_MAX (S n) 0 HE Hbound i
               (SearchState (replicate n 0%Z) path 0) stA l); try done.
      - simpl. by apply lookup_replicate_2.
      - simpl. rewrite free_replicate. lia.
      - simpl. rewrite free_replicate. lia.
      - eapply Forall_impl; [exact Hbelow|]. simpl. intros v Hv.
        split; [done|]. by apply lookup_replicate_2. }
    rewrite HA in Hr. cbn [mbind outcome_bind] in Hr.
    destruct (bool_decide_reflect (s_max_depth stA > max_depth)%Z) as [Hm|Hm].
    + destruct (IH _ _ _ Hall HlpA Hr) as [Hle Hrest]. split; [lia|].
      intros l j Hj Hhd Hch Hnd Hbelow.
      apply elem_of_cons in Hj as [->|Hj]; [|by eapply Hrest].
      specialize (Hcov l Hhd Hch Hnd Hbelow). lia.
    + destruct (IH _ _ _ Hall HlpA Hr) as [Hle Hrest]. split; [lia|].
      intros l j Hj Hhd Hch Hnd Hbelow.
      apply elem_of_cons in Hj as [->|Hj]; [|by eapply Hrest].
      specialize (Hcov l Hhd Hch Hnd Hbelow). lia.
Qed.

(** The chain the planner puts first is a longest one: when the planner
    returns [max_depth] for the join graph [E] over [n] tables, no simple
    path of [E] has more than [max_depth + 1] vertices. *)
Theorem planner_chain_is_longest (E : list (list Z)) (n : nat) (uninit : Z)
  (path : list nat) (max_depth : nat) (l : list nat) :
  (Z.of_nat n ≤ INT_MAX)%Z → square n E →
  plan_iteration_order E n uninit = Ok (path, max_depth) →
  chain E l → NoDup l → Forall (λ v, v < n) l →
  length l ≤ S max_depth.
Proof.
  intros Hbound HE Hplan Hch Hnd Hbelow. unfold plan_iteration_order in Hplan.
  bind_inv Hplan r Hstarts. destruct r as [[path1 L] start].
  bind_inv Hplan r2 Hsecond. destruct r2 as [found st].
  destruct found; [|discriminate].
  bind_inv Hplan mark Hmark. bind_inv Hplan path2 Hpath. injection Hplan as <- <-.
  assert (Hseq : Forall (λ i, i < n) (seq 0 n)).
  { apply Forall_forall. intros i Hi. apply elem_of_seq in Hi. lia. }
  destruct (longest_path_starts_max n E (seq 0 n) (replicate n 0) 0%Z 0 _ HE Hbound
              Hseq (length_replicate n 0) Hstarts) as [Hpos Hmax].
  simpl in Hpos, Hmax.
  destruct l as [|i l']; [simpl; lia|].
  assert (Hi : i ∈ seq 0 n).
  { apply elem_of_seq. apply Forall_cons in Hbelow as [Hi _]. lia. }
  specialize (Hmax (i :: l') i Hi eq_refl Hch Hnd Hbelow). lia.
Qed.

Lemma planner_chain_is_longest_witness :
  length [1; 0] ≤ 2.
Proof.
  apply (planner_chain_is_longest one_edge 2 0 [1; 0] 1 [1; 0]).
  - vm_compute. discriminate.
  - split; [reflexivity|]. repeat constructor.
  - vm_compute. reflexivity.
  - simpl. split; [|done]. exists 1%Z. split; [reflexivity|done].
  - apply NoDup_cons. split; [|apply NoDup_singleton].
    intros Hin. apply list_elem_of_singleton in Hin. discriminate.
  - repeat constructor.
Defined.

(** ** The planner: the uninitialised [max_depth] of the second search *)

Lemma same_search_bind (r1 r2 : outcome (bool * search_state))
  (k1 k2 : bool * search_state → outcome (bool * search_state)) :
  same_search r1 r2 →
  (∀ b st1 st2, s_mark st1 = s_mark st2 → s_path st1 = s_path st2 →
     same_search (k1 (b, st1)) (k2 (b, st2))) →
  same_search (r1 ≫= k1) (r2 ≫= k2).
Proof.
  destruct r1 as [[b1 st1]|f1], r2 as [[b2 st2]|f2]; simpl; try done.
  intros (-> & Hm & Hp) Hk. by apply Hk.
Qed.

Lemma try_neighbours_same
  (visit1 visit2 : nat → search_state → outcome (bool * search_state))
  (E : list (list Z)) (now : nat) (candidates : list nat) (st1 st2 : search_state) :
  (∀ i st1 st2, s_mark st1 = s_mark st2 → s_path st1 = s_path st2 →
     same_search (visit1 i st1) (visit2 i st2)) →
  s_mark st1 = s_mark st2 → s_path st1 = s_path st2 →
  same_search (try_neighbours visit1 E now candidates st1)
    (try_neighbours visit2 E now candidates st2).
Proof.
  intros Hvisit. revert st1 st2.
  induction candidates as [|i candidates IH]; intros st1 st2 Hm Hp; [done|].
  cbn [try_neighbours].
  destruct (mat_get E now i) as [e|f]; [|done]. obind.
  destruct (decide (e = 0%Z)); [by apply IH|].
  rewrite <- Hm. destruct (vec_get (s_mark st1) i) as [m|f]; [|done]. obind.
  destruct (decide (m ≠ 0%Z)); [by apply IH|].
  apply same_search_bind; [by apply Hvisit|].
  intros b st1' st2' Hm' Hp'. destruct b; [done|]. by apply IH.
Qed.

Lemma find_longest_path_same (fuel now depth : nat) (E : list (list Z))
  (excepted_len : Z) (st1 st2 : search_state) :
  s_mark st1 = s_mark st2 → s_path st1 = s_path st2 →
  same_search (find_longest_path fuel now depth E excepted_len st1)
    (find_longest_path fuel now depth E excepted_len st2).
Proof.
  revert now depth st1 st2. induction fuel as [|fuel IH]; intros now depth st1 st2 Hm Hp;
    [done|].
  cbn [find_longest_path]. rewrite <- Hm, <- Hp.
  destruct (vec_set (s_mark st1) now 1%Z) as [mark1|f]; [|done]. obind.
  destruct (vec_set (s_path st1) depth now) as [path1|f]; [|done]. obind.
  destruct (bool_decide (Z.of_nat depth = excepted_len)); [done|].
  apply same_search_bind.
  - apply try_neighbours_same; [|done|done]. intros i sa sb. apply IH.
  - intros b sa sb Hm' Hp'. destruct b; [done|]. rewrite <- Hm', <- Hp'.
    by destruct (vec_set (s_mark sa) now 0%Z).
Qed.

(** The plan does not depend on the value that the uninitialised [int _]
    holds when the second search receives it as its [max_depth]: the search
    writes it and compares it, but no result is taken from it. *)
Theorem plan_ignores_uninitialised_depth (E : list (list Z)) (n : nat) (uninit1 uninit2 : Z) :
  plan_iteration_order E n uninit1 = plan_iteration_order E n uninit2.
Proof.
  unfold plan_iteration_order.
  destruct (longest_path_starts E n (seq 0 n) (replicate n 0) 0%Z 0)
    as [[[path max_depth] start]|f]; [|done]. obind.
  pose proof (find_longest_path_same (S n) start 0 E max_depth
                (SearchState (replicate n 0%Z) path uninit1)
                (SearchState (replicate n 0%Z) path uninit2) eq_refl eq_refl) as Hsame.
  destruct (find_longest_path (S n) start 0 E max_depth
              (SearchState (replicate n 0%Z) path uninit1)) as [[b1 s1]|f1],
           (find_longest_path (S n) start 0 E max_depth
              (SearchState (replicate n 0%Z) path uninit2)) as [[b2 s2]|f2];
    simpl in Hsame; try done.
  - destruct Hsame as (-> & _ & Hp). obind. by rewrite Hp.
  - by subst.
Qed.

(** ** The planner when no table has an index *)

(** When no table of the statement has an index on any column, whatever
    equalities the predicate holds, the join graph stays without edges and
    the planner keeps the tables in the order of the statement, with no
    index probe planned ([max_depth] is 0). *)
Theorem plan_without_index_is_statement_order (tbs : list table_manager)
  (and_cond : list expr_node_t) (g : join_graph) (uninit : Z) :
  0 < length tbs → Forall no_index tbs →
  setup_join_graph tbs and_cond (empty_graph (length tbs)) = Ok (inr g) →
  g = empty_graph (length tbs)
  ∧ plan_iteration_order (E g) (length tbs) uninit = Ok (seq 0 (length tbs), 0).
Proof.
  intros Hpos Hall Hgraph.
  destruct (setup_join_graph_no_index tbs and_cond _ g Hall Hgraph) as [-> _].
  split; [done|]. cbn [E empty_graph]. by apply plan_without_edges.
Qed.

Lemma plan_without_index_is_statement_order_witness :
  plan_iteration_order (replicate 2 (replicate 2 0%Z)) 2 7 = Ok ([0; 1], 0).
Proof.
  destruct (plan_without_index_is_statement_order [div_T; scan_U]
              [binop OPERATOR_EQ (col "T" "a") (col "U" "c")]
              (empty_graph 2) 7) as [_ Hplan].
  - simpl. lia.
  - repeat constructor; intros [[|[|[|?]]]|]; reflexivity.
  - vm_compute. reflexivity.
  - exact Hplan.
Defined.

(** ** SELECT over a table that does not exist *)

Lemma get_required_tables_missing (db : database) (names : list string) (name : string) :
  name ∈ names → get_table db name = None →
  ∃ missing, get_required_tables db names = inl missing
    ∧ missing ∈ names ∧ get_table db missing = None.
Proof.
  intros Hin Hnone. induction names as [|x names IH]; [by apply elem_of_nil in Hin|].
  cbn [get_required_tables].
  destruct (get_table db x) as [tm|] eqn:Hx.
  - apply elem_of_cons in Hin as [->|Hin]; [congruence|].
    destruct (IH Hin) as (missing & -> & Hm & Hnone'). exists missing.
    split; [done|]. split; [by right|done].
  - exists x. split; [done|]. split; [left|done].
Qed.

(** When a table named in the statement does not exist in the open
    database, SELECT reports a missing table on the console, writes
    nothing to the output file (no header line) and scans no table; the
    row cache is cleared as the statement is left. *)
Theorem select_of_missing_table_writes_nothing `{Evaluator} (uninit : Z) (db : database)
  (info : select_info_t) (name : string) (w : world ()) :
  name ∈ select_tables info → get_table db name = None →
  ∃ missing,
    missing ∈ select_tables info ∧ get_table db missing = None
    ∧ select_rows uninit (Some db) info w
      = Ok (cache_clear (puts ("[Error] table `" +:+ missing +:+ "` doesn't exists.") w)).
Proof.
  intros Hin Hnone.
  destruct (get_required_tables_missing db (select_tables info) name Hin Hnone)
    as (missing & Hreq & Hm & Hnone').
  exists missing. split; [done|]. split; [done|].
  unfold select_rows, assert_db_open. by rewrite Hreq.
Qed.

Lemma select_of_missing_table_writes_nothing_witness :
  ∃ missing,
    missing ∈ ["T"; "V"; "W"] ∧ get_table (Database [div_T; scan_U]) missing = None
    ∧ select_rows (H:=sample_evaluator [div_T; scan_U]) 0 (Some (Database [div_T; scan_U]))
        (SelectInfo ["T"; "V"; "W"] [] None) (empty_world ())
      = Ok (cache_clear
              (puts ("[Error] table `" +:+ missing +:+ "` doesn't exists.")
                 (empty_world ()))).
Proof.
  apply (select_of_missing_table_writes_nothing (H:=sample_evaluator [div_T; scan_U]) 0
           (Database [div_T; scan_U]) (SelectInfo ["T"; "V"; "W"] [] None) "W").
  - simpl. right. right. left.
  - reflexivity.
Defined.

(** ** Aggregates *)

Lemma aggregate_callback_count `{Evaluator} (expr : expr_node_t)
  (tables : list table_manager) (records : list (option record_manager))
  (rids : list Z) (w : world aggregate_state) :
  op expr = OPERATOR_COUNT →
  aggregate_callback expr tables records rids w
  = Ok (set_locals (count_row (locals w)) w, true).
Proof.
  intros Hop. unfold aggregate_callback.
  destruct (decide (op expr ≠ OPERATOR_COUNT)); [done|]. done.
Qed.

(** COUNT over a plain nested scan.  When the predicate evaluates without
    error on every tuple of the product of the tables' rows and the number
    of tuples on which it is true fits the [int] counter, an aggregate
    SELECT whose expression is a COUNT prints that number, without
    evaluating the counted expression, and reports the same number on the
    console. *)
Theorem count_prints_number_of_true_tuples `{Evaluator} (uninit : Z)
  (info : select_info_t) (tbs : list table_manager) (expr : expr_node_t) (w : world ()) :
  op expr = OPERATOR_COUNT →
  plain_scan tbs (where_ info) →
  (∀ rms, rms ∈ product tbs →
     ∃ b, holds (where_ info) (bind_tuple tbs rms (row_cache w)) = inr b) →
  (Z.of_nat (length (true_tuples (where_ info) tbs (row_cache w))) ≤ INT_MAX)%Z →
  ∃ w',
    select_rows_aggregate uninit info tbs [expr] w = Ok w'
    ∧ output_file w'
      = output_file w
        ++ [OutInt (Z.of_nat (length (true_tuples (where_ info) tbs (row_cache w))));
            OutEndl; OutEndl]
    ∧ last (console w')
      = Some (selected_message
                (Z.of_nat (length (true_tuples (where_ info) tbs (row_cache w))))).
Proof.
  intros Hop Hscan Hpred Hfit. unfold select_rows_aggregate.
  set (w0 := set_locals (aggregate_init (op expr)) w).
  destruct (iterate_counts (aggregate_callback expr) (λ w, counter (locals w))
              (λ z, wrap_int (z + 1)) tbs
              (where_ info) (row_cache w)) with (uninit := uninit) (w := w0)
    as (w1 & Hr & Hm); try done.
  { intros rms Hrms. unfold counted_tuple.
    destruct (Hpred rms Hrms) as [b ->]. destruct b; [|done].
    intros tl rl rids w2 _ _. rewrite aggregate_callback_count by done.
    eexists. split; [done|]. done. }
  assert (Hout : output_file w1 = output_file w).
  { apply (iterate_inv (aggregate_callback expr) (where_ info)
             (λ w', output_file w' = output_file w)) with (5 := Hr); try done.
    intros tl rl rids w2 w3 go Hout _. rewrite aggregate_callback_count by done.
    by intros [= <- _]. }
  rewrite Hr. obind. unfold aggregate_result.
  destruct (decide (op expr = OPERATOR_COUNT)); [|done].
  eexists. split; [done|].
  cbn [set_locals fprint puts output_file console]. rewrite Hout, Hm.
  subst w0. rewrite Hop. cbn [set_locals locals aggregate_init counter].
  rewrite counter_exact by (unfold INT_MIN; lia).
  rewrite Z.add_0_l, <- !app_assoc. split; [done|]. by rewrite last_snoc.
Qed.

Lemma count_prints_number_of_true_tuples_witness :
  ∃ w',
    select_rows_aggregate (H:=sample_evaluator [div_T; scan_U]) 0 scan_info
      [div_T; scan_U] [ExprNode OPERATOR_COUNT TERM_NONE None None None] (empty_world ())
    = Ok w'
    ∧ output_file w' = [OutInt 1; OutEndl; OutEndl]
    ∧ last (console w') = Some "[Info] 1 row(s) selected.".
Proof.
  destruct (count_prints_number_of_true_tuples (H:=sample_evaluator [div_T; scan_U]) 0
              scan_info [div_T; scan_U] (ExprNode OPERATOR_COUNT TERM_NONE None None None)
              (empty_world ())) as (w' & Hr & Ho & Hc).
  - reflexivity.
  - right. split; [simpl; lia|]. split; [vm_compute; discriminate|]. split.
    + repeat constructor; intros [[|[|[|?]]]|]; reflexivity.
    + eexists _, _, _, _. repeat split; vm_compute; reflexivity.
  - apply Forall_forall.
    let l := eval vm_compute in (product [div_T; scan_U]) in
    change (product [div_T; scan_U]) with l.
    repeat constructor; eexists; vm_compute; reflexivity.
  - vm_compute. discriminate.
  - exists w'. split; [exact Hr|]. split.
    + rewrite Ho. vm_compute. reflexivity.
    + rewrite Hc. vm_compute. reflexivity.
Defined.

(** An aggregate over one table: the loop folds the callback over the
    values of the passing rows, and the statement prints what
    [aggregate_result] makes of the accumulators. *)
Lemma select_rows_aggregate_single `{Evaluator} (uninit : Z) (info : select_info_t)
  (tb : table_manager) (expr inner : expr_node_t) (w : world ())
  (vals : list expression) :
  op expr ≠ OPERATOR_COUNT → e_left expr = Some inner →
  passing_values tb (where_ info) inner (row_cache w) (records tb) = Some vals →
  ∃ w', select_rows_aggregate uninit info [tb] [expr] w = Ok w'
    ∧ match aggregate_result (op expr) (aggregate_rows (op expr) vals) with
      | inl msg => output_file w' = output_file w ∧ console w' = console w ++ [msg]
      | inr out =>
        output_file w' = output_file w ++ out ++ [OutEndl]
        ∧ console w'
          = console w ++ [selected_message (counter (aggregate_rows (op expr) vals))]
      end.
Proof.
  intros Hop Hinner Hvals.
  destruct (aggregate_loop_values tb [tb] (where_ info) expr inner (row_cache w)
              (records tb) (set_locals (aggregate_init (op expr)) w) vals)
    as (w1 & Hw1 & Hl & Hc & Ho); [done..|].
  unfold select_rows_aggregate, iterate, iterate_one_table.
  rewrite Hw1. obind. cbn [set_locals locals] in Hl.
  fold (aggregate_rows (op expr) vals) in Hl. rewrite Hl.
  destruct (aggregate_result (op expr) (aggregate_rows (op expr) vals)) as [msg|out].
  - eexists. split; [reflexivity|].
    cbn [set_locals puts output_file console]. by rewrite Ho, Hc.
  - eexists. split; [reflexivity|].
    cbn [set_locals puts fprint output_file console]. rewrite Ho, Hc.
    cbn [set_locals output_file console]. by rewrite <- app_assoc.
Qed.

(** Aggregates over no row.  When no row of the table passes the
    predicate, SUM, AVG, MIN and MAX print no value: the statement ends
    with the diagnostic of a non-numeric aggregate, the output file gets
    nothing after the header, and no row count is reported. *)
Theorem aggregate_over_no_row_prints_diagnostic `{Evaluator} (uninit : Z)
  (info : select_info_t) (tb : table_manager) (expr inner : expr_node_t) (w : world ()) :
  op expr ≠ OPERATOR_COUNT → e_left expr = Some inner →
  passing_values tb (where_ info) inner (row_cache w) (records tb) = Some [] →
  ∃ w', select_rows_aggregate uninit info [tb] [expr] w = Ok w'
    ∧ output_file w' = output_file w
    ∧ console w'
      = console w ++ ["[Error] Aggregate only support for int and float type."].
Proof.
  intros Hop Hinner Hvals.
  destruct (select_rows_aggregate_single uninit info tb expr inner w [] Hop Hinner Hvals)
    as (w' & Hr & Hres).
  exists w'. split; [done|].
  unfold aggregate_result, aggregate_rows in Hres. cbn [foldl] in Hres.
  destruct (decide (op expr = OPERATOR_COUNT)); [done|].
  assert (Hty : agg_type (aggregate_init (op expr)) = TERM_NONE) by (by destruct (op expr)).
  rewrite Hty in Hres.
  destruct (decide (TERM_NONE ≠ TERM_FLOAT ∧ TERM_NONE ≠ TERM_INT)) as [_|Hn]; [done|].
  exfalso. apply Hn. done.
Qed.

Lemma aggregate_over_no_row_prints_diagnostic_witness :
  ∃ w',
    select_rows_aggregate (H:=sample_evaluator [neg_T]) 0
      (SelectInfo ["T"] [max_x] (Some (binop OPERATOR_EQ (col "T" "x") (col "T" "x"))))
      [TableManager "T" ["x"; "__rowid__"] [1%Z; 0%Z] [] [None; None]] [max_x]
      (empty_world ()) = Ok w'
    ∧ output_file w' = []
    ∧ console w' = ["[Error] Aggregate only support for int and float type."].
Proof.
  apply (aggregate_over_no_row_prints_diagnostic (H:=sample_evaluator [neg_T]) 0
           (SelectInfo ["T"] [max_x] (Some (binop OPERATOR_EQ (col "T" "x") (col "T" "x"))))
           (TableManager "T" ["x"; "__rowid__"] [1%Z; 0%Z] [] [None; None]) max_x
           (col "T" "x") (empty_world ())).
  - vm_compute. discriminate.
  - reflexivity.
  - reflexivity.
Defined.

Lemma accumulate_min_int `{Evaluator} (v : expression) (st : aggregate_state) :
  type v = TERM_INT →
  acc_i (count_row (accumulate OPERATOR_MIN v st)) = Z.min (acc_i st) (val_i v).
Proof.
  intros Hty. unfold accumulate, count_row.
  destruct (decide (type v = TERM_FLOAT)) as [Hf|_]; [congruence|].
  cbn [acc_i]. case_bool_decide; simpl; lia.
Qed.

Lemma accumulate_max_int `{Evaluator} (v : expression) (st : aggregate_state) :
  type v = TERM_INT →
  acc_i (count_row (accumulate OPERATOR_MAX v st)) = Z.max (acc_i st) (val_i v).
Proof.
  intros Hty. unfold accumulate, count_row.
  destruct (decide (type v = TERM_FLOAT)) as [Hf|_]; [congruence|].
  cbn [acc_i]. case_bool_decide; simpl; lia.
Qed.

Lemma int_min_fold `{Evaluator} (vals : list expression) (st : aggregate_state) :
  Forall (λ v, type v = TERM_INT) vals →
  let r := acc_i (foldl (λ st v, count_row (accumulate OPERATOR_MIN v st)) st vals) in
  (r ≤ acc_i st)%Z ∧ (∀ v, v ∈ vals → (r ≤ val_i v)%Z)
  ∧ (r = acc_i st ∨ r ∈ val_i <$> vals).
Proof.
  revert st. induction vals as [|x vals IH]; intros st Hall r.
  - subst r. simpl. split; [lia|]. split; [|by left].
    intros v Hv. by apply elem_of_nil in Hv.
  - apply Forall_cons in Hall as [Hx Hall]. subst r. cbn [foldl].
    destruct (IH (count_row (accumulate OPERATOR_MIN x st)) Hall) as (Hle & Hmin & Hin).
    rewrite accumulate_min_int in Hle, Hin by done.
    split; [lia|]. split.
    + intros v Hv. apply elem_of_cons in Hv as [->|Hv]; [lia|by apply Hmin].
    + destruct Hin as [Heq|Hin].
      * rewrite Heq. destruct (Z.min_spec (acc_i st) (val_i x)) as [[_ ->]|[_ ->]];
          [by left|right; rewrite fmap_cons; left].
      * right. rewrite fmap_cons. by right.
Qed.

Lemma int_max_fold `{Evaluator} (vals : list expression) (st : aggregate_state) :
  Forall (λ v, type v = TERM_INT) vals →
  let r := acc_i (foldl (λ st v, count_row (accumulate OPERATOR_MAX v st)) st vals) in
  (acc_i st ≤ r)%Z ∧ (∀ v, v ∈ vals → (val_i v ≤ r)%Z)
  ∧ (r = acc_i st ∨ r ∈ val_i <$> vals).
Proof.
  revert st. induction vals as [|x vals IH]; intros st Hall r.
  - subst r. simpl. split; [lia|]. split; [|by left].
    intros v Hv. by apply elem_of_nil in Hv.
  - apply Forall_cons in Hall as [Hx Hall]. subst r. cbn [foldl].
    destruct (IH (count_row (accumulate OPERATOR_MAX x st)) Hall) as (Hle & Hmax & Hin).
    rewrite accumulate_max_int in Hle, Hin by done.
    split; [lia|]. split.
    + intros v Hv. apply elem_of_cons in Hv as [->|Hv]; [lia|by apply Hmax].
    + destruct Hin as [Heq|Hin].
      * rewrite Heq. destruct (Z.max_spec (acc_i st) (val_i x)) as [[_ ->]|[_ ->]];
          [right; rewrite fmap_cons; left|by left].
      * right. rewrite fmap_cons. by right.
Qed.

Lemma last_Forall {A : Type} (P : A → Prop) (l : list A) :
  l ≠ [] → Forall P l → ∃ x, last l = Some x ∧ P x.
Proof.
  intros Hne Hall. destruct (last l) as [x|] eqn:Hlast.
  - exists x. split; [done|]. rewrite Forall_forall in Hall. apply Hall.
    by apply last_Some_elem_of.
  - by apply last_None in Hlast.
Qed.

(** MIN and MAX over [int] values.  When at least one row passes and the
    aggregated expression is an [int] on every passing row, MIN prints the
    least and MAX the greatest of the values. *)
Theorem int_min_max_print_the_extremum `{Evaluator} (uninit : Z) (info : select_info_t)
  (tb : table_manager) (expr inner : expr_node_t) (w : world ())
  (vals : list expression) :
  op expr = OPERATOR_MIN ∨ op expr = OPERATOR_MAX →
  e_left expr = Some inner →
  passing_values tb (where_ info) inner (row_cache w) (records tb) = Some vals →
  vals ≠ [] →
  Forall (λ v, type v = TERM_INT ∧ (INT_MIN ≤ val_i v ≤ INT_MAX)%Z) vals →
  ∃ w' m,
    select_rows_aggregate uninit info [tb] [expr] w = Ok w'
    ∧ output_file w' = output_file w ++ [OutInt m; OutEndl; OutEndl]
    ∧ int_extremum (op expr) vals m.
Proof.
  intros Hop Hinner Hvals Hne Hall.
  assert (Hcount : op expr ≠ OPERATOR_COUNT) by (destruct Hop as [-> | ->]; done).
  assert (Hints : Forall (λ v, type v = TERM_INT) vals).
  { eapply Forall_impl; [exact Hall|]. by intros v [? _]. }
  destruct (select_rows_aggregate_single uninit info tb expr inner w vals Hcount Hinner Hvals)
    as (w' & Hr & Hres).
  destruct (last_Forall _ vals Hne Hints) as (x & Hlast & Hx).
  pose proof (aggregate_fold_type (op expr) vals x (aggregate_init (op expr)) Hlast) as Hty.
  fold (aggregate_rows (op expr) vals) in Hty. rewrite Hx in Hty.
  unfold aggregate_result in Hres. rewrite Hty in Hres.
  destruct (decide (op expr = OPERATOR_COUNT)); [done|].
  destruct (decide (TERM_INT ≠ TERM_FLOAT ∧ TERM_INT ≠ TERM_INT)) as [[_ Hn]|_]; [done|].
  destruct (decide (op expr = OPERATOR_AVG)) as [Havg|_];
    [destruct Hop as [Hop|Hop]; congruence|].
  destruct (decide (TERM_INT = TERM_FLOAT)); [done|].
  destruct Hres as [Hout _].
  exists w', (acc_i (aggregate_rows (op expr) vals)).
  split; [done|]. split; [done|].
  assert (Hrange : ∀ v, v ∈ vals → (INT_MIN ≤ val_i v ≤ INT_MAX)%Z).
  { intros v Hv. rewrite Forall_forall in Hall. by apply Hall. }
  assert (Hsome : ∃ v, v ∈ vals) by (exists x; by apply last_Some_elem_of).
  destruct Hsome as [v0 Hv0].
  unfold int_extremum, aggregate_rows. destruct Hop as [Hop|Hop]; rewrite Hop.
  - destruct (int_min_fold vals (aggregate_init OPERATOR_MIN) Hints) as (_ & Hmin & Hin).
    change (acc_i (aggregate_init OPERATOR_MIN)) with INT_MAX in Hin. split.
    + destruct Hin as [Heq|Hin]; [|done].
      apply list_elem_of_fmap. exists v0. split; [|done].
      specialize (Hmin v0 Hv0). specialize (Hrange v0 Hv0). lia.
    + intros v Hv. rewrite decide_True by done. by apply Hmin.
  - destruct (int_max_fold vals (aggregate_init OPERATOR_MAX) Hints) as (_ & Hmax & Hin).
    change (acc_i (aggregate_init OPERATOR_MAX)) with INT_MIN in Hin. split.
    + destruct Hin as [Heq|Hin]; [|done].
      apply list_elem_of_fmap. exists v0. split; [|done].
      specialize (Hmax v0 Hv0). specialize (Hrange v0 Hv0). lia.
    + intros v Hv. rewrite decide_False by done. by apply Hmax.
Qed.

Lemma int_min_max_print_the_extremum_witness :
  ∃ w' m,
    select_rows_aggregate (H:=sample_evaluator [div_T]) 0
      (SelectInfo ["T"] [ExprNode OPERATOR_MIN TERM_NONE None (Some (col "T" "b")) None] None)
      [div_T] [ExprNode OPERATOR_MIN TERM_NONE None (Some (col "T" "b")) None]
      (empty_world ()) = Ok w'
    ∧ output_file w' = [OutInt m; OutEndl; OutEndl]
    ∧ int_extremum OPERATOR_MIN [int_value 0; int_value 1] m.
Proof.
  apply (int_min_max_print_the_extremum (H:=sample_evaluator [div_T]) 0
           (SelectInfo ["T"] [ExprNode OPERATOR_MIN TERM_NONE None (Some (col "T" "b")) None]
              None)
           div_T (ExprNode OPERATOR_MIN TERM_NONE None (Some (col "T" "b")) None)
           (col "T" "b") (empty_world ()) [int_value 0; int_value 1]).
  - by left.
  - reflexivity.
  - vm_compute. reflexivity.
  - discriminate.
  - repeat constructor; vm_compute; discriminate.
Defined.

Lemma Qltb_true (a b : Q) : Qltb a b = true → (a < b)%Q.
Proof.
  unfold Qltb. intros Hb. apply negb_true_iff in Hb. apply Qnot_le_lt.
  intros Hle. apply Qle_bool_iff in Hle. congruence.
Qed.

Lemma Qltb_false (a b : Q) : Qltb a b = false → (b <= a)%Q.
Proof.
  unfold Qltb. intros Hb. apply negb_false_iff in Hb. by apply Qle_bool_iff.
Qed.

Lemma accumulate_min_float `{Evaluator} (v : expression) (st : aggregate_state) :
  type v = TERM_FLOAT →
  let a := acc_f (count_row (accumulate OPERATOR_MIN v st)) in
  (a <= acc_f st)%Q ∧ (a <= val_f v)%Q ∧ (a = acc_f st ∨ a = val_f v).
Proof.
  intros Hty. unfold accumulate, count_row.
  destruct (decide (type v = TERM_FLOAT)) as [_|Hf]; [|done].
  cbn [acc_f]. destruct (Qltb (val_f v) (acc_f st)) eqn:Hlt; cbn [acc_f].
  - apply Qltb_true in Hlt. split; [by apply Qlt_le_weak|].
    split; [apply Qle_refl|by right].
  - apply Qltb_false in Hlt. split; [apply Qle_refl|]. split; [done|by left].
Qed.

Lemma accumulate_max_float `{Evaluator} (v : expression) (st : aggregate_state) :
  type v = TERM_FLOAT →
  let a := acc_f (count_row (accumulate OPERATOR_MAX v st)) in
  (acc_f st <= a)%Q ∧ (val_f v <= a)%Q ∧ (a = acc_f st ∨ a = val_f v).
Proof.
  intros Hty. unfold accumulate, count_row.
  destruct (decide (type v = TERM_FLOAT)) as [_|Hf]; [|done].
  cbn [acc_f]. destruct (Qltb (acc_f st) (val_f v)) eqn:Hlt; cbn [acc_f].
  - apply Qltb_true in Hlt. split; [by apply Qlt_le_weak|].
    split; [apply Qle_refl|by right].
  - apply Qltb_false in Hlt. split; [apply Qle_refl|]. split; [done|by left].
Qed.

Lemma float_min_fold `{Evaluator} (vals : list expression) (st : aggregate_state) :
  Forall (λ v, type v = TERM_FLOAT) vals →
  let r := acc_f (foldl (λ st v, count_row (accumulate OPERATOR_MIN v st)) st vals) in
  (r <= acc_f st)%Q ∧ (∀ v, v ∈ vals → (r <= val_f v)%Q)
  ∧ (r = acc_f st ∨ r ∈ val_f <$> vals).
Proof.
  revert st. induction vals as [|x vals IH]; intros st Hall r.
  - subst r. simpl. split; [apply Qle_refl|]. split; [|by left].
    intros v Hv. by apply elem_of_nil in Hv.
  - apply Forall_cons in Hall as [Hx Hall]. subst r. cbn [foldl].
    destruct (IH (count_row (accumulate OPERATOR_MIN x st)) Hall) as (Hle & Hmin & Hin).
    destruct (accumulate_min_float x st Hx) as (Ha & Hb & Hc).
    split; [by eapply Qle_trans|]. split.
    + intros v Hv. apply elem_of_cons in Hv as [->|Hv]; [by eapply Qle_trans|by apply Hmin].
    + destruct Hin as [Heq|Hin].
      * rewrite Heq. destruct Hc as [->| ->]; [by left|right; rewrite fmap_cons; left].
      * right. rewrite fmap_cons. by right.
Qed.

Lemma float_max_fold `{Evaluator} (vals : list expression) (st : aggregate_state) :
  Forall (λ v, type v = TERM_FLOAT) vals →
  let r := acc_f (foldl (λ st v, count_row (accumulate OPERATOR_MAX v st)) st vals) in
  (acc_f st <= r)%Q ∧ (∀ v, v ∈ vals → (val_f v <= r)%Q)
  ∧ (r = acc_f st ∨ r ∈ val_f <$> vals).
Proof.
  revert st. induction vals as [|x vals IH]; intros st Hall r.
  - subst r. simpl. split; [apply Qle_refl|]. split; [|by left].
    intros v Hv. by apply elem_of_nil in Hv.
  - apply Forall_cons in Hall as [Hx Hall]. subst r. cbn [foldl].
    destruct (IH (count_row (accumulate OPERATOR_MAX x st)) Hall) as (Hle & Hmax & Hin).
    destruct (accumulate_max_float x st Hx) as (Ha & Hb & Hc).
    split; [by eapply Qle_trans|]. split.
    + intros v Hv. apply elem_of_cons in Hv as [->|Hv]; [by eapply Qle_trans|by apply Hmax].
    + destruct Hin as [Heq|Hin].
      * rewrite Heq. destruct Hc as [->| ->]; [by left|right; rewrite fmap_cons; left].
      * right. rewrite fmap_cons. by right.
Qed.

(** MIN and MAX over [float] values.  When the aggregated expression is a
    [float] on every passing row, MIN prints the least of the values
    provided none exceeds [FLT_MAX], and MAX prints the greatest of the
    values provided one of them is at least [FLT_MIN], the positive value
    at which the MAX accumulator starts. *)
Theorem float_min_max_print_the_extremum `{Evaluator} (uninit : Z) (info : select_info_t)
  (tb : table_manager) (expr inner : expr_node_t) (w : world ())
  (vals : list expression) :
  e_left expr = Some inner →
  passing_values tb (where_ info) inner (row_cache w) (records tb) = Some vals →
  vals ≠ [] →
  Forall (λ v, type v = TERM_FLOAT) vals →
  float_in_range (op expr) vals →
  ∃ w' m,
    select_rows_aggregate uninit info [tb] [expr] w = Ok w'
    ∧ output_file w' = output_file w ++ [OutFloat m; OutEndl; OutEndl]
    ∧ float_extremum (op expr) vals m.
Proof.
  intros Hinner Hvals Hne Hfloats Hrange.
  assert (Hop : op expr = OPERATOR_MIN ∨ op expr = OPERATOR_MAX).
  { unfold float_in_range in Hrange. destruct (op expr); try done; [by left|by right]. }
  assert (Hcount : op expr ≠ OPERATOR_COUNT) by (destruct Hop as [-> | ->]; done).
  destruct (select_rows_aggregate_single uninit info tb expr inner w vals Hcount Hinner Hvals)
    as (w' & Hr & Hres).
  destruct (last_Forall _ vals Hne Hfloats) as (x & Hlast & Hx).
  pose proof (aggregate_fold_type (op expr) vals x (aggregate_init (op expr)) Hlast) as Hty.
  fold (aggregate_rows (op expr) vals) in Hty. rewrite Hx in Hty.
  unfold aggregate_result in Hres. rewrite Hty in Hres.
  destruct (decide (op expr = OPERATOR_COUNT)); [done|].
  destruct (decide (TERM_FLOAT ≠ TERM_FLOAT ∧ TERM_FLOAT ≠ TERM_INT)) as [[Hn _]|_]; [done|].
  destruct (decide (op expr = OPERATOR_AVG)) as [Havg|_];
    [destruct Hop as [Hop|Hop]; congruence|].
  destruct (decide (TERM_FLOAT = TERM_FLOAT)); [|done].
  destruct Hres as [Hout _].
  exists w', (acc_f (aggregate_rows (op expr) vals)).
  split; [done|]. split; [done|].
  assert (Hsome : ∃ v, v ∈ vals) by (exists x; by apply last_Some_elem_of).
  destruct Hsome as [v0 Hv0].
  unfold float_extremum, aggregate_rows. unfold float_in_range in Hrange.
  destruct Hop as [Hop|Hop]; rewrite Hop in Hrange |- *.
  - destruct (float_min_fold vals (aggregate_init OPERATOR_MIN) Hfloats)
      as (_ & Hmin & Hin).
    change (acc_f (aggregate_init OPERATOR_MIN)) with FLT_MAX in Hin. split.
    + destruct Hin as [Heq|Hin].
      * exists v0. split; [done|]. apply Qle_antisym; [by apply Hmin|].
        rewrite Heq. rewrite Forall_forall in Hrange. by apply Hrange.
      * apply list_elem_of_fmap in Hin as (v & Hv & Hin). exists v.
        split; [done|]. rewrite Hv. apply Qeq_refl.
    + intros v Hv. rewrite decide_True by done. by apply Hmin.
  - destruct (float_max_fold vals (aggregate_init OPERATOR_MAX) Hfloats)
      as (_ & Hmax & Hin).
    change (acc_f (aggregate_init OPERATOR_MAX)) with FLT_MIN in Hin. split.
    + destruct Hin as [Heq|Hin].
      * apply Exists_exists in Hrange as (v & Hv & Hge). exists v.
        split; [done|]. apply Qle_antisym; [by rewrite Heq|by apply Hmax].
      * apply list_elem_of_fmap in Hin as (v & Hv & Hin). exists v.
        split; [done|]. rewrite Hv. apply Qeq_refl.
    + intros v Hv. rewrite decide_False by done. by apply Hmax.
Qed.

Lemma float_min_max_print_the_extremum_witness :
  ∃ w' m,
    select_rows_aggregate (H:=sample_evaluator [neg_T]) 0
      (SelectInfo ["T"] [ExprNode OPERATOR_MIN TERM_NONE None (Some (col "T" "x")) None] None)
      [neg_T] [ExprNode OPERATOR_MIN TERM_NONE None (Some (col "T" "x")) None]
      (empty_world ()) = Ok w'
    ∧ output_file w' = [OutFloat m; OutEndl; OutEndl]
    ∧ float_extremum OPERATOR_MIN [float_value (inject_Z (-1))] m.
Proof.
  apply (float_min_max_print_the_extremum (H:=sample_evaluator [neg_T]) 0
           (SelectInfo ["T"] [ExprNode OPERATOR_MIN TERM_NONE None (Some (col "T" "x")) None]
              None)
           neg_T (ExprNode OPERATOR_MIN TERM_NONE None (Some (col "T" "x")) None)
           (col "T" "x") (empty_world ()) [float_value (inject_Z (-1))]).
  - reflexivity.
  - vm_compute. reflexivity.
  - discriminate.
  - repeat constructor.
  - repeat constructor. vm_compute. discriminate.
Defined.

(** ** INSERT: the counts *)

Lemma insert_tuple_total `{Evaluator} `{Store} (cols_id : list nat)
  (expr_list : list expr_node_t) (tb : table_manager) (w : world ()) :
  ∃ tb' w' e,
    insert_tuple cols_id expr_list tb w = Ok (tb', w', e)
    ∧ (e = TupleSkipped ↔ length expr_list ≠ length cols_id).
Proof.
  unfold insert_tuple.
  destruct (decide (length expr_list ≠ length cols_id)) as [Hne|Heq].
  - eexists _, _, _. split; [done|]. done.
  - apply dec_stable in Heq.
    destruct (set_values_reasons cols_id expr_list (init_temp_record tb) w Heq)
      as (tb1 & r & -> & _).
    obind. destruct r as [msg|[|]].
    + eexists _, _, _. split; [done|]. split; [done|]. intros Hne. lia.
    + destruct (insert_record tb1) as [tb2 new_rid].
      eexists _, _, _. split; [done|]. split; [done|]. intros Hne. lia.
    + eexists _, _, _. split; [done|]. split; [done|]. intros Hne. lia.
Qed.

(** INSERT never faults, and it accounts for every tuple of the right
    arity: whenever the loop over the value tuples runs to its end (the
    summary is printed), the number of inserted rows plus the number of
    failed rows is the number of tuples that have as many values as there
    are target columns; the tuples of another arity are in neither count. *)
Theorem insert_counts_the_tuples_of_right_arity `{Evaluator} `{Store} (cols_id : list nat)
  (values : list (list expr_node_t)) (tb : table_manager) (w : world ())
  (count_succ count_fail : Z) :
  ∃ tb' w' counts,
    insert_tuples cols_id values tb w count_succ count_fail = Ok (tb', w', counts)
    ∧ ∀ succ fail, counts = Some (succ, fail) →
        (count_succ ≤ succ)%Z ∧ (count_fail ≤ fail)%Z
        ∧ ((succ - count_succ) + (fail - count_fail)
           = Z.of_nat (length (filter (λ t, length t = length cols_id) values)))%Z.
Proof.
  revert tb w count_succ count_fail.
  induction values as [|expr_list values IH]; intros tb w count_succ count_fail.
  - eexists _, _, _. split; [done|]. intros succ fail [= <- <-]. simpl. lia.
  - cbn [insert_tuples].
    destruct (insert_tuple_total cols_id expr_list tb w) as (tb1 & w1 & e & -> & Hskip).
    obind. rewrite filter_cons. destruct e as [|succ1|].
    + destruct (IH tb1 w1 count_succ count_fail) as (tb' & w' & counts & -> & Hcounts).
      eexists _, _, _. split; [done|]. intros succ fail Hsome.
      destruct (Hcounts succ fail Hsome) as (Hs & Hf & Hsum).
      rewrite decide_False by (by apply Hskip). lia.
    + destruct (IH tb1 w1 (count_succ + Z.b2z succ1)%Z (count_fail + (1 - Z.b2z succ1))%Z)
        as (tb' & w' & counts & -> & Hcounts).
      eexists _, _, _. split; [done|]. intros succ fail Hsome.
      destruct (Hcounts succ fail Hsome) as (Hs & Hf & Hsum).
      rewrite decide_True.
      * simpl length. destruct succ1; simpl in *; lia.
      * destruct (decide (length expr_list = length cols_id)) as [|Hne]; [done|].
        apply Hskip in Hne. discriminate.
    + eexists _, _, _. split; [done|]. intros succ fail [=].
Qed.

(** ** DELETE *)

Lemma remove_records_count `{Mutator} (tm : table_manager) (delete_list : list Z)
  (counter : Z) :
  (counter ≤ (remove_records tm delete_list counter).2
   ≤ counter + Z.of_nat (length delete_list))%Z.
Proof.
  revert tm counter. induction delete_list as [|r delete_list IH]; intros tm counter.
  - simpl. lia.
  - cbn [remove_records]. destruct (remove_record tm r) as [tm1 removed].
    specialize (IH tm1 (counter + Z.b2z removed)%Z).
    destruct removed; simpl in *; lia.
Qed.

(** The scan of DELETE over rows on which the predicate evaluates: it goes
    on to the rows behind them, with the row ids of the passing rows
    collected in scan order. *)
Lemma delete_loop_collects `{Evaluator} (tb : table_manager) (cond : option expr_node_t)
  (c0 : gmap string record_manager) (pre rest : list record_manager)
  (w : world (list Z)) :
  predicate_total tb cond c0 pre →
  (∀ rm, <[table_name tb := rm]> (row_cache w) = <[table_name tb := rm]> c0) →
  ∃ w1,
    iterate_one_table_loop tb cond delete_callback (pre ++ rest) w
    = iterate_one_table_loop tb cond delete_callback rest w1
    ∧ locals w1 = locals w ++ (rid <$> passing_rows tb cond c0 pre)
    ∧ console w1 = console w ∧ output_file w1 = output_file w
    ∧ (∀ rm, <[table_name tb := rm]> (row_cache w1) = <[table_name tb := rm]> c0).
Proof.
  revert w. induction pre as [|rm pre IH]; intros w Htotal Hcache.
  - exists w. unfold passing_rows. simpl. by rewrite app_nil_r.
  - assert (Htotal' : predicate_total tb cond c0 pre).
    { intros r Hr. apply Htotal. by right. }
    destruct (Htotal rm) as [b Hb]; [left|].
    cbn [app iterate_one_table_loop]. unfold eval_cond.
    change (match cond with
            | Some c => eval_bool (row_cache (cache_record tb rm w)) c
            | None => inr true
            end) with (holds cond (row_cache (cache_record tb rm w))).
    cbn [cache_record row_cache]. rewrite (Hcache rm), Hb.
    unfold passing_rows. rewrite filter_cons. fold (passing_rows tb cond c0 pre).
    destruct b.
    + unfold delete_callback at 1. obind.
      destruct (IH (set_locals (locals (cache_record tb rm w) ++ [rid rm])
                      (cache_record tb rm w)) Htotal')
        as (w1 & Hloop & Hl & Hc & Ho & Hcache1).
      { intros rm'. cbn [set_locals cache_record row_cache].
        rewrite insert_insert_eq. apply Hcache. }
      exists w1. split; [exact Hloop|]. rewrite decide_True by done.
      rewrite Hl. cbn [set_locals cache_record locals]. rewrite fmap_cons, <- app_assoc.
      done.
    + destruct (IH (cache_record tb rm w) Htotal') as (w1 & Hloop & Hl & Hc & Ho & Hcache1).
      { intros rm'. cbn [cache_record row_cache].
        rewrite insert_insert_eq. apply Hcache. }
      exists w1. split; [exact Hloop|]. rewrite decide_False by (by rewrite Hb).
      cbn [cache_record locals console output_file] in Hl, Hc, Ho. done.
Qed.

(** DELETE removes the passing rows.  When the predicate evaluates without
    error on every row of the table, the rows handed to [remove_record]
    are exactly the rows on which it is true (every row when it is absent),
    in scan order and only after the scan has ended; the count reported is
    the number of removals that succeeded, at most the number of passing
    rows. *)
Theorem delete_removes_the_passing_rows `{Evaluator} `{Mutator} (db : database)
  (info : delete_info_t) (tm : table_manager) (w : world ()) :
  get_table db (delete_table info) = Some tm →
  predicate_total tm (delete_where info) (row_cache w) (records tm) →
  ∃ tm' n,
    remove_records tm
      (rid <$> passing_rows tm (delete_where info) (row_cache w) (records tm)) 0
    = (tm', n)
    ∧ delete_rows (Some db) info w
      = Ok (Some tm', cache_clear (puts (deleted_message n) w))
    ∧ (0 ≤ n ≤ Z.of_nat
                 (length (passing_rows tm (delete_where info) (row_cache w) (records tm))))%Z.
Proof.
  intros Htm Htotal.
  destruct (remove_records tm
              (rid <$> passing_rows tm (delete_where info) (row_cache w) (records tm)) 0)
    as [tm' n] eqn:Hrem.
  exists tm', n. split; [done|].
  pose proof (remove_records_count tm
                (rid <$> passing_rows tm (delete_where info) (row_cache w) (records tm)) 0)
    as Hcount.
  rewrite Hrem, length_fmap in Hcount. simpl in Hcount. split; [|lia].
  unfold delete_rows, assert_db_open. rewrite Htm. unfold iterate_one_table.
  destruct (delete_loop_collects tm (delete_where info) (row_cache w) (records tm) []
              (set_locals [] w) Htotal) as (w1 & Hloop & Hl & Hc & Ho & _); [done|].
  rewrite app_nil_r in Hloop. rewrite Hloop. cbn [iterate_one_table_loop]. obind.
  rewrite Hl. cbn [set_locals locals app]. rewrite Hrem.
  unfold cache_clear, puts, set_locals. cbn [console output_file locals row_cache].
  cbn [set_locals console output_file] in Hc, Ho. rewrite Hc, Ho.
  by destruct (locals w).
Qed.

Lemma delete_removes_the_passing_rows_witness :
  delete_rows (H:=sample_evaluator [div_T]) (H0:=sample_mutator) (Some (Database [div_T]))
    (DeleteInfo "T" (Some (col "T" "b"))) (empty_world ())
  = Ok (Some (TableManager "T" ["a"; "b"; "__rowid__"] [0%Z; 0%Z; 0%Z]
                [RecordManager 1 [Some 1%Z; Some 0%Z]] [None; None; None]),
        World ∅ ["[Info] 1 row(s) deleted."] [] ()).
Proof.
  destruct (delete_removes_the_passing_rows (H:=sample_evaluator [div_T])
              (H0:=sample_mutator) (Database [div_T]) (DeleteInfo "T" (Some (col "T" "b")))
              div_T (empty_world ())) as (tm' & n & Hrem & Hr & _).
  - reflexivity.
  - unfold predicate_total. apply Forall_forall.
    repeat constructor; eexists; vm_compute; reflexivity.
  - rewrite Hr. vm_compute in Hrem. injection Hrem as <- <-. vm_compute. reflexivity.
Defined.

(** DELETE after an error of the predicate.  When the predicate throws on
    a row, the scan ends there with the message; the rows collected before
    it are still removed, the rows behind it are not examined, and the
    count is reported after the message. *)
Theorem delete_after_predicate_error_removes_collected `{Evaluator} `{Mutator}
  (db : database) (info : delete_info_t) (tm : table_manager) (w : world ())
  (pre post : list record_manager) (rm : record_manager) (msg : string) :
  get_table db (delete_table info) = Some tm →
  records tm = pre ++ rm :: post →
  predicate_total tm (delete_where info) (row_cache w) pre →
  holds (delete_where info) (<[table_name tm := rm]> (row_cache w)) = inl msg →
  ∃ tm' n,
    remove_records tm (rid <$> passing_rows tm (delete_where info) (row_cache w) pre) 0
    = (tm', n)
    ∧ delete_rows (Some db) info w
      = Ok (Some tm', cache_clear (puts (deleted_message n) (puts msg w))).
Proof.
  intros Htm Hrows Htotal Herr.
  destruct (remove_records tm
              (rid <$> passing_rows tm (delete_where info) (row_cache w) pre) 0)
    as [tm' n] eqn:Hrem.
  exists tm', n. split; [done|].
  unfold delete_rows, assert_db_open. rewrite Htm. unfold iterate_one_table.
  rewrite Hrows.
  destruct (delete_loop_collects tm (delete_where info) (row_cache w) pre (rm :: post)
              (set_locals [] w) Htotal) as (w1 & Hloop & Hl & Hc & Ho & Hcache); [done|].
  rewrite Hloop. cbn [iterate_one_table_loop]. unfold eval_cond.
  change (match delete_where info with
          | Some c => eval_bool (row_cache (cache_record tm rm w1)) c
          | None => inr true
          end) with (holds (delete_where info) (row_cache (cache_record tm rm w1))).
  cbn [cache_record row_cache]. rewrite (Hcache rm). cbn [set_locals row_cache].
  rewrite Herr. obind.
  cbn [puts cache_record locals]. rewrite Hl. cbn [set_locals locals app]. rewrite Hrem.
  unfold cache_clear, puts, set_locals.
  cbn [cache_record console output_file locals row_cache].
  cbn [set_locals console output_file] in Hc, Ho. rewrite Hc, Ho.
  by destruct (locals w).
Qed.

Lemma delete_after_predicate_error_removes_collected_witness :
  delete_rows (H:=sample_evaluator [err_T]) (H0:=sample_mutator) (Some (Database [err_T]))
    (DeleteInfo "T" (Some div_cond)) (empty_world ())
  = Ok (Some (TableManager "T" ["a"; "b"; "__rowid__"] [0%Z; 0%Z; 0%Z]
                [RecordManager 2 [Some 1%Z; Some 0%Z]; RecordManager 3 [Some 1%Z; Some 1%Z]]
                [None; None; None]),
        World ∅ ["[Error] Division by zero."; "[Info] 1 row(s) deleted."] [] ()).
Proof.
  destruct (delete_after_predicate_error_removes_collected (H:=sample_evaluator [err_T])
              (H0:=sample_mutator) (Database [err_T]) (DeleteInfo "T" (Some div_cond))
              err_T (empty_world ()) [RecordManager 1 [Some 1%Z; Some 1%Z]]
              [RecordManager 3 [Some 1%Z; Some 1%Z]] (RecordManager 2 [Some 1%Z; Some 0%Z])
              "[Error] Division by zero.") as (tm' & n & Hrem & Hr).
  - reflexivity.
  - reflexivity.
  - unfold predicate_total. apply Forall_forall.
    repeat constructor; eexists; vm_compute; reflexivity.
  - vm_compute. reflexivity.
  - rewrite Hr. vm_compute in Hrem. injection Hrem as <- <-. vm_compute. reflexivity.
Defined.

(** ** UPDATE *)

Lemma update_callback_fits `{Evaluator} `{Store} `{Mutator} (value : expr_node_t)
  (col_id : nat) (tb : table_manager) (rm : record_manager) (r : Z)
  (w : world update_state) (v : expression) :
  eval (row_cache w) value = inr v →
  type_compatible (get_column_type (upd_table (locals w)) col_id) v = true →
  update_callback value col_id tb rm r w
  = (let '(tm, ret) :=
       modify_record (upd_table (locals w)) r col_id
         (expr_to_db v (column_to_term (get_column_type (upd_table (locals w)) col_id))) in
     Ok (set_locals
           (UpdateState tm (succ_count (locals w) + Z.b2z ret)
              (fail_count (locals w) + (1 - Z.b2z ret)) None) w,
         true)).
Proof. intros Hv Hc. unfold update_callback. by rewrite Hv, Hc. Qed.

Lemma update_callback_refused `{Evaluator} `{Store} `{Mutator} (value : expr_node_t)
  (col_id : nat) (tb : table_manager) (rm : record_manager) (r : Z)
  (w : world update_state) (msg : string) :
  (eval (row_cache w) value = inl msg
   ∨ ∃ v, eval (row_cache w) value = inr v
          ∧ type_compatible (get_column_type (upd_table (locals w)) col_id) v = false
          ∧ msg = "[Error] Incompatible data type.") →
  update_callback value col_id tb rm r w
  = Ok (set_locals
          (UpdateState (upd_table (locals w)) (succ_count (locals w))
             (fail_count (locals w)) (Some msg)) w,
        false).
Proof.
  unfold update_callback. intros [Hv|(v & Hv & Hc & ->)]; rewrite Hv; [done|].
  by rewrite Hc.
Qed.

(** The scan of UPDATE over rows on which the predicate evaluates and the
    value fits: it goes on to the rows behind them, and each passing row
    has been counted once, as a success or as a failure. *)
Lemma update_loop_counts `{Evaluator} `{Store} `{Mutator} (tb : table_manager)
  (cond : option expr_node_t) (value : expr_node_t) (col_id : nat)
  (c0 : gmap string record_manager) (pre rest : list record_manager)
  (w : world update_state) :
  keeps_column_types →
  column_types (upd_table (locals w)) = column_types tb →
  predicate_total tb cond c0 pre →
  (∀ rm, rm ∈ passing_rows tb cond c0 pre → value_fits tb col_id value c0 rm) →
  (∀ rm, <[table_name tb := rm]> (row_cache w) = <[table_name tb := rm]> c0) →
  ∃ w1,
    iterate_one_table_loop tb cond (update_callback value col_id) (pre ++ rest) w
    = iterate_one_table_loop tb cond (update_callback value col_id) rest w1
    ∧ (thrown (locals w) = None → thrown (locals w1) = None)
    ∧ (succ_count (locals w) ≤ succ_count (locals w1))%Z
    ∧ (fail_count (locals w) ≤ fail_count (locals w1))%Z
    ∧ ((succ_count (locals w1) - succ_count (locals w))
       + (fail_count (locals w1) - fail_count (locals w))
       = Z.of_nat (length (passing_rows tb cond c0 pre)))%Z
    ∧ console w1 = console w ∧ output_file w1 = output_file w
    ∧ (∀ rm, <[table_name tb := rm]> (row_cache w1) = <[table_name tb := rm]> c0)
    ∧ column_types (upd_table (locals w1)) = column_types tb.
Proof.
  intros Hkeep. revert w.
  induction pre as [|rm pre IH]; intros w Htypes Htotal Hfits Hcache.
  - exists w. unfold passing_rows. simpl. repeat split; try done; lia.
  - assert (Htotal' : predicate_total tb cond c0 pre).
    { intros r Hr. apply Htotal. by right. }
    destruct (Htotal rm) as [b Hb]; [left|].
    cbn [app iterate_one_table_loop]. unfold eval_cond.
    change (match cond with
            | Some c => eval_bool (row_cache (cache_record tb rm w)) c
            | None => inr true
            end) with (holds cond (row_cache (cache_record tb rm w))).
    cbn [cache_record row_cache]. rewrite (Hcache rm), Hb.
    unfold passing_rows in Hfits |- *. rewrite filter_cons in Hfits |- *.
    fold (passing_rows tb cond c0 pre) in Hfits |- *.
    destruct b.
    + rewrite decide_True in Hfits |- * by done.
      destruct (Hfits rm) as (v & Hv & Hcompat); [left|].
      assert (Hcompat' :
        type_compatible (get_column_type (upd_table (locals w)) col_id) v = true).
      { unfold get_column_type in *. by rewrite Htypes. }
      rewrite (update_callback_fits value col_id tb rm (rid rm) (cache_record tb rm w) v)
        by (cbn [cache_record row_cache locals]; by rewrite ?(Hcache rm)).
      cbn [cache_record locals].
      destruct (modify_record (upd_table (locals w)) (rid rm) col_id
                  (expr_to_db v
                     (column_to_term (get_column_type (upd_table (locals w)) col_id))))
        as [tm1 ret] eqn:Hmod.
      obind.
      destruct (IH (set_locals
                      (UpdateState tm1 (succ_count (locals w) + Z.b2z ret)
                         (fail_count (locals w) + (1 - Z.b2z ret)) None)
                      (cache_record tb rm w)))
        as (w1 & Hloop & Hth & Hs & Hf & Hsum & Hc & Ho & Hcache1 & Hty1).
      { cbn [set_locals locals upd_table]. rewrite <- Htypes.
        pose proof (Hkeep (upd_table (locals w)) (rid rm) col_id
                      (expr_to_db v
                         (column_to_term
                            (get_column_type (upd_table (locals w)) col_id)))) as Hk.
        by rewrite Hmod in Hk. }
      { done. }
      { intros r Hr. apply Hfits. by right. }
      { intros rm'. cbn [set_locals cache_record row_cache].
        rewrite insert_insert_eq. apply Hcache. }
      exists w1. split; [exact Hloop|].
      cbn [set_locals locals succ_count fail_count thrown console output_file] in *.
      split; [intros _; by apply Hth|].
      simpl length. destruct ret; simpl in *; repeat split; try done; lia.
    + rewrite decide_False in Hfits |- * by (by rewrite Hb).
      destruct (IH (cache_record tb rm w))
        as (w1 & Hloop & Hth & Hs & Hf & Hsum & Hc & Ho & Hcache1 & Hty1).
      { done. }
      { done. }
      { done. }
      { intros rm'. cbn [cache_record row_cache]. rewrite insert_insert_eq. apply Hcache. }
      exists w1. split; [exact Hloop|].
      cbn [cache_record locals console output_file] in *. done.
Qed.

(** UPDATE accounts for every passing row.  When [modify_record] leaves
    the column types alone, the predicate evaluates without error on every
    row of the table and the value evaluates, on each row on which the
    predicate is true, to a value compatible with the type of the target
    column, the statement reports a number of updated rows and a number of
    failed rows that add up to the number of passing rows. *)
Theorem update_counts_every_passing_row `{Evaluator} `{Store} `{Mutator} (db : database)
  (info : update_info_t) (tm : table_manager) (cref : column_ref_t) (col_id : nat)
  (w : world ()) :
  keeps_column_types →
  get_table db (update_table info) = Some tm →
  update_column_ref info = Some cref → lookup_column tm (column cref) = Some col_id →
  predicate_total tm (update_where info) (row_cache w) (records tm) →
  (∀ rm, rm ∈ passing_rows tm (update_where info) (row_cache w) (records tm) →
     value_fits tm col_id (update_value info) (row_cache w) rm) →
  ∃ tm' succ fail,
    update_rows (Some db) info w
    = Ok (Some tm', cache_clear (puts (updated_message succ fail) w))
    ∧ (0 ≤ succ)%Z ∧ (0 ≤ fail)%Z
    ∧ (succ + fail
       = Z.of_nat (length (passing_rows tm (update_where info) (row_cache w) (records tm))))%Z.
Proof.
  intros Hkeep Htm Hcref Hcol Htotal Hfits.
  unfold update_rows, assert_db_open. rewrite Htm, Hcref. obind. rewrite Hcol.
  unfold iterate_one_table.
  destruct (update_loop_counts tm (update_where info) (update_value info) col_id
              (row_cache w) (records tm) [] (set_locals (UpdateState tm 0 0 None) w)
              Hkeep eq_refl Htotal Hfits)
    as (w1 & Hloop & Hth & Hs & Hf & Hsum & Hc & Ho & _); [done|].
  rewrite app_nil_r in Hloop. rewrite Hloop. cbn [iterate_one_table_loop]. obind.
  cbn [set_locals locals succ_count fail_count thrown console output_file] in *.
  rewrite Hth by done.
  exists (upd_table (locals w1)), (succ_count (locals w1)), (fail_count (locals w1)).
  split; [|lia].
  unfold cache_clear, puts, set_locals. cbn [console output_file locals row_cache].
  rewrite Hc, Ho. by destruct (locals w).
Qed.

Lemma update_counts_every_passing_row_witness :
  ∃ tm' succ fail,
    update_rows (H:=sample_evaluator [typed_T]) (H0:=typed_store) (H1:=sample_mutator)
      (Some (Database [typed_T]))
      (UpdateInfo "T" (Some (ColumnRef "T" "a")) (Some (col "T" "a")) (col "T" "a"))
      (empty_world ())
    = Ok (Some tm', cache_clear (puts (updated_message succ fail) (empty_world ())))
    ∧ (0 ≤ succ)%Z ∧ (0 ≤ fail)%Z ∧ (succ + fail = 2)%Z.
Proof.
  assert (Hp : passing_rows (H:=sample_evaluator [typed_T]) typed_T (Some (col "T" "a")) ∅
                 (records typed_T)
               = [RecordManager 2 [Some 1%Z; Some 2%Z]; RecordManager 3 [Some 1%Z; Some 3%Z]])
    by (vm_compute; reflexivity).
  destruct (update_counts_every_passing_row (H:=sample_evaluator [typed_T])
              (H0:=typed_store) (H1:=sample_mutator) (Database [typed_T])
              (UpdateInfo "T" (Some (ColumnRef "T" "a")) (Some (col "T" "a")) (col "T" "a"))
              typed_T (ColumnRef "T" "a") 0 (empty_world ()))
    as (tm' & succ & fail & Hr & Hs & Hf & Hsum).
  - intros tm0 r cid v. reflexivity.
  - reflexivity.
  - reflexivity.
  - reflexivity.
  - unfold predicate_total. apply Forall_forall.
    repeat constructor; eexists; vm_compute; reflexivity.
  - intros rm Hrm.
    cbn [update_where row_cache empty_world] in Hrm. rewrite Hp in Hrm.
    exists (int_value 1).
    apply elem_of_cons in Hrm as [->|Hrm];
      [|apply list_elem_of_singleton in Hrm as ->]; split; vm_compute; reflexivity.
  - exists tm', succ, fail. split; [exact Hr|]. split; [done|]. split; [done|].
    cbn [update_where row_cache empty_world] in Hsum. rewrite Hp in Hsum. exact Hsum.
Defined.

(** UPDATE with a value that cannot be stored.  When the value throws on a
    passing row, or is incompatible with the type of the target column
    there, the statement ends at that row with the diagnostic and without
    the summary; the rows behind it are not examined. *)
Theorem update_refused_value_ends_without_summary `{Evaluator} `{Store} `{Mutator}
  (db : database) (info : update_info_t) (tm : table_manager) (cref : column_ref_t)
  (col_id : nat) (w : world ()) (pre post : list record_manager) (rm : record_manager)
  (msg : string) :
  keeps_column_types →
  get_table db (update_table info) = Some tm →
  update_column_ref info = Some cref → lookup_column tm (column cref) = Some col_id →
  records tm = pre ++ rm :: post →
  predicate_total tm (update_where info) (row_cache w) pre →
  (∀ r, r ∈ passing_rows tm (update_where info) (row_cache w) pre →
     value_fits tm col_id (update_value info) (row_cache w) r) →
  holds (update_where info) (<[table_name tm := rm]> (row_cache w)) = inr true →
  value_refused tm col_id (update_value info) (row_cache w) rm msg →
  ∃ tm', update_rows (Some db) info w = Ok (Some tm', cache_clear (puts msg w)).
Proof.
  intros Hkeep Htm Hcref Hcol Hrows Htotal Hfits Hpass Hrefused.
  unfold update_rows, assert_db_open. rewrite Htm, Hcref. obind. rewrite Hcol.
  unfold iterate_one_table. rewrite Hrows.
  destruct (update_loop_counts tm (update_where info) (update_value info) col_id
              (row_cache w) pre (rm :: post) (set_locals (UpdateState tm 0 0 None) w)
              Hkeep eq_refl Htotal Hfits)
    as (w1 & Hloop & _ & _ & _ & _ & Hc & Ho & Hcache & Hty); [done|].
  rewrite Hloop. cbn [iterate_one_table_loop]. unfold eval_cond.
  change (match update_where info with
          | Some c => eval_bool (row_cache (cache_record tm rm w1)) c
          | None => inr true
          end) with (holds (update_where info) (row_cache (cache_record tm rm w1))).
  cbn [cache_record row_cache]. rewrite (Hcache rm), Hpass.
  rewrite (update_callback_refused _ _ _ _ _ _ msg).
  2:{ cbn [cache_record row_cache locals]. rewrite (Hcache rm).
      unfold value_refused, get_column_type in *. by rewrite Hty. }
  obind. cbn [set_locals locals thrown].
  eexists. f_equal. f_equal.
  unfold cache_clear, puts, set_locals.
  cbn [cache_record console output_file locals row_cache].
  cbn [set_locals console output_file] in Hc, Ho. rewrite Hc, Ho.
  by destruct (locals w).
Qed.

Lemma update_refused_value_ends_without_summary_witness :
  ∃ tm',
    update_rows (H:=sample_evaluator [typed_T]) (H0:=typed_store) (H1:=sample_mutator)
      (Some (Database [typed_T]))
      (UpdateInfo "T" (Some (ColumnRef "T" "a")) (Some (col "T" "a")) (col "T" "f"))
      (empty_world ())
    = Ok (Some tm', cache_clear (puts "[Error] Incompatible data type." (empty_world ()))).
Proof.
  apply (update_refused_value_ends_without_summary (H:=sample_evaluator [typed_T])
           (H0:=typed_store) (H1:=sample_mutator) (Database [typed_T])
           (UpdateInfo "T" (Some (ColumnRef "T" "a")) (Some (col "T" "a")) (col "T" "f"))
           typed_T (ColumnRef "T" "a") 0 (empty_world ())
           [RecordManager 1 [Some 0%Z; Some 2%Z]] [RecordManager 3 [Some 1%Z; Some 3%Z]]
           (RecordManager 2 [Some 1%Z; Some 2%Z])).
  - intros tm0 r cid v. reflexivity.
  - reflexivity.
  - reflexivity.
  - reflexivity.
  - reflexivity.
  - unfold predicate_total. apply Forall_forall.
    repeat constructor; eexists; vm_compute; reflexivity.
  - intros r Hr.
    assert (Hp : passing_rows (H:=sample_evaluator [typed_T]) typed_T (Some (col "T" "a")) ∅
                   [RecordManager 1 [Some 0%Z; Some 2%Z]] = [])
      by (vm_compute; reflexivity).
    cbn [update_where row_cache empty_world] in Hr. rewrite Hp in Hr.
    by apply elem_of_nil in Hr.
  - vm_compute. reflexivity.
  - right. exists (float_value (inject_Z 2)). repeat split; vm_compute; reflexivity.
Defined.

(** UPDATE after an error of the predicate.  When the predicate throws on
    a row, the scan ends there with the message, and the summary is still
    printed: it counts the passing rows before that row. *)
Theorem update_after_predicate_error_reports_counts `{Evaluator} `{Store} `{Mutator}
  (db : database) (info : update_info_t) (tm : table_manager) (cref : column_ref_t)
  (col_id : nat) (w : world ()) (pre post : list record_manager) (rm : record_manager)
  (msg : string) :
  keeps_column_types →
  get_table db (update_table info) = Some tm →
  update_column_ref info = Some cref → lookup_column tm (column cref) = Some col_id →
  records tm = pre ++ rm :: post →
  predicate_total tm (update_where info) (row_cache w) pre →
  (∀ r, r ∈ passing_rows tm (update_where info) (row_cache w) pre →
     value_fits tm col_id (update_value info) (row_cache w) r) →
  holds (update_where info) (<[table_name tm := rm]> (row_cache w)) = inl msg →
  ∃ tm' succ fail,
    update_rows (Some db) info w
    = Ok (Some tm', cache_clear (puts (updated_message succ fail) (puts msg w)))
    ∧ (0 ≤ succ)%Z ∧ (0 ≤ fail)%Z
    ∧ (succ + fail
       = Z.of_nat (length (passing_rows tm (update_where info) (row_cache w) pre)))%Z.
Proof.
  intros Hkeep Htm Hcref Hcol Hrows Htotal Hfits Herr.
  unfold update_rows, assert_db_open. rewrite Htm, Hcref. obind. rewrite Hcol.
  unfold iterate_one_table. rewrite Hrows.
  destruct (update_loop_counts tm (update_where info) (update_value info) col_id
              (row_cache w) pre (rm :: post) (set_locals (UpdateState tm 0 0 None) w)
              Hkeep eq_refl Htotal Hfits)
    as (w1 & Hloop & Hth & Hs & Hf & Hsum & Hc & Ho & Hcache & _); [done|].
  rewrite Hloop. cbn [iterate_one_table_loop]. unfold eval_cond.
  change (match update_where info with
          | Some c => eval_bool (row_cache (cache_record tm rm w1)) c
          | None => inr true
          end) with (holds (update_where info) (row_cache (cache_record tm rm w1))).
  cbn [cache_record row_cache]. rewrite (Hcache rm), Herr. obind.
  cbn [set_locals locals succ_count fail_count thrown console output_file] in *.
  cbn [puts cache_record locals]. rewrite Hth by done.
  exists (upd_table (locals w1)), (succ_count (locals w1)), (fail_count (locals w1)).
  split; [|lia].
  unfold cache_clear, puts, set_locals.
  cbn [cache_record console output_file locals row_cache].
  rewrite Hc, Ho. by destruct (locals w).
Qed.

Lemma update_after_predicate_error_reports_counts_witness :
  ∃ tm' succ fail,
    update_rows (H:=sample_evaluator [err_T]) (H0:=typed_store) (H1:=sample_mutator)
      (Some (Database [err_T]))
      (UpdateInfo "T" (Some (ColumnRef "T" "a")) (Some div_cond) (col "T" "a"))
      (empty_world ())
    = Ok (Some tm',
          cache_clear
            (puts (updated_message succ fail)
               (puts "[Error] Division by zero." (empty_world ()))))
    ∧ (0 ≤ succ)%Z ∧ (0 ≤ fail)%Z ∧ (succ + fail = 1)%Z.
Proof.
  assert (Hp : passing_rows (H:=sample_evaluator [err_T]) err_T (Some div_cond) ∅
                 [RecordManager 1 [Some 1%Z; Some 1%Z]]
               = [RecordManager 1 [Some 1%Z; Some 1%Z]])
    by (vm_compute; reflexivity).
  destruct (update_after_predicate_error_reports_counts (H:=sample_evaluator [err_T])
              (H0:=typed_store) (H1:=sample_mutator) (Database [err_T])
              (UpdateInfo "T" (Some (ColumnRef "T" "a")) (Some div_cond) (col "T" "a"))
              err_T (ColumnRef "T" "a") 0 (empty_world ())
              [RecordManager 1 [Some 1%Z; Some 1%Z]] [RecordManager 3 [Some 1%Z; Some 1%Z]]
              (RecordManager 2 [Some 1%Z; Some 0%Z]) "[Error] Division by zero.")
    as (tm' & succ & fail & Hr & Hs & Hf & Hsum).
  - intros tm0 r cid v. reflexivity.
  - reflexivity.
  - reflexivity.
  - reflexivity.
  - reflexivity.
  - unfold predicate_total. apply Forall_forall.
    repeat constructor; eexists; vm_compute; reflexivity.
  - intros r Hr.
    cbn [update_where row_cache empty_world] in Hr. rewrite Hp in Hr.
    apply list_elem_of_singleton in Hr as ->.
    exists (int_value 1). split; vm_compute; reflexivity.
  - vm_compute. reflexivity.
  - exists tm', succ, fail. split; [exact Hr|]. split; [done|]. split; [done|].
    cbn [update_where row_cache empty_world] in Hsum. rewrite Hp in Hsum. exact Hsum.
Defined.

(** ** The tables of the database *)

Lemma find_string_first (name : string) (l : list string) (i : nat) :
  find_string name l = Some i →
  l !! i = Some name ∧ ∀ j, j < i → l !! j ≠ Some name.
Proof.
  revert i. induction l as [|x l IH]; intros i; simpl; [discriminate|].
  destruct (decide (name = x)) as [->|Hne].
  - intros [= <-]. split; [done|]. intros j Hj. lia.
  - destruct (find_string name l) as [k|]; simpl; [|discriminate].
    intros [= <-]. destruct (IH k eq_refl) as [Hk Hfirst]. split; [done|].
    intros [|j] Hj; simpl; [congruence|]. apply Hfirst. lia.
Qed.

Lemma find_string_None (name : string) (l : list string) :
  find_string name l = None ↔ name ∉ l.
Proof.
  induction l as [|x l IH]; simpl.
  - split; [intros _; apply not_elem_of_nil|done].
  - destruct (decide (name = x)) as [->|Hne].
    + split; [discriminate|]. intros Hnot. exfalso. apply Hnot. left.
    + destruct (find_string name l) as [k|]; simpl.
      * split; [discriminate|]. intros Hnot.
        apply not_elem_of_cons in Hnot as [_ Hnot]. by apply IH in Hnot.
      * split; [|done]. intros _. apply not_elem_of_cons. split; [done|]. by apply IH.
Qed.

(** [get_table] by name returns the first table of that name, in the order
    of creation, and null exactly when no table has the name. *)
Theorem get_table_finds_first_of_name (db : database) (name : string) :
  match get_table db name with
  | Some tb =>
    ∃ i, tables db !! i = Some tb ∧ table_name tb = name
         ∧ ∀ j tb', j < i → tables db !! j = Some tb' → table_name tb' ≠ name
  | None => ∀ tb, tb ∈ tables db → table_name tb ≠ name
  end.
Proof.
  unfold get_table.
  destruct (find_string name (table_name <$> tables db)) as [i|] eqn:Hfind; simpl.
  - destruct (find_string_first _ _ _ Hfind) as [Hi Hfirst].
    rewrite list_lookup_fmap in Hi.
    destruct (tables db !! i) as [tb|] eqn:Htb; simpl in Hi; [|discriminate].
    injection Hi as Hname. exists i. split; [done|]. split; [done|].
    intros j tb' Hj Htb' Heq. apply (Hfirst j Hj).
    by rewrite list_lookup_fmap, Htb', <- Heq.
  - apply find_string_None in Hfind. intros tb Htb Heq. apply Hfind.
    apply list_elem_of_fmap. by exists tb.
Qed.

Lemma get_table_None (db : database) (name : string) :
  get_table db name = None ↔ name ∉ table_name <$> tables db.
Proof.
  unfold get_table. split.
  - intros Hnone. apply find_string_None.
    destruct (find_string name (table_name <$> tables db)) as [i|] eqn:Hfind; [|done].
    apply find_string_Some in Hfind. rewrite list_lookup_fmap in Hfind. simpl in Hnone.
    destruct (tables db !! i); [discriminate|]. discriminate.
  - intros Hnot. apply find_string_None in Hnot. by rewrite Hnot.
Qed.

(** [create_table] never makes a new name resolvable.  Its test is
    [!get_table(name)]: for a name that no table has it reports that the
    table already exists and leaves the database as it is; only for a name
    that a table already has does it append a table.  So a name that
    [get_table] does not find before the call is not found after it
    either, provided the created table carries the name of its header. *)
Theorem create_table_never_adds_a_name {L : Type} (MAX_TABLE_NUM : nat)
  (table_create : string → table_header_t → table_manager) (db db' : database)
  (header : table_header_t) (w w' : world L) (name : string) :
  (∀ n h, table_name (table_create n h) = n) →
  create_table MAX_TABLE_NUM table_create (Some db) header w = Ok (Some db', w') →
  get_table db name = None → get_table db' name = None.
Proof.
  intros Hcreate Hr Hnone. unfold create_table, assert_db_open, database_create_table in Hr.
  destruct (get_table db (header_table_name header)) as [tb|] eqn:Hhdr.
  - destruct (decide (length (tables db) < MAX_TABLE_NUM)); [|discriminate].
    injection Hr as <- <-. apply get_table_None.
    pose proof (proj1 (get_table_None db name) Hnone) as Hnot.
    cbn [tables]. rewrite fmap_app. apply not_elem_of_app. split; [done|].
    simpl. rewrite Hcreate. intros Hin. apply list_elem_of_singleton in Hin as ->.
    congruence.
  - by injection Hr as <- <-.
Qed.

Lemma create_table_never_adds_a_name_witness :
  get_table (Database []) "T" = None
  ∧ create_table (L:=()) 8 sample_table_create (Some (Database []))
      (TableHeader "T" ["a"; "__rowid__"] [0%Z; 0%Z]) (empty_world ())
    = Ok (Some (Database []), World ∅ ["[Error] table `T` already exists."] [] ()).
Proof.
  assert (Hrun : create_table (L:=()) 8 sample_table_create (Some (Database []))
                   (TableHeader "T" ["a"; "__rowid__"] [0%Z; 0%Z]) (empty_world ())
                 = Ok (Some (Database []),
                       World ∅ ["[Error] table `T` already exists."] [] ()))
    by (vm_compute; reflexivity).
  split; [|exact Hrun].
  apply (create_table_never_adds_a_name 8 sample_table_create (Database []) (Database [])
           (TableHeader "T" ["a"; "__rowid__"] [0%Z; 0%Z]) (empty_world ())
           (World ∅ ["[Error] table `T` already exists."] [] ()) "T").
  - reflexivity.
  - exact Hrun.
  - reflexivity.
Defined.

(** ** The conjuncts of the predicate *)

(** [extract_and_cond] appends to the conjuncts it is given, never removes
    or reorders them, appends at least one node, and no node it appends is
    an AND node: what the join graph is built from are the operands of the
    top-level conjunction. *)
Theorem extract_and_cond_appends_conjuncts (c : expr_node_t)
  (and_cond result : list expr_node_t) :
  extract_and_cond c and_cond = Ok result →
  ∃ new, result = and_cond ++ new ∧ new ≠ []
         ∧ Forall (λ e, op e ≠ OPERATOR_AND) new.
Proof.
  revert c and_cond result. fix IH 1. intros [o t cr l r] and_cond result Hr.
  assert (Hleaf : o ≠ OPERATOR_AND → extract_and_cond (ExprNode o t cr l r) and_cond
                                     = Ok (and_cond ++ [ExprNode o t cr l r])).
  { intros Ho. by apply extract_and_cond_leaf. }
  destruct (decide (o = OPERATOR_AND)) as [->|Ho].
  - cbn [extract_and_cond] in Hr.
    destruct l as [l|]; [|discriminate].
    destruct (extract_and_cond l and_cond) as [mid|f] eqn:Hl; [|discriminate].
    destruct r as [r|]; [|discriminate].
    destruct (IH l and_cond mid Hl) as (new1 & -> & Hne1 & Hall1).
    destruct (IH r (and_cond ++ new1) result Hr) as (new2 & -> & Hne2 & Hall2).
    exists (new1 ++ new2). split; [by rewrite app_assoc|]. split.
    + destruct new1; [done|discriminate].
    + by apply Forall_app.
  - rewrite Hleaf in Hr by done. injection Hr as <-.
    exists [ExprNode o t cr l r]. split; [done|]. split; [discriminate|].
    by apply Forall_singleton.
Qed.

Lemma extract_and_cond_appends_conjuncts_witness :
  ∃ new,
    [binop OPERATOR_EQ (col "T" "a") (col "U" "c");
     binop OPERATOR_EQ (col "T" "b") (col "U" "c")]
    = [] ++ new
    ∧ new ≠ [] ∧ Forall (λ e, op e ≠ OPERATOR_AND) new.
Proof.
  apply (extract_and_cond_appends_conjuncts scan_cond []). reflexivity.
Defined.

(** ** The index join that declines *)

(** When the two-table index join declines (returns false), it has not
    called the consumer and has not cached any row: the world is as
    before, up to the note on the console that neither column has an
    index.  The enumeration that follows starts afresh. *)
Theorem declined_index_join_has_done_nothing `{Evaluator} {L : Type}
  (callback : list table_manager → list (option record_manager) → list Z
              → world L → outcome (world L * bool))
  (tb1 tb2 : table_manager) (cond : option expr_node_t) (w w' : world L) :
  iterate_two_tables_with_joint_cond_equal callback tb1 tb2 cond w = Ok (w', false) →
  w' = w ∨ ∃ msg, w' = puts msg w.
Proof.
  intros Hr. unfold iterate_two_tables_with_joint_cond_equal in Hr.
  bind_inv Hr j Hj. destruct j as [jc|]; [|injection Hr as <-; by left].
  destruct (decide (op jc ≠ OPERATOR_EQ)); [injection Hr as <-; by left|].
  bind_inv Hr l Hl. bind_inv Hr lref Hlref.
  destruct (decide (table lref ≠ get_table_name tb1)).
  - bind_inv Hr r Hr'. bind_inv Hr rref Hrref.
    destruct (lookup_column tb2 (column lref)) as [cid1|]; [|injection Hr as <-; by left].
    destruct (lookup_column tb1 (column rref)) as [cid2|]; [|injection Hr as <-; by left].
    destruct (get_index tb2 (Some cid1)) as [idx1|], (get_index tb1 (Some cid2)) as [idx2|];
      try (bind_inv Hr w1 Hloop; discriminate).
    injection Hr as <-. right. by eexists.
  - bind_inv Hr r Hr'. bind_inv Hr rref Hrref.
    destruct (lookup_column tb1 (column lref)) as [cid1|]; [|injection Hr as <-; by left].
    destruct (lookup_column tb2 (column rref)) as [cid2|]; [|injection Hr as <-; by left].
    destruct (get_index tb1 (Some cid1)) as [idx1|], (get_index tb2 (Some cid2)) as [idx2|];
      try (bind_inv Hr w1 Hloop; discriminate).
    injection Hr as <-. right. by eexists.
Qed.

Lemma declined_index_join_has_done_nothing_witness :
  puts "[Info] No index for T.a and U.c" (empty_world ([] : list (list Z)))
  = empty_world []
  ∨ ∃ msg,
      puts "[Info] No index for T.a and U.c" (empty_world ([] : list (list Z)))
      = puts msg (empty_world []).
Proof.
  apply (declined_index_join_has_done_nothing (H:=sample_evaluator [div_T; scan_U])
           (record_rids true) div_T scan_U
           (Some (binop OPERATOR_EQ (col "T" "a") (col "U" "c"))) (empty_world [])).
  vm_compute. reflexivity.
Defined.

(** ** The set-up of the executor *)

Lemma mat_get_replicate {A : Type} (n : nat) (a e : A) (p q : nat) :
  mat_get (replicate n (replicate n a)) p q = Ok e → e = a.
Proof.
  intros Hget. apply mat_get_Ok in Hget as (row & Hrow & He).
  apply lookup_replicate in Hrow as [-> _]. by apply lookup_replicate in He as [-> _].
Qed.

Lemma empty_graph_indexed (tbs : list table_manager) :
  graph_indexed tbs (empty_graph (length tbs)).
Proof.
  split; [apply square_replicate|]. split; [apply square_replicate|].
  intros p q (e & He & Hne). apply mat_get_replicate in He. done.
Qed.

Lemma add_edge_keeps_indexed (tbs : list table_manager) (g : join_graph) (i j : nat)
  (c : expr_node_t) :
  graph_indexed tbs g → i < length tbs → j < length tbs →
  conjunct_indexed tbs c i j →
  ∃ g', add_edge g i j c = Ok g' ∧ graph_indexed tbs g'.
Proof.
  intros (HE & HJ & Hedges) Hi Hj Hc.
  destruct (add_edge_spec _ g i j c HE HJ Hi Hj) as (g' & Hg' & HE' & HJ' & He & Hjc & Hframe).
  exists g'. split; [done|]. split; [done|]. split; [done|].
  intros p q Hpq. destruct (decide ((p, q) = (i, j))) as [[= -> ->]|Hne].
  - by exists c.
  - destruct (Hframe p q Hne) as [HeE HeJ]. rewrite HeJ. apply Hedges.
    destruct Hpq as (e & Hget & He0). exists e. by rewrite <- HeE.
Qed.

Lemma setup_join_cond_keeps_indexed (tbs : list table_manager) (c : expr_node_t)
  (g g' : join_graph) :
  graph_indexed tbs g → setup_join_cond tbs c g = Ok (inr g') → graph_indexed tbs g'.
Proof.
  intros Hg Hr. unfold setup_join_cond in Hr.
  bind_inv Hr b Hb. destruct b; [|by injection Hr as <-].
  bind_inv Hr l Hl. bind_inv Hr lref Hlref. bind_inv Hr r Hrr. bind_inv Hr rref Hrref.
  destruct (lookup_table tbs (table lref)) as [tid1|] eqn:Ht1; [|discriminate].
  destruct (lookup_table tbs (table rref)) as [tid2|] eqn:Ht2; [|discriminate].
  bind_inv Hr tb1 Htb1. bind_inv Hr tb2 Htb2.
  apply vec_get_Ok in Htb1, Htb2.
  assert (H1 : tid1 < length tbs) by (by eapply lookup_lt_Some).
  assert (H2 : tid2 < length tbs) by (by eapply lookup_lt_Some).
  destruct (e_left c) as [l'|] eqn:Hel; [|discriminate]. injection Hl as ->.
  destruct (column_ref l) as [lref'|] eqn:Hcl; [|discriminate]. injection Hlref as ->.
  destruct (e_right c) as [r'|] eqn:Her; [|discriminate]. injection Hrr as ->.
  destruct (column_ref r) as [rref'|] eqn:Hcr; [|discriminate]. injection Hrref as ->.
  destruct (lookup_column tb1 (column lref)) as [cid1|] eqn:Hc1; [|discriminate].
  destruct (lookup_column tb2 (column rref)) as [cid2|] eqn:Hc2; [|discriminate].
  bind_inv Hr g1 Hg1. bind_inv Hr g2 Hg2. injection Hr as <-.
  assert (Hg1ok : graph_indexed tbs g1).
  { destruct (get_index tb2 (Some cid2)) as [idx2|] eqn:Hidx2; [|by injection Hg1 as <-].
    destruct (add_edge_keeps_indexed tbs g tid2 tid1 c Hg H2 H1) as (ga & Ha & Hok).
    - exists l, r, lref, rref, tb2, tid1, tid2. repeat split; try done.
      right. rewrite Hc2, Hidx2. done.
    - rewrite Ha in Hg1. by injection Hg1 as <-. }
  destruct (get_index tb1 (Some cid1)) as [idx1|] eqn:Hidx1; [|by injection Hg2 as <-].
  destruct (add_edge_keeps_indexed tbs g1 tid1 tid2 c Hg1ok H1 H2) as (gb & Hb' & Hok).
  - exists l, r, lref, rref, tb1, tid1, tid2. repeat split; try done.
    left. rewrite Hc1, Hidx1. done.
  - rewrite Hb' in Hg2. by injection Hg2 as <-.
Qed.

Lemma setup_join_graph_keeps_indexed (tbs : list table_manager)
  (and_cond : list expr_node_t) (g g' : join_graph) :
  graph_indexed tbs g → setup_join_graph tbs and_cond g = Ok (inr g') →
  graph_indexed tbs g'.
Proof.
  revert g. induction and_cond as [|c and_cond IH]; intros g Hg Hr.
  - by injection Hr as <-.
  - cbn [setup_join_graph] in Hr. bind_inv Hr r Hc. destruct r as [msg|g1]; [discriminate|].
    eapply IH; [|exact Hr]. by eapply setup_join_cond_keeps_indexed.
Qed.

(** The loop that sets [index_ref] and [index_cid] up, along a path whose
    steps are edges that carry an indexed conjunct: it runs to its end,
    and each position it visits gets an index. *)
Lemma setup_iteration_variables_ok (tbs : list table_manager) (g : join_graph)
  (path : list nat) (positions : list nat)
  (index_ref : list (option index_manager)) (index_cid : list (option nat)) :
  length index_ref = length tbs → length index_cid = length tbs →
  (∀ i, i ∈ positions →
     i < length tbs
     ∧ ∃ p q, path !! i = Some p ∧ path !! S i = Some q ∧ p ≠ q ∧ q < length tbs
              ∧ ∃ c, mat_get (J g) p q = Ok (Some c) ∧ conjunct_indexed tbs c p q) →
  ∃ index_ref' index_cid',
    setup_iteration_variables tbs (J g) path positions index_ref index_cid
    = Ok (index_ref', index_cid')
    ∧ length index_ref' = length tbs ∧ length index_cid' = length tbs
    ∧ (∀ i, i ∈ positions → ∃ idx, index_ref' !! i = Some (Some idx))
    ∧ (∀ i, i ∉ positions → index_ref' !! i = index_ref !! i).
Proof.
  revert index_ref index_cid.
  induction positions as [|i positions IH]; intros index_ref index_cid Hlr Hlc Hpos.
  - exists index_ref, index_cid. split; [done|]. split; [done|]. split; [done|].
    split; [|done]. intros i Hi. by apply elem_of_nil in Hi.
  - destruct (Hpos i) as (Hi & p & q & Hp & Hq & Hne & Hqn & c & HJ & Hc); [left|].
    destruct Hc as (l & r & lref & rref & tbp & tid1 & tid2 & Hl & Hlref & Hr & Hrref
                    & Htbp & Ht1 & Ht2 & Hcase).
    destruct (lookup_lt_is_Some_2 tbs q Hqn) as [tbq Htbq].
    cbn [setup_iteration_variables]. unfold vec_get.
    rewrite Hp, Hq. obind. rewrite HJ. obind. rewrite Hl. obind. rewrite Hlref. obind.
    rewrite Htbp, Htbq. obind. rewrite Hr. obind. rewrite Hrref. obind.
    assert (Href : ∃ cid idx,
              (if decide (table lref = get_table_name tbp)
               then (lookup_column tbq (column rref),
                     get_index tbp (lookup_column tbp (column lref)))
               else (lookup_column tbq (column lref),
                     get_index tbp (lookup_column tbp (column rref))))
              = (cid, Some idx)).
    { destruct (lookup_table_Some tbs _ _ Ht1) as (ta & Hta & Hna).
      destruct (lookup_table_Some tbs _ _ Ht2) as (tb & Htb & Hnb).
      destruct Hcase as [(-> & -> & [idx Hidx])|(-> & -> & [idx Hidx])].
      - rewrite Htbp in Hta. injection Hta as <-.
        rewrite decide_True by done. by eexists _, idx; rewrite Hidx.
      - rewrite Htbp in Htb. injection Htb as <-.
        rewrite decide_False; [by eexists _, idx; rewrite Hidx|].
        unfold get_table_name. intros Heq. apply Hne.
        rewrite Heq, Hnb in Ht1. congruence. }
    destruct Href as (cid & idx & ->).
    rewrite !vec_set_lt by lia. obind.
    destruct (IH (<[i:=Some idx]> index_ref) (<[i:=cid]> index_cid))
      as (index_ref' & index_cid' & Hrun & Hlr' & Hlc' & Hset & Hkeep).
    { by rewrite length_insert. }
    { by rewrite length_insert. }
    { intros k Hk. apply Hpos. by right. }
    exists index_ref', index_cid'. split; [done|]. split; [done|]. split; [done|]. split.
    + intros k Hk. destruct (decide (k ∈ positions)) as [Hin|Hnotin]; [by apply Hset|].
      apply elem_of_cons in Hk as [->|Hk]; [|done].
      exists idx. rewrite Hkeep by done. apply list_lookup_insert_eq. lia.
    + intros k Hk. apply not_elem_of_cons in Hk as [Hki Hk].
      rewrite Hkeep by done. by apply list_lookup_insert_ne.
Qed.

(** The shape of the plan, for the set-up that follows it. *)
Lemma plan_iteration_order_shape (E : list (list Z)) (n : nat) (uninit : Z) :
  0 < n → (Z.of_nat n ≤ INT_MAX)%Z → square n E →
  ∃ path max_depth,
    plan_iteration_order E n uninit = Ok (path, max_depth)
    ∧ path ≡ₚ seq 0 n
    ∧ max_depth < n
    ∧ chain E (take (S max_depth) path)
    ∧ NoDup (take (S max_depth) path)
    ∧ drop (S max_depth) path
      = filter (λ v, v ∉ take (S max_depth) path) (seq 0 n).
Proof.
  intros Hn Hbound HE. unfold plan_iteration_order.
  destruct (longest_path_starts_post n E (seq 0 n) (replicate n 0) 0%Z 0 HE Hbound)
    as (path1 & L & start & H1 & Hlen1 & Hstart & HL & Hreach); try done.
  { apply Forall_forall. intros i Hi. apply elem_of_seq in Hi. lia. }
  { apply length_replicate. }
  { by left. }
  rewrite H1. obind.
  destruct (second_search_finds_chain n E start L
              (SearchState (replicate n 0%Z) path1 uninit) HE Hbound Hstart HL Hreach)
    as (st2 & H2 & [Hlm2 Hlp2] & l & Hhd & Hl & Hch & Hnd & Hall & Hpath & _);
    [by split; simpl; [apply length_replicate|]|done|].
  rewrite H2. obind.
  assert (Hlen : length l = S (Z.to_nat L)) by lia.
  assert (Hbelow : Forall (λ v, v < n) l).
  { eapply Forall_impl; [exact Hall|]. by intros v [? _]. }
  pose proof (NoDup_below_length n l Hnd Hbelow) as Hle.
  rewrite <- Hlen.
  rewrite (mark_path_values (s_path st2) (seq 0 (length l)) l).
  2:{ by apply path_holds_positions. }
  2:{ by rewrite length_replicate. }
  obind.
  set (markf := foldl (λ m v, <[v:=1%Z]> m) (replicate n 0%Z) l).
  assert (Hmarkf : length markf = n).
  { unfold markf. by rewrite foldl_marks_length, length_replicate. }
  assert (Hfilter : filter (λ i, markf !! i = Some 0%Z) (seq 0 n)
                    = filter (λ v, v ∉ l) (seq 0 n)).
  { apply filter_iff_on. intros x Hx. apply elem_of_seq in Hx.
    unfold markf. rewrite foldl_marks_lookup by (rewrite length_replicate; lia).
    rewrite lookup_replicate_2 by lia.
    destruct (decide (x ∈ l)); split; try done. }
  pose proof (with_missing_is_permutation n l Hnd Hbelow) as Hperm.
  assert (Hcount : length l + length (filter (λ v, v ∉ l) (seq 0 n)) = n).
  { apply Permutation_length in Hperm. by rewrite length_app, length_seq in Hperm. }
  destruct (append_unmarked_post markf (seq 0 n) (Z.to_nat L) (s_path st2))
    as (path' & Hr & Hlen' & Hpre & Hrest).
  { apply Forall_forall. intros i Hi. apply elem_of_seq in Hi. lia. }
  { rewrite Hfilter. lia. }
  rewrite Hr. obind. rewrite Hfilter in Hrest.
  assert (Hpath' : path' = l ++ filter (λ v, v ∉ l) (seq 0 n)).
  { apply list_eq. intros i. destruct (decide (i < length l)) as [Hi|Hi].
    - rewrite lookup_app_l by done. rewrite Hpre by lia.
      destruct (lookup_lt_is_Some_2 l i Hi) as [v Hv]. rewrite Hv.
      apply (Hpath i v Hv).
    - rewrite lookup_app_r by lia.
      destruct (filter (λ v, v ∉ l) (seq 0 n) !! (i - length l)) as [v|] eqn:Hv.
      + specialize (Hrest _ _ Hv).
        replace (S (Z.to_nat L) + (i - length l)) with i in Hrest by lia. done.
      + apply lookup_ge_None. apply lookup_ge_None in Hv. lia. }
  exists path', (Z.to_nat L). split; [done|].
  rewrite Hpath'. rewrite take_app_length' by lia. rewrite drop_app_length' by lia.
  split; [done|]. split; [lia|]. done.
Qed.

Lemma chain_lookup (E : list (list Z)) (l : list nat) (i p q : nat) :
  chain E l → l !! i = Some p → l !! S i = Some q → edge E p q.
Proof.
  revert i. induction l as [|x l IH]; intros i Hch Hp Hq; [done|].
  destruct l as [|y l]; [done|]. destruct Hch as [Hxy Hch].
  destruct i as [|i]; simpl in Hp, Hq.
  - injection Hp as <-. injection Hq as <-. done.
  - by eapply IH.
Qed.

(** The set-up of the executor finds every index it plans to probe.
    Whenever the join graph of the predicate could be built, the planner
    returns a path and the set-up of [index_ref] and [index_cid] runs to
    its end: no null dereference, no index out of range, and its
    [assert(index_ref[i])] holds at each of the first [max_depth] positions
    of the path; the positions behind them keep a null index and are
    scanned in full. *)
Theorem executor_setup_finds_every_index (tbs : list table_manager)
  (and_cond : list expr_node_t) (g : join_graph) (uninit : Z) :
  0 < length tbs → (Z.of_nat (length tbs) ≤ INT_MAX)%Z →
  setup_join_graph tbs and_cond (empty_graph (length tbs)) = Ok (inr g) →
  ∃ path max_depth index_ref index_cid,
    plan_iteration_order (E g) (length tbs) uninit = Ok (path, max_depth)
    ∧ setup_iteration_variables tbs (J g) path (seq 0 max_depth)
        (replicate (length tbs) None) (replicate (length tbs) None)
      = Ok (index_ref, index_cid)
    ∧ (∀ i, i < max_depth → ∃ idx, index_ref !! i = Some (Some idx))
    ∧ (∀ i, max_depth ≤ i → i < length tbs → index_ref !! i = Some None).
Proof.
  intros Hpos Hmax Hgraph.
  destruct (setup_join_graph_keeps_indexed tbs and_cond _ g (empty_graph_indexed tbs) Hgraph)
    as (HE & HJ & Hedges).
  destruct (plan_iteration_order_shape (E g) (length tbs) uninit Hpos Hmax HE)
    as (path & max_depth & Hplan & Hperm & Hmd & Hchain & Hnd & _).
  assert (Hlen : length path = length tbs).
  { apply Permutation_length in Hperm. by rewrite length_seq in Hperm. }
  destruct (setup_iteration_variables_ok tbs g path (seq 0 max_depth)
              (replicate (length tbs) None) (replicate (length tbs) None))
    as (index_ref & index_cid & Hrun & Hlr & _ & Hset & Hkeep).
  { apply length_replicate. }
  { apply length_replicate. }
  { intros i Hi. apply elem_of_seq in Hi. split; [lia|].
    destruct (lookup_lt_is_Some_2 path i) as [p Hp]; [lia|].
    destruct (lookup_lt_is_Some_2 path (S i)) as [q Hq]; [lia|].
    exists p, q. split; [done|]. split; [done|].
    assert (Hp' : take (S max_depth) path !! i = Some p)
      by (rewrite lookup_take_lt by lia; done).
    assert (Hq' : take (S max_depth) path !! S i = Some q)
      by (rewrite lookup_take_lt by lia; done).
    split; [|split].
    - intros ->. pose proof (NoDup_lookup _ _ _ _ Hnd Hp' Hq'). lia.
    - assert (Hin : q ∈ seq 0 (length tbs)).
      { rewrite <- Hperm. by eapply list_elem_of_lookup_2. }
      apply elem_of_seq in Hin. lia.
    - apply Hedges. by eapply chain_lookup. }
  exists path, max_depth, index_ref, index_cid.
  split; [done|]. split; [done|]. split.
  - intros i Hi. apply Hset. apply elem_of_seq. lia.
  - intros i Hi Hin. rewrite Hkeep.
    + by apply lookup_replicate_2.
    + intros Hseq. apply elem_of_seq in Hseq. lia.
Qed.

Lemma executor_setup_finds_every_index_witness :
  ∃ path max_depth index_ref index_cid,
    plan_iteration_order [[0; 1]; [0; 0]]%Z 2 0 = Ok (path, max_depth)
    ∧ setup_iteration_variables [edge_T0; edge_T1]
        [[None; Some edge_cond]; [None; None]] path (seq 0 max_depth)
        (replicate 2 None) (replicate 2 None)
      = Ok (index_ref, index_cid)
    ∧ (∀ i, i < max_depth → ∃ idx, index_ref !! i = Some (Some idx))
    ∧ (∀ i, max_depth ≤ i → i < 2 → index_ref !! i = Some None).
Proof.
  apply (executor_setup_finds_every_index [edge_T0; edge_T1] [edge_cond]
           (JoinGraph [[0; 1]; [0; 0]]%Z [[None; Some edge_cond]; [None; None]]) 0).
  - simpl. lia.
  - vm_compute. discriminate.
  - vm_compute. reflexivity.
Defined.

(** ** The order of a plain scan *)

Lemma filter_fmap {A B : Type} (Q : B → Prop) `{!∀ x, Decision (Q x)}
  (f : A → B) (l : list A) :
  filter Q (f <$> l) = f <$> filter (λ x, Q (f x)) l.
Proof.
  induction l as [|x l IH]; [done|]. rewrite fmap_cons, !filter_cons.
  destruct (decide (Q (f x))); simpl; by rewrite IH.
Qed.

Section scan_order.
Context `{Evaluator}.
Variable tbs : list table_manager.
Variable cond : option expr_node_t.
Variable c0 : gmap string record_manager.
Variable index_cond : list (list (option expr_node_t)).
Variable index_cid : list (option nat).

Hypothesis predicate_evaluates :
  ∀ rms, rms ∈ product tbs → ∃ b, holds cond (bind_tuple tbs rms c0) = inr b.

Lemma impl_scan_loop_trace (k : nat) (tb : table_manager)
  (inner : world (list (list Z)) → cursor
           → outcome (world (list (list Z)) * cursor * bool))
  (outer : list record_manager) (it : list record_manager)
  (w : world (list (list Z))) (cur : cursor) :
  tbs !! k = Some tb →
  trace_level tbs cond c0 k inner →
  length (record_list cur) = length tbs → length (rid_list cur) = length tbs →
  drop (S k) (rid_list cur) = rid <$> outer →
  (∀ r t, r ∈ it → t ∈ product (take k tbs) → t ++ r :: outer ∈ product tbs) →
  cache_bound tbs (S k) outer c0 (row_cache w) →
  ∃ w' cur',
    impl_scan_loop inner tb k it w cur = Ok (w', cur', true)
    ∧ locals w'
      = locals w
        ++ ((λ t, rid <$> (t ++ outer))
              <$> filter (λ t, holds cond (bind_tuple tbs (t ++ outer) c0) = inr true)
                    (r ← it; (λ t, t ++ [r]) <$> product (take k tbs)))
    ∧ (∀ key, key ∉ table_name <$> take (S k) tbs →
         row_cache w' !! key = row_cache w !! key)
    ∧ length (record_list cur') = length tbs
    ∧ length (rid_list cur') = length tbs
    ∧ drop (S k) (rid_list cur') = drop (S k) (rid_list cur).
Proof.
  intros Htb Hinner.
  assert (Hk : k < length tbs) by (by eapply lookup_lt_Some).
  assert (Htake : take (S k) tbs = take k tbs ++ [tb]) by (by apply take_S_r).
  assert (Hdrop : drop k tbs = tb :: drop (S k) tbs) by (by apply drop_S).
  assert (Hnames : ∀ key, key ∉ table_name <$> take (S k) tbs →
                          key ≠ table_name tb ∧ key ∉ table_name <$> take k tbs).
  { intros key Hkey. rewrite Htake, fmap_app in Hkey.
    apply not_elem_of_app in Hkey as [Hkey Hne]. split; [|done].
    intros ->. apply Hne. simpl. left. }
  revert w cur. induction it as [|r it IH]; intros w cur Hrl Hil Hrids Hok Hcache.
  - exists w, cur. simpl. split; [done|]. split; [by rewrite app_nil_r|]. done.
  - cbn [impl_scan_loop].
    rewrite vec_set_lt by lia. obind. rewrite vec_set_lt by lia. obind.
    destruct (Hinner (r :: outer) (cache_record tb r w)
                (Cursor (<[k:=Some r]> (record_list cur)) (<[k:=rid r]> (rid_list cur))))
      as (w1 & cur1 & Hr1 & Hl1 & Hf1 & Hrl1 & Hil1 & Hd1).
    { simpl. by rewrite length_insert. }
    { simpl. by rewrite length_insert. }
    { cbn [rid_list]. rewrite fmap_cons, <- Hrids.
      rewrite drop_insert_ge by lia. rewrite Nat.sub_diag.
      destruct (drop k (rid_list cur)) as [|x l] eqn:Hdk.
      - apply (f_equal length) in Hdk. rewrite length_drop in Hdk. simpl in Hdk. lia.
      - simpl. f_equal.
        replace (S k) with (k + 1) by lia. rewrite <- drop_drop, Hdk. done. }
    { intros t Ht. apply Hok; [left|done]. }
    { intros key Hkey. rewrite Hdrop. cbn [cache_record row_cache bind_tuple].
      destruct (decide (table_name tb = key)) as [->|Hne].
      - by rewrite !lookup_insert_eq.
      - rewrite !lookup_insert_ne by done. apply Hcache.
        rewrite Htake, fmap_app. apply not_elem_of_app. split; [done|].
        simpl. intros Hin. apply list_elem_of_singleton in Hin. done. }
    rewrite Hr1. obind.
    assert (Hd1' : drop (S k) (rid_list cur1) = drop (S k) (rid_list cur)).
    { cbn [rid_list] in Hd1.
      replace (S k) with (k + 1) by lia. rewrite <- !drop_drop, Hd1.
      rewrite !drop_drop. apply drop_insert_lt. lia. }
    destruct (IH w1 cur1) as (w2 & cur2 & Hr2 & Hl2 & Hf2 & Hrl2 & Hil2 & Hd2); try done.
    { by rewrite Hd1'. }
    { intros r' t Hr' Ht. apply Hok; [by right|done]. }
    { intros key Hkey. destruct (Hnames key Hkey) as [Hne Hkey'].
      rewrite Hf1 by done. cbn [cache_record row_cache].
      rewrite lookup_insert_ne by done. by apply Hcache. }
    exists w2, cur2. split; [done|]. split; [|split; [|split; [done|split; [done|]]]].
    + rewrite Hl2, Hl1. cbn [cache_record locals].
      rewrite bind_cons, filter_app, fmap_app, <- app_assoc. f_equal. f_equal.
      rewrite filter_fmap, <- list_fmap_compose.
      rewrite (list_filter_iff
                 (λ x, holds cond (bind_tuple tbs ((x ++ [r]) ++ outer) c0) = inr true)
                 (λ t, holds cond (bind_tuple tbs (t ++ r :: outer) c0) = inr true)).
      * apply list_fmap_ext. intros i t _. simpl. by rewrite <- app_assoc.
      * intros t. by rewrite <- app_assoc.
    + intros key Hkey. destruct (Hnames key Hkey) as [Hne Hkey'].
      rewrite Hf2 by done. rewrite Hf1 by done. cbn [cache_record row_cache].
      by rewrite lookup_insert_ne.
    + by rewrite Hd2.
Qed.

Lemma impl_trace (k : nat) :
  k ≤ length tbs →
  trace_level tbs cond c0 k
    (iterate_many_tables_impl tbs index_cond (seq 0 (length tbs)) index_cid
       (replicate (length tbs) None) cond (record_rids true) k).
Proof.
  induction k as [|k IH]; intros Hk outer w cur Hrl Hil Hrids Hok Hcache.
  - assert (Houter : outer ∈ product tbs).
    { apply (Hok []). rewrite take_0. simpl. left. }
    assert (Hc : row_cache w = bind_tuple tbs outer c0).
    { apply map_eq. intros key. rewrite (Hcache key); [by rewrite drop_0|].
      rewrite take_0. apply not_elem_of_nil. }
    destruct (predicate_evaluates outer Houter) as [b Hb].
    cbn [iterate_many_tables_impl]. unfold eval_cond.
    change (match cond with
            | Some c => eval_bool (row_cache w) c
            | None => inr true
            end) with (holds cond (row_cache w)).
    rewrite take_0. cbn [product]. rewrite filter_cons, filter_nil. cbn [app].
    assert (Hh : holds cond (row_cache w) = inr b) by (by rewrite Hc).
    rewrite Hh, Hb. rewrite drop_0 in Hrids. destruct b.
    + unfold record_rids. obind. eexists _, cur. split; [done|].
      rewrite decide_True by done. cbn [set_locals locals row_cache fmap list_fmap].
      split; [by rewrite Hrids|]. done.
    + exists w, cur. split; [done|]. rewrite decide_False by done.
      simpl. rewrite app_nil_r. done.
  - assert (Hlt : k < length tbs) by lia.
    destruct (lookup_lt_is_Some_2 tbs k Hlt) as [tb Htb].
    cbn [iterate_many_tables_impl]. unfold vec_get.
    rewrite lookup_replicate_2 by done. obind.
    rewrite lookup_seq_lt by done. obind. change (0 + k) with k.
    rewrite Htb. obind.
    assert (Htake : take (S k) tbs = take k tbs ++ [tb]) by (by apply take_S_r).
    destruct (impl_scan_loop_trace k tb
                (iterate_many_tables_impl tbs index_cond (seq 0 (length tbs)) index_cid
                   (replicate (length tbs) None) cond (record_rids true) k)
                outer (records tb) w cur Htb)
      as (w' & cur' & Hr & Hl & Hf & Hrl' & Hil' & Hd'); try done.
    + apply IH. lia.
    + intros r t Hr Ht. replace (t ++ r :: outer) with ((t ++ [r]) ++ outer)
        by (by rewrite <- app_assoc).
      apply Hok. rewrite Htake, product_snoc. apply list_elem_of_bind.
      exists r. split; [|done]. apply list_elem_of_fmap. by exists t.
    + exists w', cur'. split; [done|]. split; [|done].
      rewrite Hl, Htake, product_snoc. done.
Qed.

End scan_order.

Lemma record_rids_eq (go : bool) (tables : list table_manager)
  (records : list (option record_manager)) (rids : list Z) (w : world (list (list Z))) :
  record_rids go tables records rids w = Ok (set_locals (locals w ++ [rids]) w, go).
Proof. reflexivity. Qed.

Lemma one_table_trace `{Evaluator} (tb : table_manager) (tables : list table_manager)
  (cond : option expr_node_t) (c0 : gmap string record_manager)
  (it : list record_manager) (w : world (list (list Z))) :
  predicate_total tb cond c0 it →
  (∀ rm, <[table_name tb := rm]> (row_cache w) = <[table_name tb := rm]> c0) →
  final_locals
    (iterate_one_table_loop tb cond
       (λ _ rm rid, record_rids true tables [Some rm] [rid]) it w)
  = Some (locals w ++ ((λ rm, [rid rm]) <$> passing_rows tb cond c0 it)).
Proof.
  revert w. induction it as [|rm it IH]; intros w Htotal Hcache.
  - simpl. by rewrite app_nil_r.
  - assert (Htotal' : predicate_total tb cond c0 it).
    { intros r Hr. apply Htotal. by right. }
    destruct (Htotal rm) as [b Hb]; [left|].
    cbn [iterate_one_table_loop]. unfold eval_cond.
    change (match cond with
            | Some c => eval_bool (row_cache (cache_record tb rm w)) c
            | None => inr true
            end) with (holds cond (row_cache (cache_record tb rm w))).
    cbn [cache_record row_cache]. rewrite (Hcache rm), Hb.
    unfold passing_rows. rewrite filter_cons. fold (passing_rows tb cond c0 it).
    destruct b.
    + rewrite record_rids_eq. obind. rewrite IH; [|done|].
      * rewrite decide_True by done. cbn [set_locals locals].
        by rewrite fmap_cons, <- app_assoc.
      * intros rm'. cbn [set_locals cache_record row_cache].
        rewrite insert_insert_eq. apply Hcache.
    + rewrite IH; [|done|].
      * by rewrite decide_False by (by rewrite Hb).
      * intros rm'. cbn [cache_record row_cache]. rewrite insert_insert_eq. apply Hcache.
Qed.

Lemma many_tables_trace `{Evaluator} (uninit : Z) (tbs : list table_manager)
  (cond : option expr_node_t) (c : expr_node_t) (and_cond : list expr_node_t)
  (g : join_graph) (w : world (list (list Z))) :
  (∀ rms, rms ∈ product tbs →
     ∃ b, holds cond (bind_tuple tbs rms (row_cache w)) = inr b) →
  0 < length tbs → (Z.of_nat (length tbs) ≤ INT_MAX)%Z → Forall no_index tbs →
  cond = Some c →
  extract_and_cond c [] = Ok and_cond →
  setup_join_graph tbs and_cond (empty_graph (length tbs)) = Ok (inr g) →
  ∃ w',
    iterate_many_tables uninit (record_rids true) tbs cond w = Ok w'
    ∧ locals w' = locals w ++ ((λ t : list record_manager, rid <$> t) <$> true_tuples cond tbs (row_cache w)).
Proof.
  intros Hpred Hpos Hmax Hall Hcond Hextract Hgraph.
  destruct (setup_join_graph_no_index tbs and_cond _ g Hall Hgraph) as [Hg _].
  assert (Hd : deref cond = Ok c) by (by rewrite Hcond).
  unfold iterate_many_tables. rewrite Hd. obind.
  rewrite Hextract. obind. rewrite Hgraph. obind. rewrite Hg.
  cbn [E J empty_graph].
  rewrite plan_without_edges by done. obind.
  cbn [seq setup_iteration_variables]. obind.
  destruct (impl_trace tbs cond (row_cache w)
              (replicate (length tbs) (replicate (length tbs) None))
              (replicate (length tbs) None) Hpred (length tbs)
              (le_n _) [] w
              (Cursor (replicate (length tbs) None) (replicate (length tbs) 0%Z)))
    as (w1 & cur1 & Hr & Hl & _).
  { simpl. apply length_replicate. }
  { simpl. apply length_replicate. }
  { simpl. apply drop_ge. by rewrite length_replicate. }
  { intros t Ht. rewrite firstn_all in Ht. by rewrite app_nil_r. }
  { intros key _. rewrite drop_all. by destruct tbs. }
  rewrite Hr. obind.
  destruct (iteration_order_names_total tbs (seq 0 (length tbs)) Hpos) as [names Hnames].
  rewrite Hnames. obind. cbn [index_use_names]. obind.
  eexists. split; [done|]. cbn [puts locals]. rewrite Hl. f_equal.
  unfold true_tuples. rewrite firstn_all.
  rewrite (list_filter_iff
             (λ t, holds cond (bind_tuple tbs (t ++ []) (row_cache w)) = inr true)
             (λ rms, holds cond (bind_tuple tbs rms (row_cache w)) = inr true)).
  - apply list_fmap_ext. intros i t _. simpl. by rewrite app_nil_r.
  - intros t. by rewrite app_nil_r.
Qed.

(** The order of a plain nested scan.  Over one table, or over several
    tables without any index, when the predicate evaluates without error
    on every tuple of the product of the tables' rows, [iterate] calls the
    consumer exactly once for each tuple on which the predicate is true,
    with the row ids of the tuple in the order of the tables, and in the
    order of the product in which the first table varies fastest: a
    consumer that records the row ids it is called with ends with that
    list. *)
Theorem plain_scan_calls_consumer_in_product_order `{Evaluator} (uninit : Z)
  (tbs : list table_manager) (cond : option expr_node_t) (w : world (list (list Z))) :
  plain_scan tbs cond →
  (∀ rms, rms ∈ product tbs →
     ∃ b, holds cond (bind_tuple tbs rms (row_cache w)) = inr b) →
  final_locals (iterate uninit (record_rids true) tbs cond w)
  = Some (locals w ++ ((λ t : list record_manager, rid <$> t) <$> true_tuples cond tbs (row_cache w))).
Proof.
  intros [Hone|(Hlen & Hmax & Hall & c & and_cond & g & j & Hcond & Hextract & Hgraph & Hj)]
    Hpred.
  - destruct tbs as [|tb [|tb' rest]]; [discriminate| |discriminate].
    cbn [iterate]. unfold iterate_one_table.
    rewrite (one_table_trace tb [tb] cond (row_cache w)); [|..|done].
    + f_equal. f_equal. unfold true_tuples, passing_rows.
      rewrite product_one, filter_fmap, <- list_fmap_compose. done.
    + intros rm Hrm. apply (Hpred [rm]). rewrite product_one.
      apply list_elem_of_fmap. by exists rm.
  - assert (Hpos : 0 < length tbs) by lia.
    destruct (many_tables_trace uninit tbs cond c and_cond g w) as (w' & Hr & Hl);
      try done.
    destruct tbs as [|tb1 [|tb2 [|tb3 rest]]]; [simpl in Hlen; lia|simpl in Hlen; lia| |].
    + assert (Hread : readable_equality c).
      { destruct (decide (op c = OPERATOR_AND)) as [Hand|Hand].
        - intros Heq. rewrite Hand in Heq. discriminate.
        - rewrite extract_and_cond_leaf in Hextract by done.
          injection Hextract as <-.
          destruct (setup_join_graph_no_index [tb1; tb2] [c] _ g Hall Hgraph)
            as [_ Hreads].
          by apply Forall_inv in Hreads. }
      assert (Hn1 : no_index tb1).
      { rewrite Forall_forall in Hall. apply Hall. left. }
      assert (Hn2 : no_index tb2).
      { rewrite Forall_forall in Hall. apply Hall. right. left. }
      rewrite Hcond in Hj.
      destruct (index_join_declines (record_rids true) tb1 tb2 c j w Hn1 Hn2 Hj Hread)
        as (w0 & Hdecl & Hw0).
      cbn [iterate]. rewrite Hcond at 1. rewrite Hdecl. obind.
      destruct Hw0 as [->|[msg ->]].
      * rewrite Hr. obind. cbn [final_locals puts locals]. by rewrite Hl.
      * destruct (many_tables_trace uninit [tb1; tb2] cond c and_cond g (puts msg w))
          as (w'' & Hr' & Hl'); try done.
        rewrite Hr'. obind. cbn [final_locals puts locals]. by rewrite Hl'.
    + cbn [iterate]. rewrite Hr. obind. cbn [final_locals puts locals]. by rewrite Hl.
Qed.

Lemma plain_scan_calls_consumer_in_product_order_witness :
  final_locals
    (iterate (H:=sample_evaluator [div_T; scan_U]) 0 (record_rids true) [div_T; scan_U]
       (Some (binop OPERATOR_EQ (col "T" "a") (col "U" "c"))) (empty_world []))
  = Some [[1%Z; 1%Z]; [2%Z; 1%Z]].
Proof.
  rewrite (plain_scan_calls_consumer_in_product_order (H:=sample_evaluator [div_T; scan_U])
             0 [div_T; scan_U] (Some (binop OPERATOR_EQ (col "T" "a") (col "U" "c")))
             (empty_world [])).
  - vm_compute. reflexivity.
  - right. split; [simpl; lia|]. split; [vm_compute; discriminate|]. split.
    + repeat constructor; intros [[|[|[|?]]]|]; reflexivity.
    + eexists _, _, _, _. repeat split; vm_compute; reflexivity.
  - apply Forall_forall.
    let l := eval vm_compute in (product [div_T; scan_U]) in
    change (product [div_T; scan_U]) with l.
    repeat constructor; eexists; vm_compute; reflexivity.
Defined.
